(** * Llpc::PatchImageOp — the image-operation patching pass

    A shallow embedding of [src/patch/llpcPatchImageOp.cpp] and the
    properties of its visitor and of [runOnModule].

    The IR is modelled the way the pass sees it: instructions are heap
    objects with an identity (an [InstId] stands for the [Instruction*]),
    kept in a store; a function body is the ordered list of the identities it
    contains; an operand that refers to an instruction's result holds that
    instruction's identity. Failed assertions and failed [cast<>]s are the
    [None] result of the visitor. *)

From Stdlib Require Import ZArith String Ascii Lia Bool.
From stdpp Require Import base option list gmap sets strings.

#[local] Set Warnings "-clear-no-such-hyp".

Open Scope Z_scope.

Module Llpc.

(** ** The IR *)

Abbreviation InstId := positive.

Inductive Ty :=
| VoidTy
| IntTy (bits : N)
| VectorTy (count : N) (elt : Ty)
| OpaqueTy (k : nat).

Definition Int32Ty : Ty := IntTy 32.
Definition Int64Ty : Ty := IntTy 64.
Definition Int32x2Ty : Ty := VectorTy 2 (IntTy 32).

(** A [Value*]: an integer constant (bit width and zero-extended value), the
    result of an instruction, or anything else (argument, global, undef,
    non-integer constant). *)
Inductive Value :=
| ConstantInt (bits : N) (val : Z)
| InstResult (id : InstId)
| OtherValue (k : nat).

(** The instructions the pass reads or creates; [Call None _] is a call with
    no statically known callee, [OtherInst] any other instruction with its
    operand list. *)
Inductive Operation :=
| Call (callee : option string) (args : list Value)
| BitCastInst (v : Value)
| ExtractElementInst (vec idx : Value)
| LShr (lhs rhs : Value)
| OtherInst (ops : list Value).

Record Instruction := { instType : Ty; instOp : Operation }.

Record Module := {
  moduleInsts : gmap InstId Instruction;
  moduleFuncs : list (list InstId)
}.

Record GfxIpVersion := { major : Z; minor : Z; stepping : Z }.

(** The pass object: the module it works on and the calls to erase. *)
Record PatchImageOp := {
  m_pModule : Module;
  m_imageCalls : gset InstId
}.

#[global] Instance Ty_eq_dec : EqDecision Ty.
Proof. solve_decision. Defined.
#[global] Instance Value_eq_dec : EqDecision Value.
Proof. solve_decision. Defined.
#[global] Instance Operation_eq_dec : EqDecision Operation.
Proof. solve_decision. Defined.
#[global] Instance Instruction_eq_dec : EqDecision Instruction.
Proof. solve_decision. Defined.

(** ** Declarations the pass takes from headers outside this file

    [LlpcName::ImageCallPrefix], the bit-fields [OpKind] and [Dim] of
    [ShaderImageCallMetadata] (position and width inside [U32All]) and the
    enumerators compared against them. *)
Class ImageAbi := {
  ImageCallPrefix : string;
  OpKindLsb : Z;
  OpKindBits : Z;
  DimLsb : Z;
  DimBits : Z;
  ImageOpQueryNonLod : Z;
  ImageOpFetch : Z;
  ImageOpRead : Z;
  ImageOpWrite : Z;
  ImageOpAtomicExchange : Z;
  ImageOpAtomicCompareExchange : Z;
  ImageOpAtomicIIncrement : Z;
  ImageOpAtomicIDecrement : Z;
  ImageOpAtomicIAdd : Z;
  ImageOpAtomicISub : Z;
  ImageOpAtomicSMin : Z;
  ImageOpAtomicUMin : Z;
  ImageOpAtomicSMax : Z;
  ImageOpAtomicUMax : Z;
  ImageOpAtomicAnd : Z;
  ImageOpAtomicOr : Z;
  ImageOpAtomicXor : Z;
  DimBuffer : Z
}.

(** ** Primitive IR operations *)

(** [StringRef::startswith]. *)
Definition startswith (s pre : string) : bool := String.prefix pre s.

(** [ConstantInt::getZExtValue]: the value as a [uint64_t] (the operands of
    image calls are at most 64 bits wide). *)
Definition getZExtValue (val : Z) : Z := val mod 2 ^ 64.

(** Conversion of a [uint64_t] to [uint32_t]. *)
Definition toU32 (v : Z) : Z := v mod 2 ^ 32.

Fixpoint insertBefore (pos : InstId) (new : InstId) (body : list InstId) : list InstId :=
  match body with
  | [] => []
  | x :: rest =>
      if decide (x = pos) then new :: x :: rest
      else x :: insertBefore pos new rest
  end.

(** A new instruction gets an identity no live instruction has and is put in
    front of [pos] in the body that holds [pos]. *)
Definition insertInst (m : Module) (i : Instruction) (pos : InstId) : Module * InstId :=
  let id := fresh (dom (moduleInsts m)) in
  ({| moduleInsts := <[id := i]> (moduleInsts m);
      moduleFuncs := insertBefore pos id <$> moduleFuncs m |}, id).

Definition substValue (old new : InstId) (v : Value) : Value :=
  match v with
  | InstResult id => if decide (id = old) then InstResult new else v
  | _ => v
  end.

Definition mapOperands (f : Value → Value) (op : Operation) : Operation :=
  match op with
  | Call callee args => Call callee (f <$> args)
  | BitCastInst v => BitCastInst (f v)
  | ExtractElementInst vec idx => ExtractElementInst (f vec) (f idx)
  | LShr lhs rhs => LShr (f lhs) (f rhs)
  | OtherInst ops => OtherInst (f <$> ops)
  end.

Definition operands (op : Operation) : list Value :=
  match op with
  | Call _ args => args
  | BitCastInst v => [v]
  | ExtractElementInst vec idx => [vec; idx]
  | LShr lhs rhs => [lhs; rhs]
  | OtherInst ops => ops
  end.

Definition substInst (old new : InstId) (i : Instruction) : Instruction :=
  {| instType := instType i; instOp := mapOperands (substValue old new) (instOp i) |}.

(** [Value::replaceAllUsesWith]: every operand, of every instruction, that is
    the result of [old] becomes the result of [new]. *)
Definition replaceAllUsesWith (m : Module) (old new : InstId) : Module :=
  {| moduleInsts := substInst old new <$> moduleInsts m;
     moduleFuncs := moduleFuncs m |}.

(** [CallInst::setArgOperand]. *)
Definition setArgOperandInst (k : nat) (v : Value) (i : Instruction) : Instruction :=
  match instOp i with
  | Call callee args => {| instType := instType i; instOp := Call callee (<[k := v]> args) |}
  | _ => i
  end.

Definition setArgOperand (m : Module) (callInst : InstId) (k : nat) (v : Value) : Module :=
  {| moduleInsts := alter (setArgOperandInst k v) callInst (moduleInsts m);
     moduleFuncs := moduleFuncs m |}.

(** [dropAllReferences] followed by [eraseFromParent]: the instruction leaves
    its body and is destroyed. *)
Definition eraseInst (id : InstId) (m : Module) : Module :=
  {| moduleInsts := delete id (moduleInsts m);
     moduleFuncs := filter (λ x, x ≠ id) <$> moduleFuncs m |}.

(** Modelled from the spec: [EmitCall] (declared in llpcInternal.h) builds a
    call to the function named [name] with the given result type and operands
    and inserts it immediately before [insertPos]; it returns the new call. *)
Definition EmitCall (m : Module) (name : string) (retTy : Ty) (args : list Value)
    (insertPos : InstId) : Module * InstId :=
  insertInst m {| instType := retTy; instOp := Call (Some name) args |} insertPos.

(** The loop that copies the operands of [callInst] into [args], one
    [push_back] per index. *)
Definition copyArgOperands (operandList : list Value) : list Value :=
  foldl (λ args i, match operandList !! i with
                   | Some pArg => args ++ [pArg]
                   | None => args
                   end) [] (seq 0 (length operandList)).

(** ** Run-time value of the instructions the pass emits

    What an operand evaluates to when the program counter is [pc]:
    [llvm.amdgcn.s.getpc] returns the program counter, a bitcast of a 64-bit
    integer to two 32-bit lanes puts the low half in lane 0 and the high half
    in lane 1. Instructions the pass never emits have no value here. *)
Inductive RuntimeValue :=
| RtInt (n : Z)
| RtVector (lanes : list Z).

Fixpoint evalValue (fuel : nat) (m : Module) (pc : Z) (v : Value) : option RuntimeValue :=
  match v with
  | ConstantInt _ val => Some (RtInt val)
  | OtherValue _ => None
  | InstResult id =>
      match fuel with
      | O => None
      | S fuel' =>
          i ← moduleInsts m !! id;
          match instOp i with
          | Call pCallee args =>
              if decide (pCallee = Some "llvm.amdgcn.s.getpc" ∧ args = [])
              then Some (RtInt pc) else None
          | BitCastInst x =>
              x' ← evalValue fuel' m pc x;
              match x', instType i with
              | RtInt n, VectorTy 2 (IntTy 32) =>
                  Some (RtVector [n mod 2 ^ 32; (n / 2 ^ 32) mod 2 ^ 32])
              | _, _ => None
              end
          | ExtractElementInst vec idx =>
              vec' ← evalValue fuel' m pc vec;
              idx' ← evalValue fuel' m pc idx;
              match vec', idx' with
              | RtVector lanes, RtInt k => RtInt <$> lanes !! Z.to_nat k
              | _, _ => None
              end
          | LShr lhs rhs =>
              lhs' ← evalValue fuel' m pc lhs;
              rhs' ← evalValue fuel' m pc rhs;
              match lhs', rhs' with
              | RtInt a, RtInt b => Some (RtInt (Z.shiftr a b))
              | _, _ => None
              end
          | OtherInst _ => None
          end
      end
  end.

(** ** Image call metadata *)

Record ShaderImageCallMetadata := { U32All : Z }.

Section Pass.
Context `{abi : ImageAbi}.

(** The bit-fields [OpKind] and [Dim], unpacked from [U32All]. *)
Definition OpKind (imageCallMeta : ShaderImageCallMetadata) : Z :=
  Z.land (Z.shiftr (U32All imageCallMeta) OpKindLsb) (Z.ones OpKindBits).

Definition Dim (imageCallMeta : ShaderImageCallMetadata) : Z :=
  Z.land (Z.shiftr (U32All imageCallMeta) DimLsb) (Z.ones DimBits).

(** The condition of the first branch of [visitCallInst]. *)
Definition isBufferSizeQuery (imageCallMeta : ShaderImageCallMetadata) : bool :=
  (OpKind imageCallMeta =? ImageOpQueryNonLod) && (Dim imageCallMeta =? DimBuffer).

(** The condition of its [else if] branch. *)
Definition isBufferOffsetOp (imageCallMeta : ShaderImageCallMetadata) : bool :=
  (Dim imageCallMeta =? DimBuffer) &&
  ((OpKind imageCallMeta =? ImageOpFetch) ||
   (OpKind imageCallMeta =? ImageOpRead) ||
   (OpKind imageCallMeta =? ImageOpWrite) ||
   (OpKind imageCallMeta =? ImageOpAtomicExchange) ||
   (OpKind imageCallMeta =? ImageOpAtomicCompareExchange) ||
   (OpKind imageCallMeta =? ImageOpAtomicIIncrement) ||
   (OpKind imageCallMeta =? ImageOpAtomicIDecrement) ||
   (OpKind imageCallMeta =? ImageOpAtomicIAdd) ||
   (OpKind imageCallMeta =? ImageOpAtomicISub) ||
   (OpKind imageCallMeta =? ImageOpAtomicSMin) ||
   (OpKind imageCallMeta =? ImageOpAtomicUMin) ||
   (OpKind imageCallMeta =? ImageOpAtomicSMax) ||
   (OpKind imageCallMeta =? ImageOpAtomicUMax) ||
   (OpKind imageCallMeta =? ImageOpAtomicAnd) ||
   (OpKind imageCallMeta =? ImageOpAtomicOr) ||
   (OpKind imageCallMeta =? ImageOpAtomicXor)).

(** The two selectors in the spec's words: the operation kinds of the offset
    erratum as a set, and each selector as a proposition. *)
Definition offsetErratumOpKinds : list Z :=
  [ImageOpFetch; ImageOpRead; ImageOpWrite; ImageOpAtomicExchange;
   ImageOpAtomicCompareExchange; ImageOpAtomicIIncrement; ImageOpAtomicIDecrement;
   ImageOpAtomicIAdd; ImageOpAtomicISub; ImageOpAtomicSMin; ImageOpAtomicUMin;
   ImageOpAtomicSMax; ImageOpAtomicUMax; ImageOpAtomicAnd; ImageOpAtomicOr;
   ImageOpAtomicXor].

Definition SizeQuerySelector (imageCallMeta : ShaderImageCallMetadata) : Prop :=
  OpKind imageCallMeta = ImageOpQueryNonLod ∧ Dim imageCallMeta = DimBuffer.

Definition OffsetErratumSelector (imageCallMeta : ShaderImageCallMetadata) : Prop :=
  Dim imageCallMeta = DimBuffer ∧ OpKind imageCallMeta ∈ offsetErratumOpKinds.

(** The enumerators of the operation kind are pairwise different values; the
    pass relies on it only between the size query and the erratum kinds. *)
Definition EnumeratorsDistinct : Prop := ImageOpQueryNonLod ∉ offsetErratumOpKinds.

(** Lines 112-115: the operand-count assertion, then the metadata read from
    the last operand through [cast<ConstantInt>]. *)
Definition decodeMetadata (operandList : list Value) : option ShaderImageCallMetadata :=
  if decide (2 ≤ length operandList)%nat then
    let metaOperandIndex := (length operandList - 1)%nat in
    match operandList !! metaOperandIndex with
    | Some (ConstantInt _ val) => Some {| U32All := toU32 (getZExtValue val) |}
    | _ => None
    end
  else None.

(** The buffer size query branch (lines 122-143). *)
Definition patchBufferSizeQuery (gfxIp : GfxIpVersion) (self : PatchImageOp)
    (callInst : InstId) (ty : Ty) (mangledName : string) (operandList : list Value)
  : PatchImageOp :=
  if major gfxIp <=? 8 then
    let args := copyArgOperands operandList in
    let callName := mangledName +:+ (if major gfxIp =? 8 then ".gfx8" else ".gfx6") in
    let '(m1, pImageCall) := EmitCall (m_pModule self) callName ty args callInst in
    let m2 := replaceAllUsesWith m1 callInst pImageCall in
    {| m_pModule := m2; m_imageCalls := {[callInst]} ∪ m_imageCalls self |}
  else self.

(** The instructions that compute the replacement texel offset, each
    inserted in front of [callInst] (lines 176-193). *)
Definition emitNonConstantZero (m : Module) (callInst : InstId) : Module * InstId :=
  let '(m1, pPc) := EmitCall m "llvm.amdgcn.s.getpc" Int64Ty [] callInst in
  let '(m2, pPcCast) :=
    insertInst m1 {| instType := Int32x2Ty; instOp := BitCastInst (InstResult pPc) |} callInst in
  let '(m3, pPcHigh) :=
    insertInst m2 {| instType := Int32Ty;
                     instOp := ExtractElementInst (InstResult pPcCast) (ConstantInt 32 1) |}
               callInst in
  insertInst m3 {| instType := Int32Ty;
                   instOp := LShr (InstResult pPcHigh) (ConstantInt 32 24) |} callInst.

(** The texel offset branch (lines 163-196); [None] when operand 3 does not
    exist. *)
Definition patchTexelOffset (gfxIp : GfxIpVersion) (self : PatchImageOp)
    (callInst : InstId) (operandList : list Value) : option PatchImageOp :=
  if major gfxIp =? 9 then
    match operandList !! 3%nat with
    | None => None
    | Some (ConstantInt _ val) =>
        let texelOffset := toU32 (getZExtValue val) in
        if texelOffset =? 0 then
          let '(m1, pTexelOffset) := emitNonConstantZero (m_pModule self) callInst in
          Some {| m_pModule := setArgOperand m1 callInst 3 (InstResult pTexelOffset);
                  m_imageCalls := m_imageCalls self |}
        else Some self
    | Some _ => Some self
    end
  else Some self.

(** [PatchImageOp::visitCallInst]; [callInst] is the call's identity, [ty],
    [pCallee] and [operandList] what the call holds when it is visited. *)
Definition visitCallInst (gfxIp : GfxIpVersion) (self : PatchImageOp)
    (callInst : InstId) (ty : Ty) (pCallee : option string) (operandList : list Value)
  : option PatchImageOp :=
  match pCallee with
  | None => Some self
  | Some mangledName =>
      if startswith mangledName ImageCallPrefix then
        imageCallMeta ← decodeMetadata operandList;
        if isBufferSizeQuery imageCallMeta then
          Some (patchBufferSizeQuery gfxIp self callInst ty mangledName operandList)
        else if isBufferOffsetOp imageCallMeta then
          patchTexelOffset gfxIp self callInst operandList
        else Some self
      else Some self
  end.

(** The visitor with its two rules tried in the other order, to compare with
    [visitCallInst]. *)
Definition visitCallInstSwapped (gfxIp : GfxIpVersion) (self : PatchImageOp)
    (callInst : InstId) (ty : Ty) (pCallee : option string) (operandList : list Value)
  : option PatchImageOp :=
  match pCallee with
  | None => Some self
  | Some mangledName =>
      if startswith mangledName ImageCallPrefix then
        imageCallMeta ← decodeMetadata operandList;
        if isBufferOffsetOp imageCallMeta then
          patchTexelOffset gfxIp self callInst operandList
        else if isBufferSizeQuery imageCallMeta then
          Some (patchBufferSizeQuery gfxIp self callInst ty mangledName operandList)
        else Some self
      else Some self
  end.

(** The visitor's dispatch: only call instructions reach [visitCallInst]. *)
Definition visitInst (gfxIp : GfxIpVersion) (self : PatchImageOp) (id : InstId)
  : option PatchImageOp :=
  match moduleInsts (m_pModule self) !! id with
  | Some {| instType := ty; instOp := Call pCallee operandList |} =>
      visitCallInst gfxIp self id ty pCallee operandList
  | _ => Some self
  end.

(** The walk of [InstVisitor] over the instructions of a body, in program
    order. What a visit inserts goes in front of the visited call, so the
    walk meets exactly the instructions the body had when it started; each is
    read from the store when its turn comes. *)
Fixpoint visitInsts (gfxIp : GfxIpVersion) (self : PatchImageOp) (ids : list InstId)
  : option PatchImageOp :=
  match ids with
  | [] => Some self
  | id :: rest => self' ← visitInst gfxIp self id; visitInsts gfxIp self' rest
  end.

(** [visit] applied to the entry point; [f] is the position of the entry
    point among the functions of the module. *)
Definition visit (gfxIp : GfxIpVersion) (self : PatchImageOp) (f : nat)
  : option PatchImageOp :=
  match moduleFuncs (m_pModule self) !! f with
  | Some body => visitInsts gfxIp self body
  | None => Some self
  end.

(** The loop over the shader stages; [entryPoints] lists, stage by stage,
    what [GetEntryPoint] returns ([None] for [nullptr]). *)
Fixpoint visitStages (gfxIp : GfxIpVersion) (self : PatchImageOp)
    (entryPoints : list (option nat)) : option PatchImageOp :=
  match entryPoints with
  | [] => Some self
  | None :: rest => visitStages gfxIp self rest
  | Some f :: rest => self' ← visit gfxIp self f; visitStages gfxIp self' rest
  end.

(** The loop over [m_imageCalls] and [m_imageCalls.clear()]. *)
Definition eraseImageCalls (self : PatchImageOp) : PatchImageOp :=
  {| m_pModule := foldr eraseInst (m_pModule self) (elements (m_imageCalls self));
     m_imageCalls := ∅ |}.

(** [PatchImageOp::runOnModule]: the module after the pass and the returned
    flag. [Patch::Init] binds the pass to the module; [m_imageCalls] is empty
    between runs. *)
Definition runOnModule (gfxIp : GfxIpVersion) (entryPoints : list (option nat))
    (module : Module) : option (Module * bool) :=
  self ← visitStages gfxIp {| m_pModule := module; m_imageCalls := ∅ |} entryPoints;
  Some (m_pModule (eraseImageCalls self), true).

(** *** Predicates used to follow one size query through the pass *)

(** The call [c] is still the recognized call it was, up to redirected
    operands. *)
Definition StillQuery (c : InstId) (mangledName : string) (meta : ShaderImageCallMetadata)
    (self : PatchImageOp) : Prop :=
  ∃ ty operandList,
    moduleInsts (m_pModule self) !! c
      = Some {| instType := ty; instOp := Call (Some mangledName) operandList |} ∧
    decodeMetadata operandList = Some meta.

(** No operand of any instruction is the result of [c]. *)
Definition NoUseOf (c : InstId) (m : Module) : Prop :=
  ∀ j i, moduleInsts m !! j = Some i → InstResult c ∉ operands (instOp i).

Definition HasInBody (m : Module) (f : nat) (c : InstId) : Prop :=
  ∃ body, moduleFuncs m !! f = Some body ∧ c ∈ body.

Definition Tracked (c : InstId) (mangledName : string) (meta : ShaderImageCallMetadata)
    (self : PatchImageOp) : Prop :=
  is_Some (moduleInsts (m_pModule self) !! c) ∧
  (c ∈ m_imageCalls self ∨ StillQuery c mangledName meta self) ∧
  (c ∈ m_imageCalls self → NoUseOf c (m_pModule self)).

(** *** Predicates used to follow the visitor's effect *)

(** A call the visitor leaves alone, whatever the state. *)
Definition QuietCall (gfxIp : GfxIpVersion) (ty : Ty) (pCallee : option string)
    (operandList : list Value) : Prop :=
  ∀ self callInst, visitCallInst gfxIp self callInst ty pCallee operandList = Some self.

Definition texelOffsetPatched (self : PatchImageOp) (callInst : InstId) : PatchImageOp :=
  {| m_pModule :=
       setArgOperand (emitNonConstantZero (m_pModule self) callInst).1 callInst 3
         (InstResult (emitNonConstantZero (m_pModule self) callInst).2);
     m_imageCalls := m_imageCalls self |}.

Definition QuietInst (gfxIp : GfxIpVersion) (i : Instruction) : Prop :=
  match instOp i with
  | Call pCallee operandList => QuietCall gfxIp (instType i) pCallee operandList
  | _ => True
  end.

Definition QuietAt (gfxIp : GfxIpVersion) (self : PatchImageOp) (id : InstId) : Prop :=
  ∀ i, moduleInsts (m_pModule self) !! id = Some i → QuietInst gfxIp i.

Definition BodiesGrow (m m' : Module) : Prop :=
  ∀ f body, moduleFuncs m !! f = Some body →
    ∃ body', moduleFuncs m' !! f = Some body' ∧ ∀ x, x ∈ body → x ∈ body'.

Definition AllQuiet (gfxIp : GfxIpVersion) (self : PatchImageOp) (f : nat) : Prop :=
  ∀ body, moduleFuncs (m_pModule self) !! f = Some body →
          ∀ x, x ∈ body → QuietAt gfxIp self x.

(** What one visit may do when no call is replaced: instructions the visitor
    leaves alone stay so, nothing is scheduled, and what enters a body is
    left alone by the visitor too. *)
Definition QuietStep (gfxIp : GfxIpVersion) (self self' : PatchImageOp) : Prop :=
  (∀ x, QuietAt gfxIp self x → QuietAt gfxIp self' x) ∧
  m_imageCalls self' = m_imageCalls self ∧
  (∀ f body', moduleFuncs (m_pModule self') !! f = Some body' →
     ∃ body, moduleFuncs (m_pModule self) !! f = Some body ∧
             ∀ x, x ∈ body' → x ∈ body ∨ QuietAt gfxIp self' x).

(** *** Predicates used to follow a call the visitor leaves alone *)

(** An operand list after use redirection: each operand is what it was, or
    an instruction result put in the place of the result of an instruction
    [d] that satisfies [P]. *)
Definition RedirectedWhere (P : InstId → Prop) (operandList operandList' : list Value)
  : Prop :=
  Forall2 (λ v v', v' = v ∨ ∃ d d', v = InstResult d ∧ v' = InstResult d' ∧ P d)
          operandList operandList'.

Definition Redirected : list Value → list Value → Prop := RedirectedWhere (λ _, True).

(** Wherever [i] uses the result of [c], [i'] still does. *)
Definition KeepsUse (c : InstId) (i i' : Instruction) : Prop :=
  ∀ k, operands (instOp i) !! k = Some (InstResult c) →
       operands (instOp i') !! k = Some (InstResult c).

(** The state of the call [c] and of its users while [module] is scanned. *)
Definition Frame (c : InstId) (ty : Ty) (pCallee : option string) (operandList : list Value)
    (module : Module) (self : PatchImageOp) : Prop :=
  (c ∉ m_imageCalls self) ∧
  (∃ operandList',
     moduleInsts (m_pModule self) !! c
       = Some {| instType := ty; instOp := Call pCallee operandList' |} ∧
     RedirectedWhere (λ d, d ∈ m_imageCalls self) operandList operandList') ∧
  (∀ j i, moduleInsts module !! j = Some i →
     ∃ i', moduleInsts (m_pModule self) !! j = Some i' ∧ KeepsUse c i i').

(** *** Predicates used to follow a patched texel offset through the pass *)

(** [p] is the result of the four instructions of the texel offset rule. *)
Definition NonConstantZeroAt (m : Module) (p : InstId) : Prop :=
  ∃ pPc pPcCast pPcHigh,
    moduleInsts m !! p
      = Some {| instType := Int32Ty;
                instOp := LShr (InstResult pPcHigh) (ConstantInt 32 24) |} ∧
    moduleInsts m !! pPcHigh
      = Some {| instType := Int32Ty;
                instOp := ExtractElementInst (InstResult pPcCast) (ConstantInt 32 1) |} ∧
    moduleInsts m !! pPcCast
      = Some {| instType := Int32x2Ty; instOp := BitCastInst (InstResult pPc) |} ∧
    moduleInsts m !! pPc
      = Some {| instType := Int64Ty; instOp := Call (Some "llvm.amdgcn.s.getpc") [] |}.

(** The call [c] has had its operand 3 replaced by such a result. *)
Definition OffsetPatched (m : Module) (c : InstId) (ty : Ty) (mangledName : string)
    (operandList : list Value) : Prop :=
  ∃ p, moduleInsts m !! c
         = Some {| instType := ty;
                   instOp := Call (Some mangledName)
                                  (<[3%nat := InstResult p]> operandList) |} ∧
       NonConstantZeroAt m p.

Definition OffsetState (c : InstId) (ty : Ty) (mangledName : string)
    (operandList : list Value) (self : PatchImageOp) : Prop :=
  moduleInsts (m_pModule self) !! c
    = Some {| instType := ty; instOp := Call (Some mangledName) operandList |}
  ∨ OffsetPatched (m_pModule self) c ty mangledName operandList.

(** What the whole pass leaves of a call the visitor does not select: the
    call is still in [module'] with its callee and type, in the bodies it was
    in; an operand differs from the original one only where the original was
    the result of an instruction that [module'] no longer has, and is then an
    instruction result again; every remaining user of the call's result
    still uses it. *)
Definition KeptThroughPass (module module' : Module) (callInst : InstId) (ty : Ty)
    (pCallee : option string) (operandList : list Value) : Prop :=
  ∃ operandList',
    moduleInsts module' !! callInst
      = Some {| instType := ty; instOp := Call pCallee operandList' |} ∧
    RedirectedWhere (λ d, moduleInsts module' !! d = None) operandList operandList' ∧
    ((∀ d, InstResult d ∉ operandList) → operandList' = operandList) ∧
    (∀ f, HasInBody module f callInst → HasInBody module' f callInst) ∧
    (∀ j i i', moduleInsts module !! j = Some i → moduleInsts module' !! j = Some i' →
               KeepsUse callInst i i').


(** *** Predicates used to state what the pass does to a whole module *)

(** An operation with its operands forgotten: the kind of instruction, the
    callee of a call and the number of operands. *)
Definition opShape (op : Operation) : Operation := mapOperands (λ _, OtherValue 0) op.

(** Operand [k] of an instruction, before ([v]) and after ([v']): it is what
    it was, or the result of an instruction [d'] that satisfies [New], put in
    the place of the result of an instruction [d] that satisfies [P] (use
    redirection) or, on generation 9 and at index 3, of an integer constant
    whose low 32 bits are zero (the texel offset rule). *)
Definition OperandKept (gfxIp : GfxIpVersion) (P New : InstId → Prop) (k : nat)
    (v v' : Value) : Prop :=
  v' = v
  ∨ (∃ d d', v = InstResult d ∧ v' = InstResult d' ∧ P d ∧ New d')
  ∨ (k = 3%nat ∧ major gfxIp = 9 ∧
     ∃ bits val d', v = ConstantInt bits val ∧ toU32 (getZExtValue val) = 0 ∧
                    v' = InstResult d' ∧ New d').

(** The instruction [i'] is [i] up to such operand changes: same result
    type, same kind, same callee, same number of operands. *)
Definition KeepsShape (gfxIp : GfxIpVersion) (P New : InstId → Prop) (i i' : Instruction)
  : Prop :=
  instType i' = instType i ∧
  opShape (instOp i') = opShape (instOp i) ∧
  ∀ k v, operands (instOp i) !! k = Some v →
         ∃ v', operands (instOp i') !! k = Some v' ∧ OperandKept gfxIp P New k v v'.

(** A call the size query rule selects. *)
Definition IsBufferSizeQueryCall (i : Instruction) : Prop :=
  ∃ mangledName operandList meta,
    instOp i = Call (Some mangledName) operandList ∧
    startswith mangledName ImageCallPrefix = true ∧
    decodeMetadata operandList = Some meta ∧
    SizeQuerySelector meta.

(** An instruction the pass creates: the call that replaces a buffer size
    query, or one of the four instructions of the texel offset rule. *)
Definition CreatedByPass (gfxIp : GfxIpVersion) (i : Instruction) : Prop :=
  (major gfxIp ≤ 8 ∧
   ∃ mangledName operandList,
     instOp i = Call (Some (mangledName +:+ (if major gfxIp =? 8 then ".gfx8" else ".gfx6")))
                     operandList ∧
     startswith mangledName ImageCallPrefix = true)
  ∨ (major gfxIp = 9 ∧
     (i = {| instType := Int64Ty; instOp := Call (Some "llvm.amdgcn.s.getpc") [] |}
      ∨ (∃ pPc, i = {| instType := Int32x2Ty; instOp := BitCastInst (InstResult pPc) |})
      ∨ (∃ pPcCast, i = {| instType := Int32Ty;
                          instOp := ExtractElementInst (InstResult pPcCast)
                                                       (ConstantInt 32 1) |})
      ∨ (∃ pPcHigh, i = {| instType := Int32Ty;
                          instOp := LShr (InstResult pPcHigh) (ConstantInt 32 24) |}))).

(** Every operand that is an instruction result, and every entry of a
    function body, names an instruction of the module. *)
Definition ClosedModule (m : Module) : Prop :=
  (∀ j i d, moduleInsts m !! j = Some i → InstResult d ∈ operands (instOp i) →
            is_Some (moduleInsts m !! d)) ∧
  (∀ body x, body ∈ moduleFuncs m → x ∈ body → is_Some (moduleInsts m !! x)).

(** An operand list on which the visitor of a recognized call does not stop:
    the metadata can be read, and operand 3 exists where the texel offset
    rule reads it. *)
Definition WellFormedImageCall (gfxIp : GfxIpVersion) (operandList : list Value) : Prop :=
  ∃ meta, decodeMetadata operandList = Some meta ∧
          (isBufferSizeQuery meta = false → isBufferOffsetOp meta = true →
           major gfxIp = 9 → (4 ≤ length operandList)%nat).

Definition WellFormedModule (gfxIp : GfxIpVersion) (m : Module) : Prop :=
  ∀ id ty mangledName operandList,
    moduleInsts m !! id
      = Some {| instType := ty; instOp := Call (Some mangledName) operandList |} →
    startswith mangledName ImageCallPrefix = true →
    WellFormedImageCall gfxIp operandList.

(** While the stages are scanned, every instruction of [module] is still in
    the store, and a function body holds nothing but what it held in
    [module] and instructions that [module] does not have. *)
Definition BodiesFrom (module : Module) (self : PatchImageOp) : Prop :=
  (∀ j, is_Some (moduleInsts module !! j) → is_Some (moduleInsts (m_pModule self) !! j)) ∧
  (∀ f body', moduleFuncs (m_pModule self) !! f = Some body' →
     ∃ body, moduleFuncs module !! f = Some body ∧
             ∀ x, x ∈ body' → x ∈ body ∨ moduleInsts module !! x = None).

(** The hardware generations the pass tells apart: up to 7, 8, 9, and
    above. *)
Definition sameGeneration (g1 g2 : GfxIpVersion) : Prop :=
  (major g1 ≤ 7 ∧ major g2 ≤ 7) ∨ (10 ≤ major g1 ∧ 10 ≤ major g2) ∨ major g1 = major g2.

End Pass.

(** ** One admissible set of declarations

    The layout and numbering used by the examples: [OpKind] in the low six
    bits, [Dim] in the next three, enumerators numbered in declaration
    order, [DimBuffer] as in SPIR-V. *)
Definition llpcAbi : ImageAbi := {|
  ImageCallPrefix := "llpc.image";
  OpKindLsb := 0; OpKindBits := 6;
  DimLsb := 6; DimBits := 3;
  ImageOpQueryNonLod := 3;
  ImageOpFetch := 1;
  ImageOpRead := 5;
  ImageOpWrite := 6;
  ImageOpAtomicExchange := 7;
  ImageOpAtomicCompareExchange := 8;
  ImageOpAtomicIIncrement := 9;
  ImageOpAtomicIDecrement := 10;
  ImageOpAtomicIAdd := 11;
  ImageOpAtomicISub := 12;
  ImageOpAtomicSMin := 13;
  ImageOpAtomicUMin := 14;
  ImageOpAtomicSMax := 15;
  ImageOpAtomicUMax := 16;
  ImageOpAtomicAnd := 17;
  ImageOpAtomicOr := 18;
  ImageOpAtomicXor := 19;
  DimBuffer := 5
|}.

Definition gfx (n : Z) : GfxIpVersion := {| major := n; minor := 0; stepping := 0 |}.

(** Packs an operation kind and a dimension the way [llpcAbi] unpacks them. *)
Definition packMeta (opKind dim : Z) : Value := ConstantInt 32 (Z.lor opKind (Z.shiftl dim 6)).

(** Scenario B: a buffer size query, used by a later instruction. *)
Definition moduleB : Module := {|
  moduleInsts :=
    <[1%positive := {| instType := Int32Ty;
                       instOp := Call (Some "llpc.image.querynonlod.sizelod.Buffer")
                                      [OtherValue 0; OtherValue 1; packMeta 3 5] |}]>
    (<[2%positive := {| instType := VoidTy; instOp := OtherInst [InstResult 1] |}]> ∅);
  moduleFuncs := [[1%positive; 2%positive]]
|}.

(** Scenario C: a buffer write whose texel offset is the constant zero. *)
Definition moduleC : Module := {|
  moduleInsts :=
    <[1%positive := {| instType := VoidTy;
                       instOp := Call (Some "llpc.image.write.f32.Buffer")
                                      [OtherValue 0; OtherValue 1; OtherValue 2;
                                       ConstantInt 32 0; packMeta 6 5] |}]> ∅;
  moduleFuncs := [[1%positive]]
|}.

(** A buffer fetch with only two operands. *)
Definition moduleShortFetch : Module := {|
  moduleInsts :=
    <[1%positive := {| instType := Int32Ty;
                       instOp := Call (Some "llpc.image.fetch.f32.Buffer")
                                      [OtherValue 0; packMeta 1 5] |}]> ∅;
  moduleFuncs := [[1%positive]]
|}.

(** Scenario A: a 2D sample (operation kind 0, dimension 1). *)
Definition moduleA : Module := {|
  moduleInsts :=
    <[1%positive := {| instType := OpaqueTy 0;
                       instOp := Call (Some "llpc.image.sample.f32.2D")
                                      [OtherValue 0; OtherValue 1; OtherValue 2;
                                       ConstantInt 32 0; packMeta 0 1] |}]> ∅;
  moduleFuncs := [[1%positive]]
|}.

(** A call through a function pointer. *)
Definition moduleIndirect : Module := {|
  moduleInsts :=
    <[1%positive := {| instType := Int32Ty;
                       instOp := Call None [OtherValue 0; ConstantInt 32 0] |}]> ∅;
  moduleFuncs := [[1%positive]]
|}.

(** A buffer size query whose result is the coordinate of a 1D image read
    (operation kind 5, dimension 0). *)
Definition moduleQueryThenRead : Module := {|
  moduleInsts :=
    <[1%positive := {| instType := Int32Ty;
                       instOp := Call (Some "llpc.image.querynonlod.sizelod.Buffer")
                                      [OtherValue 0; OtherValue 1; packMeta 3 5] |}]>
    (<[2%positive := {| instType := OpaqueTy 0;
                        instOp := Call (Some "llpc.image.read.f32.1D")
                                       [ConstantInt 32 0; ConstantInt 32 1; ConstantInt 32 0;
                                        InstResult 1; packMeta 5 0] |}]> ∅);
  moduleFuncs := [[1%positive; 2%positive]]
|}.

(** A buffer size query whose result is the texel offset of a buffer fetch. *)
Definition moduleQueryThenFetch : Module := {|
  moduleInsts :=
    <[1%positive := {| instType := Int32Ty;
                       instOp := Call (Some "llpc.image.querynonlod.sizelod.Buffer")
                                      [OtherValue 0; OtherValue 1; packMeta 3 5] |}]>
    (<[2%positive := {| instType := OpaqueTy 0;
                        instOp := Call (Some "llpc.image.fetch.f32.Buffer")
                                       [ConstantInt 32 0; ConstantInt 32 1; ConstantInt 32 0;
                                        InstResult 1; packMeta 1 5] |}]> ∅);
  moduleFuncs := [[1%positive; 2%positive]]
|}.

(** A buffer size query whose result is passed to a call through a function
    pointer. *)
Definition moduleQueryThenIndirect : Module := {|
  moduleInsts :=
    <[1%positive := {| instType := Int32Ty;
                       instOp := Call (Some "llpc.image.querynonlod.sizelod.Buffer")
                                      [OtherValue 0; OtherValue 1; packMeta 3 5] |}]>
    (<[2%positive := {| instType := VoidTy;
                        instOp := Call None [InstResult 1; ConstantInt 32 0] |}]> ∅);
  moduleFuncs := [[1%positive; 2%positive]]
|}.

(** An entry point with a buffer size query whose result is passed to a
    function that is not an image operation, and a second function, not an
    entry point, with a buffer size query of its own. *)
Definition moduleHelperFunction : Module := {|
  moduleInsts :=
    <[1%positive := {| instType := Int32Ty;
                       instOp := Call (Some "llpc.image.querynonlod.sizelod.Buffer")
                                      [OtherValue 0; OtherValue 1; packMeta 3 5] |}]>
    (<[2%positive := {| instType := VoidTy;
                        instOp := Call (Some "helper") [InstResult 1] |}]>
    (<[3%positive := {| instType := Int32Ty;
                        instOp := Call (Some "llpc.image.querynonlod.sizelod.Buffer")
                                       [OtherValue 2; OtherValue 3; packMeta 3 5] |}]>
    (<[4%positive := {| instType := VoidTy; instOp := OtherInst [InstResult 3] |}]> ∅)));
  moduleFuncs := [[1%positive; 2%positive]; [3%positive; 4%positive]]
|}.

(** The pass object when [runOnModule] starts on [m]. *)
Definition scan (m : Module) : PatchImageOp := {| m_pModule := m; m_imageCalls := ∅ |}.

(** ** Properties *)

Section Properties.
Context `{abi : ImageAbi}.

Lemma copyArgOperands_eq (operandList : list Value) :
  copyArgOperands operandList = operandList.
Proof.
  unfold copyArgOperands.
  enough (H : ∀ (pre suf : list Value),
             foldl (λ args i, match (pre ++ suf) !! i with
                              | Some pArg => args ++ [pArg]
                              | None => args
                              end) pre (seq (length pre) (length suf)) = pre ++ suf).
  { apply (H [] operandList). }
  intros pre suf. revert pre.
  induction suf as [|x suf IH]; intros pre; simpl.
  - by rewrite app_nil_r.
  - rewrite list_lookup_middle by done.
    specialize (IH (pre ++ [x])).
    rewrite length_app in IH. simpl in IH.
    replace (length pre + 1)%nat with (S (length pre)) in IH by lia.
    rewrite <- (assoc_L (++)) in IH. simpl in IH. exact IH.
Qed.

Lemma isBufferSizeQuery_spec (meta : ShaderImageCallMetadata) :
  isBufferSizeQuery meta = true ↔ SizeQuerySelector meta.
Proof.
  unfold isBufferSizeQuery, SizeQuerySelector.
  rewrite andb_true_iff, !Z.eqb_eq. tauto.
Qed.

Lemma isBufferOffsetOp_spec (meta : ShaderImageCallMetadata) :
  isBufferOffsetOp meta = true ↔ OffsetErratumSelector meta.
Proof.
  unfold isBufferOffsetOp, OffsetErratumSelector, offsetErratumOpKinds.
  rewrite andb_true_iff, !orb_true_iff, !Z.eqb_eq.
  rewrite !elem_of_cons, elem_of_nil. tauto.
Qed.

Lemma isBufferSizeQuery_false (meta : ShaderImageCallMetadata) :
  isBufferSizeQuery meta = false ↔ ¬ SizeQuerySelector meta.
Proof. rewrite <- isBufferSizeQuery_spec. destruct (isBufferSizeQuery meta); naive_solver. Qed.

Lemma isBufferOffsetOp_false (meta : ShaderImageCallMetadata) :
  isBufferOffsetOp meta = false ↔ ¬ OffsetErratumSelector meta.
Proof. rewrite <- isBufferOffsetOp_spec. destruct (isBufferOffsetOp meta); naive_solver. Qed.

Lemma selectors_exclusive (meta : ShaderImageCallMetadata) :
  EnumeratorsDistinct → SizeQuerySelector meta → OffsetErratumSelector meta → False.
Proof.
  intros Hd [Hk _] [_ Hin]. apply Hd. by rewrite <- Hk.
Qed.

Lemma visitInst_call gfxIp self callInst ty pCallee operandList :
  moduleInsts (m_pModule self) !! callInst
    = Some {| instType := ty; instOp := Call pCallee operandList |} →
  visitInst gfxIp self callInst = visitCallInst gfxIp self callInst ty pCallee operandList.
Proof. intros H. unfold visitInst. by rewrite H. Qed.

Lemma fresh_inst_None (m : Module) :
  moduleInsts m !! fresh (dom (moduleInsts m)) = None.
Proof. apply not_elem_of_dom, is_fresh. Qed.

Lemma fresh_inst_ne (m : Module) (id : InstId) (i : Instruction) :
  moduleInsts m !! id = Some i → fresh (dom (moduleInsts m)) ≠ id.
Proof. intros H E. rewrite <- E, fresh_inst_None in H. done. Qed.

(** What the size query branch does on hardware up to generation 8. *)
Lemma patchBufferSizeQuery_le8 gfxIp self callInst ty mangledName operandList :
  major gfxIp ≤ 8 →
  let pImageCall := fresh (dom (moduleInsts (m_pModule self))) in
  let callName := mangledName +:+ (if major gfxIp =? 8 then ".gfx8" else ".gfx6") in
  patchBufferSizeQuery gfxIp self callInst ty mangledName operandList =
    {| m_pModule :=
         replaceAllUsesWith
           {| moduleInsts :=
                <[pImageCall := {| instType := ty;
                                   instOp := Call (Some callName) operandList |}]>
                  (moduleInsts (m_pModule self));
              moduleFuncs := insertBefore callInst pImageCall <$> moduleFuncs (m_pModule self) |}
           callInst pImageCall;
       m_imageCalls := {[callInst]} ∪ m_imageCalls self |}.
Proof.
  intros Hle. unfold patchBufferSizeQuery.
  destruct (Z.leb_spec (major gfxIp) 8) as [_|?]; [|lia].
  by rewrite copyArgOperands_eq.
Qed.

Lemma patchBufferSizeQuery_gt8 gfxIp self callInst ty mangledName operandList :
  8 < major gfxIp →
  patchBufferSizeQuery gfxIp self callInst ty mangledName operandList = self.
Proof.
  intros Hgt. unfold patchBufferSizeQuery.
  destruct (Z.leb_spec (major gfxIp) 8) as [?|_]; [lia|done].
Qed.

(** The visitor on a recognized call that selects the size query rule. *)
Lemma visitInst_size_query gfxIp self callInst ty mangledName operandList meta :
  moduleInsts (m_pModule self) !! callInst
    = Some {| instType := ty; instOp := Call (Some mangledName) operandList |} →
  startswith mangledName ImageCallPrefix = true →
  decodeMetadata operandList = Some meta →
  SizeQuerySelector meta →
  visitInst gfxIp self callInst
    = Some (patchBufferSizeQuery gfxIp self callInst ty mangledName operandList).
Proof.
  intros Hc Hpre Hmeta Hsel.
  rewrite (visitInst_call _ _ _ _ _ _ Hc). unfold visitCallInst.
  rewrite Hpre, Hmeta. simpl.
  apply isBufferSizeQuery_spec in Hsel. by rewrite Hsel.
Qed.

(** The visitor on a recognized buffer size query, generation by generation. *)
Lemma visitInst_size_query_by_generation
    gfxIp self callInst ty mangledName operandList meta :
  moduleInsts (m_pModule self) !! callInst
    = Some {| instType := ty; instOp := Call (Some mangledName) operandList |} →
  startswith mangledName ImageCallPrefix = true →
  decodeMetadata operandList = Some meta →
  SizeQuerySelector meta →
  let pImageCall := fresh (dom (moduleInsts (m_pModule self))) in
  let replacedBy (suffix : string) :=
    ∃ self' args,
      visitInst gfxIp self callInst = Some self' ∧
      moduleInsts (m_pModule self) !! pImageCall = None ∧
      moduleInsts (m_pModule self') !! pImageCall
        = Some {| instType := ty; instOp := Call (Some (mangledName +:+ suffix)) args |} ∧
      callInst ∈ m_imageCalls self' in
  ((major gfxIp = 6 ∨ major gfxIp = 7) → replacedBy ".gfx6") ∧
  (major gfxIp = 8 → replacedBy ".gfx8") ∧
  (9 ≤ major gfxIp → visitInst gfxIp self callInst = Some self).
Proof.
  intros Hc Hpre Hmeta Hsel pImageCall replacedBy.
  pose proof (visitInst_size_query gfxIp _ _ _ _ _ _ Hc Hpre Hmeta Hsel) as Hv.
  assert (Hrep : major gfxIp ≤ 8 →
            replacedBy (if major gfxIp =? 8 then ".gfx8" else ".gfx6")).
  { intros Hle. rewrite patchBufferSizeQuery_le8 in Hv by done.
    eexists _, (substValue callInst pImageCall <$> operandList).
    split; [exact Hv|]. simpl. split; [apply fresh_inst_None|].
    split; [|set_solver].
    rewrite lookup_fmap. fold pImageCall. by rewrite lookup_insert_eq. }
  split; [|split].
  - intros Hm. assert ((major gfxIp =? 8) = false) as E by (apply Z.eqb_neq; lia).
    rewrite E in Hrep. apply Hrep. lia.
  - intros Hm. assert ((major gfxIp =? 8) = true) as E by (apply Z.eqb_eq; lia).
    rewrite E in Hrep. apply Hrep. lia.
  - intros Hm. rewrite Hv. f_equal. apply patchBufferSizeQuery_gt8. lia.
Qed.

(** *** The metadata operand survives use redirection *)

Lemma decodeMetadata_subst old new operandList :
  decodeMetadata (substValue old new <$> operandList) = decodeMetadata operandList.
Proof.
  unfold decodeMetadata. rewrite length_fmap.
  destruct (decide (2 ≤ length operandList)%nat); [|done].
  rewrite list_lookup_fmap.
  destruct (operandList !! (length operandList - 1)%nat) as [[]|]; simpl; try done.
  by case_decide.
Qed.

Lemma operands_mapOperands f op : operands (mapOperands f op) = f <$> operands op.
Proof. by destruct op. Qed.

Lemma substValue_ne old new v : new ≠ old → substValue old new v ≠ InstResult old.
Proof.
  intros Hne. destruct v; simpl; try done.
  case_decide; congruence.
Qed.

(** *** Insertion in front of an instruction *)

Lemma elem_of_insertBefore pos new body x :
  x ∈ insertBefore pos new body ↔ x ∈ body ∨ (x = new ∧ pos ∈ body).
Proof.
  induction body as [|y body IH]; simpl.
  - rewrite elem_of_nil. set_solver.
  - case_decide; subst; rewrite !elem_of_cons; [|rewrite IH]; naive_solver.
Qed.

Lemma insertBefore_split pos new pre post :
  pos ∉ pre → insertBefore pos new (pre ++ pos :: post) = pre ++ new :: pos :: post.
Proof.
  induction pre as [|y pre IH]; simpl; intros Hn.
  - by rewrite decide_True.
  - rewrite not_elem_of_cons in Hn. destruct Hn as [? ?].
    rewrite decide_False by done. by rewrite IH.
Qed.

(** *** The shape of one visit *)

Lemma visitCallInst_cases gfxIp self callInst ty pCallee operandList self' :
  visitCallInst gfxIp self callInst ty pCallee operandList = Some self' →
  (self' = self ∧ QuietCall gfxIp ty pCallee operandList)
  ∨ (∃ mangledName meta,
       pCallee = Some mangledName ∧ startswith mangledName ImageCallPrefix = true ∧
       decodeMetadata operandList = Some meta ∧ isBufferSizeQuery meta = true ∧
       major gfxIp ≤ 8 ∧
       self' = patchBufferSizeQuery gfxIp self callInst ty mangledName operandList)
  ∨ (∃ mangledName meta bits val,
       pCallee = Some mangledName ∧ startswith mangledName ImageCallPrefix = true ∧
       decodeMetadata operandList = Some meta ∧ isBufferSizeQuery meta = false ∧
       isBufferOffsetOp meta = true ∧ major gfxIp = 9 ∧
       operandList !! 3%nat = Some (ConstantInt bits val) ∧
       toU32 (getZExtValue val) = 0 ∧
       self' = texelOffsetPatched self callInst).
Proof.
  unfold visitCallInst. intros Hv.
  destruct pCallee as [mangledName|]; [|left; split; [congruence|by intros ??]].
  destruct (startswith mangledName ImageCallPrefix) eqn:Hpre;
    [|left; split; [congruence|intros ??; unfold visitCallInst; by rewrite Hpre]].
  destruct (decodeMetadata operandList) as [meta|] eqn:Hmeta; [|done]. simpl in Hv.
  destruct (isBufferSizeQuery meta) eqn:Ha.
  - destruct (Z.leb_spec (major gfxIp) 8) as [Hle|Hgt].
    + right; left. exists mangledName, meta. repeat split; try done. congruence.
    + left. split.
      * rewrite patchBufferSizeQuery_gt8 in Hv by done. congruence.
      * intros s c. unfold visitCallInst. rewrite Hpre, Hmeta. simpl. rewrite Ha.
        by rewrite patchBufferSizeQuery_gt8.
  - destruct (isBufferOffsetOp meta) eqn:Hb;
      [|left; split; [congruence|intros ??; unfold visitCallInst;
                                 rewrite Hpre, Hmeta; simpl; by rewrite Ha, Hb]].
    unfold patchTexelOffset in Hv.
    assert (Hq : ∀ (b : bool) (tail : PatchImageOp → option PatchImageOp),
               (∀ s, tail s = Some s) →
               (∀ s c, patchTexelOffset gfxIp s c operandList = tail s) →
               QuietCall gfxIp ty (Some mangledName) operandList).
    { intros _ tail Ht Hp s c. unfold visitCallInst.
      rewrite Hpre, Hmeta; simpl. rewrite Ha, Hb, Hp. apply Ht. }
    destruct (Z.eqb_spec (major gfxIp) 9) as [H9|Hn9].
    2:{ left. split; [congruence|].
        apply (Hq true Some); [done|]. intros s c. unfold patchTexelOffset.
        destruct (Z.eqb_spec (major gfxIp) 9); [lia|done]. }
    destruct (operandList !! 3%nat) as [pTexelOffset|] eqn:H3; [|done].
    destruct pTexelOffset as [bits val| |].
    2,3: left; (split; [congruence|]);
         apply (Hq true Some); [done|]; intros s c; unfold patchTexelOffset;
         rewrite H3; destruct (Z.eqb_spec (major gfxIp) 9); [done|lia].
    destruct (Z.eqb_spec (toU32 (getZExtValue val)) 0) as [Hz|Hnz].
    + right; right. exists mangledName, meta, bits, val.
      repeat split; try done.
      unfold texelOffsetPatched.
      destruct (emitNonConstantZero (m_pModule self) callInst). simpl. congruence.
    + left. split; [congruence|].
      apply (Hq true Some); [done|]. intros s c. unfold patchTexelOffset.
      rewrite H3. destruct (Z.eqb_spec (major gfxIp) 9); [|lia].
      destruct (Z.eqb_spec (toU32 (getZExtValue val)) 0); [lia|done].
Qed.

Lemma visitInst_quiet gfxIp self id :
  QuietAt gfxIp self id → visitInst gfxIp self id = Some self.
Proof.
  intros Hq. unfold visitInst.
  destruct (moduleInsts (m_pModule self) !! id) as [[ty op]|] eqn:Hl; [|done].
  specialize (Hq _ Hl). destruct op; done.
Qed.

Lemma visitInst_cases gfxIp self id self' :
  visitInst gfxIp self id = Some self' →
  (self' = self ∧ QuietAt gfxIp self id)
  ∨ (∃ ty mangledName operandList meta,
       moduleInsts (m_pModule self) !! id
         = Some {| instType := ty; instOp := Call (Some mangledName) operandList |} ∧
       startswith mangledName ImageCallPrefix = true ∧
       decodeMetadata operandList = Some meta ∧ isBufferSizeQuery meta = true ∧
       major gfxIp ≤ 8 ∧
       self' = patchBufferSizeQuery gfxIp self id ty mangledName operandList)
  ∨ (∃ ty mangledName operandList meta bits val,
       moduleInsts (m_pModule self) !! id
         = Some {| instType := ty; instOp := Call (Some mangledName) operandList |} ∧
       startswith mangledName ImageCallPrefix = true ∧
       decodeMetadata operandList = Some meta ∧ isBufferSizeQuery meta = false ∧
       isBufferOffsetOp meta = true ∧ major gfxIp = 9 ∧
       operandList !! 3%nat = Some (ConstantInt bits val) ∧
       toU32 (getZExtValue val) = 0 ∧
       self' = texelOffsetPatched self id).
Proof.
  unfold visitInst. intros Hv.
  destruct (moduleInsts (m_pModule self) !! id) as [[ty op]|] eqn:Hl.
  2:{ left. split; [congruence|]. intros i Hi. unfold QuietAt in *. congruence. }
  destruct op as [pCallee operandList| | | |].
  2-5: left; (split; [congruence|]); intros i Hi; rewrite Hl in Hi;
       injection Hi as <-; exact I.
  apply visitCallInst_cases in Hv as [[-> Hq]|[Ha|Hb]].
  - left. split; [done|]. intros i Hi. rewrite Hl in Hi. injection Hi as <-. exact Hq.
  - right; left. destruct Ha as (nm & meta & -> & ?). by exists ty, nm, operandList, meta.
  - right; right. destruct Hb as (nm & meta & bits & val & -> & ?).
    by exists ty, nm, operandList, meta, bits, val.
Qed.

(** *** How the function bodies evolve *)

Lemma BodiesGrow_refl m : BodiesGrow m m.
Proof. intros f body H. eauto. Qed.

Lemma BodiesGrow_trans m1 m2 m3 : BodiesGrow m1 m2 → BodiesGrow m2 m3 → BodiesGrow m1 m3.
Proof.
  intros H12 H23 f body H.
  destruct (H12 _ _ H) as (b2 & H2 & Hs2).
  destruct (H23 _ _ H2) as (b3 & H3 & Hs3). eauto.
Qed.

Lemma BodiesGrow_same_funcs m m' : moduleFuncs m' = moduleFuncs m → BodiesGrow m m'.
Proof. intros E f body H. rewrite E. eauto. Qed.

Lemma insertInst_funcs m i pos f :
  moduleFuncs (insertInst m i pos).1 !! f
    = insertBefore pos (insertInst m i pos).2 <$> moduleFuncs m !! f.
Proof. simpl. apply list_lookup_fmap. Qed.

Lemma insertInst_lookup m i pos j :
  moduleInsts (insertInst m i pos).1 !! j
    = if decide ((insertInst m i pos).2 = j) then Some i else moduleInsts m !! j.
Proof. simpl. apply lookup_insert. Qed.

Lemma insertInst_fresh m i pos : moduleInsts m !! (insertInst m i pos).2 = None.
Proof. apply fresh_inst_None. Qed.

Lemma BodiesGrow_insertInst m i pos : BodiesGrow m (insertInst m i pos).1.
Proof.
  intros f body H. rewrite insertInst_funcs, H. simpl.
  eexists; split; [done|]. intros x Hx. apply elem_of_insertBefore. by left.
Qed.

Lemma emitNonConstantZero_unfold m callInst :
  emitNonConstantZero m callInst =
    let r1 := EmitCall m "llvm.amdgcn.s.getpc" Int64Ty [] callInst in
    let r2 := insertInst r1.1 {| instType := Int32x2Ty;
                                 instOp := BitCastInst (InstResult r1.2) |} callInst in
    let r3 := insertInst r2.1 {| instType := Int32Ty;
                                 instOp := ExtractElementInst (InstResult r2.2)
                                                              (ConstantInt 32 1) |} callInst in
    insertInst r3.1 {| instType := Int32Ty;
                       instOp := LShr (InstResult r3.2) (ConstantInt 32 24) |} callInst.
Proof. reflexivity. Qed.

Lemma BodiesGrow_emitNonConstantZero m callInst :
  BodiesGrow m (emitNonConstantZero m callInst).1.
Proof.
  rewrite emitNonConstantZero_unfold. cbv zeta. unfold EmitCall.
  repeat (eapply BodiesGrow_trans; [|apply BodiesGrow_insertInst]).
  apply BodiesGrow_refl.
Qed.

Lemma visitInst_BodiesGrow gfxIp self id self' :
  visitInst gfxIp self id = Some self' → BodiesGrow (m_pModule self) (m_pModule self').
Proof.
  intros Hv. apply visitInst_cases in Hv as [[-> _]|[Ha|Hb]].
  - apply BodiesGrow_refl.
  - destruct Ha as (ty & nm & ops & meta & _ & _ & _ & _ & Hle & ->).
    rewrite patchBufferSizeQuery_le8 by done. simpl.
    eapply BodiesGrow_trans;
      [apply (BodiesGrow_insertInst _ {| instType := ty; instOp := Call (Some (nm +:+ (if major gfxIp =? 8 then ".gfx8" else ".gfx6"))) ops |} id)|].
    by apply BodiesGrow_same_funcs.
  - destruct Hb as (ty & nm & ops & meta & bits & val & _ & _ & _ & _ & _ & _ & _ & _ & ->).
    simpl. eapply BodiesGrow_trans; [apply BodiesGrow_emitNonConstantZero|].
    by apply BodiesGrow_same_funcs.
Qed.

Lemma visitInst_pending_mono gfxIp self id self' :
  visitInst gfxIp self id = Some self' → m_imageCalls self ⊆ m_imageCalls self'.
Proof.
  intros Hv. apply visitInst_cases in Hv as [[-> _]|[Ha|Hb]]; [done| |].
  - destruct Ha as (ty & nm & ops & meta & _ & _ & _ & _ & Hle & ->).
    rewrite patchBufferSizeQuery_le8 by done. simpl. set_solver.
  - destruct Hb as (ty & nm & ops & meta & bits & val & _ & _ & _ & _ & _ & _ & _ & _ & ->).
    done.
Qed.

(** *** Following a size query through the scan (hardware up to generation 8) *)

Lemma NoUseOf_after_replace (c d : InstId) (m : Module) ty nm nm' ops pImageCall :
  is_Some (moduleInsts m !! c) →
  moduleInsts m !! d = Some {| instType := ty; instOp := Call (Some nm) ops |} →
  (c ≠ d → NoUseOf c m) →
  pImageCall = fresh (dom (moduleInsts m)) →
  NoUseOf c
    (replaceAllUsesWith
       {| moduleInsts := <[pImageCall := {| instType := ty; instOp := Call (Some nm') ops |}]>
                           (moduleInsts m);
          moduleFuncs := insertBefore d pImageCall <$> moduleFuncs m |} d pImageCall).
Proof.
  intros [ic Hc] Hd Hpre -> j i. simpl.
  assert (Hnc : fresh (dom (moduleInsts m)) ≠ c) by exact (fresh_inst_ne _ _ _ Hc).
  rewrite lookup_fmap. intros Hj.
  apply fmap_Some in Hj as (i0 & Hi0 & ->). simpl.
  rewrite operands_mapOperands. intros Hin.
  apply list_elem_of_fmap in Hin as (v & Hv & Hvin).
  destruct (decide (c = d)) as [->|Hcd].
  { symmetry in Hv. by apply substValue_ne in Hv. }
  assert (v = InstResult c) as ->.
  { destruct v as [| id |]; simpl in Hv; try done.
    case_decide; congruence. }
  specialize (Hpre Hcd).
  rewrite lookup_insert in Hi0. case_decide.
  - injection Hi0 as <-. simpl in Hvin. by apply (Hpre _ _ Hd).
  - by apply (Hpre _ _ Hi0).
Qed.

Lemma Tracked_step gfxIp c mangledName meta self id self' :
  major gfxIp ≤ 8 →
  startswith mangledName ImageCallPrefix = true →
  SizeQuerySelector meta →
  Tracked c mangledName meta self →
  visitInst gfxIp self id = Some self' →
  Tracked c mangledName meta self' ∧ (id = c → c ∈ m_imageCalls self').
Proof.
  intros Hle Hpre Hsel Htr Hv. pose proof Htr as (Hsome & Hstate & Huse).
  assert (Hrule : ∀ ty nm ops,
            moduleInsts (m_pModule self) !! id
              = Some {| instType := ty; instOp := Call (Some nm) ops |} →
            self' = patchBufferSizeQuery gfxIp self id ty nm ops →
            Tracked c mangledName meta self' ∧ (id = c → c ∈ m_imageCalls self')).
  { intros ty nm ops Hid ->. rewrite patchBufferSizeQuery_le8 by done.
    set (pImageCall := fresh (dom (moduleInsts (m_pModule self)))).
    assert (Hnc : pImageCall ≠ c).
    { destruct Hsome as [ic Hc]. exact (fresh_inst_ne _ _ _ Hc). }
    split; [|simpl; set_solver].
    split; [|split]; simpl.
    - rewrite lookup_fmap, lookup_insert_ne by done.
      destruct Hsome as [ic ->]. by eexists.
    - destruct (decide (id = c)) as [->|Hne]; [left; set_solver|].
      destruct Hstate as [Hp|(tyc & opsc & Hc & Hm)]; [left; set_solver|].
      right. exists tyc, (substValue id pImageCall <$> opsc). simpl.
      rewrite lookup_fmap, lookup_insert_ne, Hc by done. simpl.
      split; [done|]. by rewrite decodeMetadata_subst.
    - intros Hin. eapply NoUseOf_after_replace; [done|exact Hid| |done].
      intros Hne. apply Huse. set_solver. }
  destruct (decide (id = c)) as [->|Hne].
  - destruct Hstate as [Hp|(tyc & opsc & Hc & Hm)].
    + split; [|intros _; by apply (visitInst_pending_mono _ _ _ _ Hv)].
      apply visitInst_cases in Hv as [[-> _]|[Ha|Hb]]; [done| |].
      * destruct Ha as (ty & nm & ops & m' & Hid & _ & _ & _ & _ & E).
        by apply (Hrule ty nm ops).
      * destruct Hb as (? & ? & ? & ? & ? & ? & _ & _ & _ & _ & _ & H9 & _). lia.
    + rewrite (visitInst_size_query gfxIp _ _ _ _ _ _ Hc Hpre Hm Hsel) in Hv.
      injection Hv as <-. by apply (Hrule tyc mangledName opsc).
  - apply visitInst_cases in Hv as [[-> _]|[Ha|Hb]]; [done| |].
    + destruct Ha as (ty & nm & ops & m' & Hid & _ & _ & _ & _ & E).
      by apply (Hrule ty nm ops).
    + destruct Hb as (? & ? & ? & ? & ? & ? & _ & _ & _ & _ & _ & H9 & _). lia.
Qed.

Lemma visitInsts_pending_mono gfxIp ids : ∀ self self',
  visitInsts gfxIp self ids = Some self' → m_imageCalls self ⊆ m_imageCalls self'.
Proof.
  induction ids as [|id ids IH]; simpl; intros self self' Hv.
  - by injection Hv as <-.
  - destruct (visitInst gfxIp self id) as [s1|] eqn:H1; [|done]. simpl in Hv.
    etrans; [by eapply visitInst_pending_mono|by apply IH].
Qed.

Lemma visitInsts_BodiesGrow gfxIp ids : ∀ self self',
  visitInsts gfxIp self ids = Some self' → BodiesGrow (m_pModule self) (m_pModule self').
Proof.
  induction ids as [|id ids IH]; simpl; intros self self' Hv.
  - injection Hv as <-. apply BodiesGrow_refl.
  - destruct (visitInst gfxIp self id) as [s1|] eqn:H1; [|done]. simpl in Hv.
    eapply BodiesGrow_trans; [by eapply visitInst_BodiesGrow|by apply IH].
Qed.

Lemma visit_pending_mono gfxIp self f self' :
  visit gfxIp self f = Some self' → m_imageCalls self ⊆ m_imageCalls self'.
Proof.
  unfold visit. destruct (moduleFuncs (m_pModule self) !! f).
  - apply visitInsts_pending_mono.
  - by intros [= <-].
Qed.

Lemma visit_BodiesGrow gfxIp self f self' :
  visit gfxIp self f = Some self' → BodiesGrow (m_pModule self) (m_pModule self').
Proof.
  unfold visit. destruct (moduleFuncs (m_pModule self) !! f).
  - apply visitInsts_BodiesGrow.
  - intros [= <-]. apply BodiesGrow_refl.
Qed.

Lemma visitStages_pending_mono gfxIp entryPoints : ∀ self self',
  visitStages gfxIp self entryPoints = Some self' → m_imageCalls self ⊆ m_imageCalls self'.
Proof.
  induction entryPoints as [|[f|] eps IH]; simpl; intros self self' Hv.
  - by injection Hv as <-.
  - destruct (visit gfxIp self f) as [s1|] eqn:H1; [|done]. simpl in Hv.
    etrans; [by eapply visit_pending_mono|by apply IH].
  - by apply IH.
Qed.

Lemma visitStages_BodiesGrow gfxIp entryPoints : ∀ self self',
  visitStages gfxIp self entryPoints = Some self' →
  BodiesGrow (m_pModule self) (m_pModule self').
Proof.
  induction entryPoints as [|[f|] eps IH]; simpl; intros self self' Hv.
  - injection Hv as <-. apply BodiesGrow_refl.
  - destruct (visit gfxIp self f) as [s1|] eqn:H1; [|done]. simpl in Hv.
    eapply BodiesGrow_trans; [by eapply visit_BodiesGrow|by apply IH].
  - by apply IH.
Qed.

Lemma HasInBody_grow m m' f c : BodiesGrow m m' → HasInBody m f c → HasInBody m' f c.
Proof.
  intros Hg (body & Hb & Hc). destruct (Hg _ _ Hb) as (body' & Hb' & Hs).
  exists body'. auto.
Qed.

Section SizeQueryScan.
Variables (gfxIp : GfxIpVersion) (c : InstId) (mangledName : string)
          (meta : ShaderImageCallMetadata).
Hypothesis Hmajor : major gfxIp ≤ 8.
Hypothesis Hprefix : startswith mangledName ImageCallPrefix = true.
Hypothesis Hsel : SizeQuerySelector meta.

Lemma visitInsts_Tracked ids : ∀ self self',
  Tracked c mangledName meta self →
  visitInsts gfxIp self ids = Some self' →
  Tracked c mangledName meta self' ∧ (c ∈ ids → c ∈ m_imageCalls self').
Proof using Hmajor Hprefix Hsel.
  induction ids as [|id ids IH]; simpl; intros self self' Htr Hv.
  - injection Hv as <-. split; [done|]. by intros ?%elem_of_nil.
  - destruct (visitInst gfxIp self id) as [s1|] eqn:H1; [|done]. simpl in Hv.
    destruct (Tracked_step _ _ _ _ _ _ _ Hmajor Hprefix Hsel Htr H1) as [Htr1 Hc1].
    destruct (IH _ _ Htr1 Hv) as [Htr' Hc'].
    split; [done|]. intros [->|Hin]%elem_of_cons; [|auto].
    apply (visitInsts_pending_mono _ _ _ _ Hv). auto.
Qed.

Lemma visitStages_Tracked entryPoints : ∀ self self',
  Tracked c mangledName meta self →
  visitStages gfxIp self entryPoints = Some self' →
  Tracked c mangledName meta self' ∧
  (∀ f, Some f ∈ entryPoints → HasInBody (m_pModule self) f c → c ∈ m_imageCalls self').
Proof using Hmajor Hprefix Hsel.
  induction entryPoints as [|[f|] eps IH]; simpl; intros self self' Htr Hv.
  - injection Hv as <-. split; [done|]. by intros f ?%elem_of_nil.
  - destruct (visit gfxIp self f) as [s1|] eqn:H1; [|done]. simpl in Hv.
    assert (Tracked c mangledName meta s1 ∧
            (HasInBody (m_pModule self) f c → c ∈ m_imageCalls s1)) as [Htr1 Hc1].
    { unfold visit in H1.
      destruct (moduleFuncs (m_pModule self) !! f) as [body|] eqn:Hb.
      - destruct (visitInsts_Tracked _ _ _ Htr H1) as [? Hin]. split; [done|].
        intros (body' & Hb' & Hc). rewrite Hb in Hb'. injection Hb' as <-. auto.
      - injection H1 as <-. split; [done|]. intros (body' & Hb' & _). congruence. }
    destruct (IH _ _ Htr1 Hv) as [Htr' Hc'].
    split; [done|]. intros f0 Hf0 Hbody.
    apply elem_of_cons in Hf0 as [[= ->]|Hf0].
    + apply (visitStages_pending_mono _ _ _ _ Hv). auto.
    + apply (Hc' f0 Hf0). eapply HasInBody_grow; [|done].
      by eapply visit_BodiesGrow.
  - destruct (IH _ _ Htr Hv) as [Htr' Hc'].
    split; [done|]. intros f0 Hf0 Hbody.
    apply elem_of_cons in Hf0 as [?|Hf0]; [done|]. by apply (Hc' f0).
Qed.

End SizeQueryScan.

(** *** The final erasure *)

Lemma eraseInsts_lookup_None (c : InstId) (l : list InstId) (m : Module) :
  c ∈ l → moduleInsts (foldr eraseInst m l) !! c = None.
Proof.
  induction l as [|x l IH]; simpl; [by intros ?%elem_of_nil|].
  intros Hin. destruct (decide (x = c)) as [->|Hne].
  - apply lookup_delete_eq.
  - rewrite lookup_delete_ne by done. apply IH.
    apply elem_of_cons in Hin as [?|?]; [congruence|done].
Qed.

Lemma eraseInsts_lookup_Some (l : list InstId) (m : Module) j i :
  moduleInsts (foldr eraseInst m l) !! j = Some i → moduleInsts m !! j = Some i.
Proof.
  induction l as [|x l IH]; simpl; [done|].
  intros H. apply lookup_delete_Some in H as [_ H]. auto.
Qed.

Lemma eraseInsts_not_in_body (c : InstId) (l : list InstId) (m : Module) body :
  c ∈ l → body ∈ moduleFuncs (foldr eraseInst m l) → c ∉ body.
Proof.
  induction l as [|x l IH] in body |- *; simpl; [by intros ?%elem_of_nil|].
  intros Hin Hb. apply list_elem_of_fmap in Hb as (body0 & -> & Hb0).
  rewrite list_elem_of_filter. intros [Hne Hc].
  apply elem_of_cons in Hin as [->|Hin]; [done|].
  by apply (IH body0).
Qed.

Lemma substValue_notin old new (l : list Value) :
  InstResult old ∉ l → substValue old new <$> l = l.
Proof.
  induction l as [|v l IH]; [done|].
  rewrite not_elem_of_cons. intros [Hv Hl]. rewrite fmap_cons, IH by done. f_equal.
  destruct v; simpl; try done. case_decide; congruence.
Qed.

(** C2: on hardware up to generation 8 the call that replaces a buffer size
    query is built from the operands of the original, unmodified and in
    order; visiting the original redirects every use of its result to the
    replacement and schedules it for erasure; and once [runOnModule] has
    returned, the original is in no function body, is destroyed, and no
    operand refers to it. *)
Theorem size_query_replaced_then_erased :
  (∀ gfxIp self callInst ty mangledName operandList meta,
     moduleInsts (m_pModule self) !! callInst
       = Some {| instType := ty; instOp := Call (Some mangledName) operandList |} →
     startswith mangledName ImageCallPrefix = true →
     decodeMetadata operandList = Some meta →
     SizeQuerySelector meta →
     major gfxIp ≤ 8 →
     ∃ self' callName pImageCall,
       visitInst gfxIp self callInst = Some self' ∧
       callName = mangledName +:+ (if major gfxIp =? 8 then ".gfx8" else ".gfx6") ∧
       EmitCall (m_pModule self) callName ty operandList callInst
         = ({| moduleInsts :=
                 <[pImageCall := {| instType := ty;
                                    instOp := Call (Some callName) operandList |}]>
                   (moduleInsts (m_pModule self));
               moduleFuncs := insertBefore callInst pImageCall <$> moduleFuncs (m_pModule self) |},
            pImageCall) ∧
       m_pModule self'
         = replaceAllUsesWith
             (EmitCall (m_pModule self) callName ty operandList callInst).1
             callInst pImageCall ∧
       moduleInsts (m_pModule self) !! pImageCall = None ∧
       moduleInsts (m_pModule self') !! pImageCall
         = Some {| instType := ty;
                   instOp := Call (Some callName)
                                  (substValue callInst pImageCall <$> operandList) |} ∧
       (InstResult callInst ∉ operandList →
        moduleInsts (m_pModule self') !! pImageCall
          = Some {| instType := ty; instOp := Call (Some callName) operandList |}) ∧
       (∀ j, j ≠ pImageCall →
          moduleInsts (m_pModule self') !! j
            = substInst callInst pImageCall <$> moduleInsts (m_pModule self) !! j) ∧
       NoUseOf callInst (m_pModule self') ∧
       is_Some (moduleInsts (m_pModule self') !! callInst) ∧
       m_imageCalls self' = {[callInst]} ∪ m_imageCalls self)
  ∧
  (∀ gfxIp entryPoints module module' flag f callInst ty mangledName operandList meta,
     runOnModule gfxIp entryPoints module = Some (module', flag) →
     Some f ∈ entryPoints →
     HasInBody module f callInst →
     moduleInsts module !! callInst
       = Some {| instType := ty; instOp := Call (Some mangledName) operandList |} →
     startswith mangledName ImageCallPrefix = true →
     decodeMetadata operandList = Some meta →
     SizeQuerySelector meta →
     major gfxIp ≤ 8 →
     moduleInsts module' !! callInst = None ∧
     (∀ body, body ∈ moduleFuncs module' → callInst ∉ body) ∧
     NoUseOf callInst module').
Proof.
  split.
  - intros gfxIp self callInst ty mangledName operandList meta Hc Hpre Hmeta Hsel Hle.
    pose proof (visitInst_size_query gfxIp _ _ _ _ _ _ Hc Hpre Hmeta Hsel) as Hv.
    rewrite patchBufferSizeQuery_le8 in Hv by done.
    set (pImageCall := fresh (dom (moduleInsts (m_pModule self)))) in *.
    set (callName := mangledName +:+ (if major gfxIp =? 8 then ".gfx8" else ".gfx6")) in *.
    assert (Hnew : pImageCall ≠ callInst) by exact (fresh_inst_ne _ _ _ Hc).
    eexists _, callName, pImageCall. split; [exact Hv|]. cbn [m_pModule m_imageCalls].
    split; [done|]. split; [done|]. split; [done|]. split; [apply fresh_inst_None|].
    split; [simpl; by rewrite lookup_fmap, lookup_insert_eq|].
    split.
    { intros Hn. simpl. rewrite lookup_fmap, lookup_insert_eq. simpl.
      unfold substInst. simpl. by rewrite substValue_notin. }
    split; [intros j Hj; simpl; by rewrite lookup_fmap, lookup_insert_ne|].
    split; [|split; [|done]].
    + eapply NoUseOf_after_replace; [by eexists|exact Hc|done|done].
    + simpl. rewrite lookup_fmap, lookup_insert_ne, Hc by done. by eexists.
  - intros gfxIp entryPoints module module' flag f callInst ty mangledName operandList meta
           Hrun Hf Hbody Hc Hpre Hmeta Hsel Hle.
    unfold runOnModule in Hrun.
    destruct (visitStages gfxIp {| m_pModule := module; m_imageCalls := ∅ |} entryPoints)
      as [self1|] eqn:Hscan; [|done].
    simpl in Hrun. injection Hrun as <- <-.
    assert (Htr0 : Tracked callInst mangledName meta {| m_pModule := module; m_imageCalls := ∅ |}).
    { split; [by eexists|]. split; [right; by exists ty, operandList|].
      simpl. by intros ?%not_elem_of_empty. }
    destruct (visitStages_Tracked gfxIp callInst mangledName meta Hle Hpre Hsel
                _ _ _ Htr0 Hscan) as [(_ & _ & Huse) Hpend].
    specialize (Hpend f Hf Hbody). specialize (Huse Hpend).
    apply elem_of_elements in Hpend.
    split; [by apply eraseInsts_lookup_None|].
    split; [intros body; by apply eraseInsts_not_in_body|].
    intros j i Hj. apply eraseInsts_lookup_Some in Hj. by apply (Huse j i).
Qed.

(** *** The texel offset rule *)

Lemma pc_high_bits_zero (pc : Z) :
  0 ≤ pc < 2 ^ 56 → Z.shiftr ((pc / 2 ^ 32) mod 2 ^ 32) 24 = 0.
Proof.
  intros Hpc. rewrite Z.shiftr_div_pow2 by lia.
  assert (0 ≤ pc / 2 ^ 32 < 2 ^ 24) as Hq.
  { split; [apply Z.div_pos; lia|]. apply Z.div_lt_upper_bound; lia. }
  rewrite Z.mod_small by lia. apply Z.div_small. lia.
Qed.

Section TexelOffsetStore.
Variables (m : Module) (callInst : InstId) (ty : Ty) (pCallee : option string)
          (operandList : list Value).
Hypothesis Hcall :
  moduleInsts m !! callInst = Some {| instType := ty; instOp := Call pCallee operandList |}.

Let iPc : Instruction :=
  {| instType := Int64Ty; instOp := Call (Some "llvm.amdgcn.s.getpc") [] |}.
Let pPc : InstId := fresh (dom (moduleInsts m)).
Let s1 := <[pPc := iPc]> (moduleInsts m).
Let pPcCast : InstId := fresh (dom s1).
Let s2 := <[pPcCast := {| instType := Int32x2Ty; instOp := BitCastInst (InstResult pPc) |}]> s1.
Let pPcHigh : InstId := fresh (dom s2).
Let s3 := <[pPcHigh := {| instType := Int32Ty;
                          instOp := ExtractElementInst (InstResult pPcCast)
                                                       (ConstantInt 32 1) |}]> s2.
Let pTexelOffset : InstId := fresh (dom s3).
Let s4 := <[pTexelOffset := {| instType := Int32Ty;
                               instOp := LShr (InstResult pPcHigh) (ConstantInt 32 24) |}]> s3.

Lemma emitNonConstantZero_result :
  emitNonConstantZero m callInst =
    ({| moduleInsts := s4;
        moduleFuncs :=
          insertBefore callInst pTexelOffset <$>
            (insertBefore callInst pPcHigh <$>
               (insertBefore callInst pPcCast <$>
                  (insertBefore callInst pPc <$> moduleFuncs m))) |}, pTexelOffset).
Proof. reflexivity. Qed.

Lemma emitted_ids_distinct :
  NoDup [pPc; pPcCast; pPcHigh; pTexelOffset; callInst] ∧
  moduleInsts m !! pPc = None ∧ moduleInsts m !! pPcCast = None ∧
  moduleInsts m !! pPcHigh = None ∧ moduleInsts m !! pTexelOffset = None.
Proof using Hcall.
  assert (H1 : pPc ∉ dom (moduleInsts m)) by apply is_fresh.
  assert (H2 : pPcCast ∉ dom s1) by apply is_fresh.
  assert (H3 : pPcHigh ∉ dom s2) by apply is_fresh.
  assert (H4 : pTexelOffset ∉ dom s3) by apply is_fresh.
  assert (Hc : callInst ∈ dom (moduleInsts m)) by (apply elem_of_dom; by eexists).
  unfold s3, s2, s1 in *. rewrite !dom_insert_L in *.
  rewrite !NoDup_cons, !elem_of_cons, elem_of_nil.
  repeat split; try (apply not_elem_of_dom; set_solver); try apply NoDup_nil_2; set_solver.
Qed.

Lemma texelOffsetPatched_insts :
  moduleInsts (setArgOperand (emitNonConstantZero m callInst).1 callInst 3
                 (InstResult (emitNonConstantZero m callInst).2))
    = <[callInst := {| instType := ty;
                       instOp := Call pCallee (<[3%nat := InstResult pTexelOffset]> operandList) |}]> s4.
Proof using Hcall.
  rewrite emitNonConstantZero_result. simpl.
  destruct emitted_ids_distinct as (Hnd & _).
  rewrite !NoDup_cons, !elem_of_cons, elem_of_nil in Hnd.
  assert (s4 !! callInst = Some {| instType := ty; instOp := Call pCallee operandList |}) as Hs4.
  { unfold s4, s3, s2, s1. rewrite !lookup_insert_ne by naive_solver. exact Hcall. }
  apply map_eq. intros j. rewrite lookup_alter, lookup_insert.
  case_decide; [subst j; by rewrite Hs4|done].
Qed.

End TexelOffsetStore.

Lemma insertBefore_four callInst p1 p2 p3 p4 pre post :
  callInst ∉ pre → p1 ≠ callInst → p2 ≠ callInst → p3 ≠ callInst →
  insertBefore callInst p4
    (insertBefore callInst p3
       (insertBefore callInst p2
          (insertBefore callInst p1 (pre ++ callInst :: post))))
  = pre ++ [p1; p2; p3; p4] ++ callInst :: post.
Proof.
  intros Hpre H1 H2 H3.
  assert (Hs : ∀ new pre' , callInst ∉ pre' →
            insertBefore callInst new (pre' ++ callInst :: post)
            = (pre' ++ [new]) ++ callInst :: post).
  { intros new pre' Hn. rewrite insertBefore_split by done.
    by rewrite <- (assoc_L (++)). }
  rewrite !Hs by (rewrite ?elem_of_app, ?list_elem_of_singleton; naive_solver).
  by rewrite <- !(assoc_L (++)).
Qed.

(** The visitor on a recognized call that selects the texel offset rule. *)
Lemma visitInst_offset gfxIp self callInst ty mangledName operandList meta :
  EnumeratorsDistinct →
  moduleInsts (m_pModule self) !! callInst
    = Some {| instType := ty; instOp := Call (Some mangledName) operandList |} →
  startswith mangledName ImageCallPrefix = true →
  decodeMetadata operandList = Some meta →
  OffsetErratumSelector meta →
  visitInst gfxIp self callInst = patchTexelOffset gfxIp self callInst operandList.
Proof.
  intros Hd Hc Hpre Hmeta Hsel.
  rewrite (visitInst_call _ _ _ _ _ _ Hc). unfold visitCallInst.
  rewrite Hpre, Hmeta. simpl.
  assert (isBufferSizeQuery meta = false) as ->.
  { apply isBufferSizeQuery_false. intros Ha. by apply (selectors_exclusive meta). }
  apply isBufferOffsetOp_spec in Hsel. by rewrite Hsel.
Qed.

Lemma patchTexelOffset_zero gfxIp self callInst operandList bits val :
  major gfxIp = 9 →
  operandList !! 3%nat = Some (ConstantInt bits val) →
  val mod 2 ^ 32 = 0 →
  patchTexelOffset gfxIp self callInst operandList = Some (texelOffsetPatched self callInst).
Proof.
  intros H9 H3 Hz. unfold patchTexelOffset, texelOffsetPatched.
  rewrite H9, H3. simpl.
  assert (toU32 (getZExtValue val) = 0) as ->.
  { unfold toU32, getZExtValue.
    rewrite Z.mod_mod_divide; [done|]. exists (2 ^ 32). lia. }
  simpl. by destruct (emitNonConstantZero (m_pModule self) callInst).
Qed.

(** The visit of a call that selects the texel offset rule on generation 9,
    with the integer constant zero as operand 3. *)
Lemma visitInst_texel_offset_zero
    gfxIp self callInst ty mangledName operandList meta bits :
  EnumeratorsDistinct →
  moduleInsts (m_pModule self) !! callInst
    = Some {| instType := ty; instOp := Call (Some mangledName) operandList |} →
  startswith mangledName ImageCallPrefix = true →
  decodeMetadata operandList = Some meta →
  OffsetErratumSelector meta →
  major gfxIp = 9 →
  operandList !! 3%nat = Some (ConstantInt bits 0) →
  ∃ self' pPc pPcCast pPcHigh pTexelOffset,
    visitInst gfxIp self callInst = Some self' ∧
    NoDup [pPc; pPcCast; pPcHigh; pTexelOffset; callInst] ∧
    (∀ p, p ∈ [pPc; pPcCast; pPcHigh; pTexelOffset] →
          moduleInsts (m_pModule self) !! p = None) ∧
    moduleInsts (m_pModule self') =
      <[callInst := {| instType := ty;
                       instOp := Call (Some mangledName)
                                      (<[3%nat := InstResult pTexelOffset]> operandList) |}]>
      (<[pTexelOffset := {| instType := Int32Ty;
                            instOp := LShr (InstResult pPcHigh) (ConstantInt 32 24) |}]>
      (<[pPcHigh := {| instType := Int32Ty;
                       instOp := ExtractElementInst (InstResult pPcCast) (ConstantInt 32 1) |}]>
      (<[pPcCast := {| instType := Int32x2Ty; instOp := BitCastInst (InstResult pPc) |}]>
      (<[pPc := {| instType := Int64Ty; instOp := Call (Some "llvm.amdgcn.s.getpc") [] |}]>
         (moduleInsts (m_pModule self)))))) ∧
    (∀ f pre post,
       moduleFuncs (m_pModule self) !! f = Some (pre ++ callInst :: post) →
       callInst ∉ pre →
       moduleFuncs (m_pModule self') !! f
         = Some (pre ++ [pPc; pPcCast; pPcHigh; pTexelOffset] ++ callInst :: post)) ∧
    (∀ k, k ≠ 3%nat →
       (<[3%nat := InstResult pTexelOffset]> operandList) !! k = operandList !! k) ∧
    (<[3%nat := InstResult pTexelOffset]> operandList) !! 3%nat
      = Some (InstResult pTexelOffset) ∧
    (∀ j i, j ≠ callInst → moduleInsts (m_pModule self) !! j = Some i →
            moduleInsts (m_pModule self') !! j = Some i) ∧
    (∀ pc, 0 ≤ pc < 2 ^ 56 →
           evalValue 4 (m_pModule self') pc (InstResult pTexelOffset) = Some (RtInt 0)) ∧
    m_imageCalls self' = m_imageCalls self.
Proof.
  intros Hd Hc Hpre Hmeta Hsel H9 H3.
  pose proof (visitInst_offset gfxIp _ _ _ _ _ _ Hd Hc Hpre Hmeta Hsel) as Hv.
  rewrite (patchTexelOffset_zero _ _ _ _ bits 0 H9 H3 eq_refl) in Hv.
  pose proof (emitted_ids_distinct _ _ _ _ _ Hc) as Hids.
  pose proof (texelOffsetPatched_insts _ _ _ _ _ Hc) as Hst.
  pose proof (emitNonConstantZero_result (m_pModule self) callInst) as Hemit.
  cbv zeta in Hids, Hst, Hemit.
  set (pPc := fresh (dom (moduleInsts (m_pModule self)))) in *.
  set (s1 := <[pPc := _]> (moduleInsts (m_pModule self))) in *.
  set (pPcCast := fresh (dom s1)) in *.
  set (s2 := <[pPcCast := _]> s1) in *.
  set (pPcHigh := fresh (dom s2)) in *.
  set (s3 := <[pPcHigh := _]> s2) in *.
  set (pTexelOffset := fresh (dom s3)) in *.
  destruct Hids as (Hnd & Hn1 & Hn2 & Hn3 & Hn4).
  assert (pPc ≠ pPcCast ∧ pPc ≠ pPcHigh ∧ pPc ≠ pTexelOffset ∧ pPc ≠ callInst ∧
          pPcCast ≠ pPcHigh ∧ pPcCast ≠ pTexelOffset ∧ pPcCast ≠ callInst ∧
          pPcHigh ≠ pTexelOffset ∧ pPcHigh ≠ callInst ∧ pTexelOffset ≠ callInst)
    as (? & ? & ? & ? & ? & ? & ? & ? & ? & ?).
  { clear -Hnd. rewrite !NoDup_cons, !elem_of_cons, elem_of_nil in Hnd. tauto. }
  exists (texelOffsetPatched self callInst), pPc, pPcCast, pPcHigh, pTexelOffset.
  assert (Hlen : (3 < length operandList)%nat) by (by eapply lookup_lt_Some).
  split; [done|]. split; [done|].
  split.
  { intros p. rewrite !elem_of_cons, elem_of_nil. intros [->|[->|[->|[->|[]]]]]; done. }
  split; [exact Hst|].
  split.
  { intros f pre post Hf Hnin. unfold texelOffsetPatched. cbn [m_pModule moduleFuncs setArgOperand].
    rewrite Hemit. cbn [fst moduleFuncs].
    rewrite !list_lookup_fmap, Hf. simpl. f_equal.
    by apply insertBefore_four. }
  split; [intros k Hk; by apply list_lookup_insert_ne|].
  split; [by apply list_lookup_insert_eq|].
  split.
  { intros j i Hj Hi. unfold texelOffsetPatched. cbn [m_pModule]. rewrite Hst.
    rewrite lookup_insert_ne by done. unfold s3, s2, s1.
    rewrite !lookup_insert_ne; [done|congruence..]. }
  split; [|done].
  intros pc Hpc. unfold texelOffsetPatched. cbn [m_pModule].
  assert (Hl4 : moduleInsts (setArgOperand (emitNonConstantZero (m_pModule self) callInst).1
                  callInst 3 (InstResult (emitNonConstantZero (m_pModule self) callInst).2))
                !! pTexelOffset
                = Some {| instType := Int32Ty;
                          instOp := LShr (InstResult pPcHigh) (ConstantInt 32 24) |}).
  { rewrite Hst, lookup_insert_ne by done. apply lookup_insert_eq. }
  assert (Hl3 : moduleInsts (setArgOperand (emitNonConstantZero (m_pModule self) callInst).1
                  callInst 3 (InstResult (emitNonConstantZero (m_pModule self) callInst).2))
                !! pPcHigh
                = Some {| instType := Int32Ty;
                          instOp := ExtractElementInst (InstResult pPcCast)
                                                       (ConstantInt 32 1) |}).
  { rewrite Hst. unfold s3, s2, s1.
    rewrite !lookup_insert_ne by done. apply lookup_insert_eq. }
  assert (Hl2 : moduleInsts (setArgOperand (emitNonConstantZero (m_pModule self) callInst).1
                  callInst 3 (InstResult (emitNonConstantZero (m_pModule self) callInst).2))
                !! pPcCast
                = Some {| instType := Int32x2Ty; instOp := BitCastInst (InstResult pPc) |}).
  { rewrite Hst. unfold s3, s2, s1.
    rewrite !lookup_insert_ne by done. apply lookup_insert_eq. }
  assert (Hl1 : moduleInsts (setArgOperand (emitNonConstantZero (m_pModule self) callInst).1
                  callInst 3 (InstResult (emitNonConstantZero (m_pModule self) callInst).2))
                !! pPc
                = Some {| instType := Int64Ty;
                          instOp := Call (Some "llvm.amdgcn.s.getpc") [] |}).
  { rewrite Hst. unfold s3, s2, s1.
    rewrite !lookup_insert_ne by done. apply lookup_insert_eq. }
  cbn [evalValue]. rewrite Hl4. cbn [mbind option_bind instOp instType evalValue].
  rewrite Hl3. cbn [mbind option_bind instOp instType evalValue].
  rewrite Hl2. cbn [mbind option_bind instOp instType evalValue].
  rewrite Hl1. cbn [mbind option_bind instOp instType evalValue].
  rewrite decide_True by done. simpl.
  by rewrite pc_high_bits_zero.
Qed.

Lemma patchTexelOffset_keeps gfxIp self callInst operandList :
  major gfxIp ≠ 9
  ∨ (∃ v, operandList !! 3%nat = Some v ∧ ∀ bits val, v ≠ ConstantInt bits val)
  ∨ (∃ bits val, operandList !! 3%nat = Some (ConstantInt bits val) ∧ val mod 2 ^ 32 ≠ 0) →
  patchTexelOffset gfxIp self callInst operandList = Some self.
Proof.
  unfold patchTexelOffset.
  destruct (Z.eqb_spec (major gfxIp) 9) as [H9|Hn9]; [|done].
  intros [?|[(v & -> & Hv)|(bits & val & -> & Hnz)]]; [done| |].
  - destruct v; [by destruct (Hv bits val)|done..].
  - assert (toU32 (getZExtValue val) = val mod 2 ^ 32) as ->.
    { unfold toU32, getZExtValue. apply Z.mod_mod_divide. exists (2 ^ 32). lia. }
    destruct (Z.eqb_spec (val mod 2 ^ 32) 0); [done|done].
Qed.

(** The visitor leaves a call that selects the texel offset rule alone when
    the generation is not 9, or operand 3 is not an integer constant, or it is
    a constant whose low 32 bits are not all zero. *)
Lemma visitInst_offset_keeps
    gfxIp self callInst ty mangledName operandList meta :
  EnumeratorsDistinct →
  moduleInsts (m_pModule self) !! callInst
    = Some {| instType := ty; instOp := Call (Some mangledName) operandList |} →
  startswith mangledName ImageCallPrefix = true →
  decodeMetadata operandList = Some meta →
  OffsetErratumSelector meta →
  major gfxIp ≠ 9
  ∨ (∃ v, operandList !! 3%nat = Some v ∧ ∀ bits val, v ≠ ConstantInt bits val)
  ∨ (∃ bits val, operandList !! 3%nat = Some (ConstantInt bits val) ∧ val mod 2 ^ 32 ≠ 0) →
  visitInst gfxIp self callInst = Some self.
Proof.
  intros Hd Hc Hpre Hmeta Hsel Hcase.
  rewrite (visitInst_offset gfxIp _ _ _ _ _ _ Hd Hc Hpre Hmeta Hsel).
  by apply patchTexelOffset_keeps.
Qed.


(** *** Calls the visitor leaves alone, through the whole pass *)

Lemma visitInsts_invariant (P : PatchImageOp → Prop) gfxIp :
  (∀ self id self', P self → visitInst gfxIp self id = Some self' → P self') →
  ∀ ids self self', P self → visitInsts gfxIp self ids = Some self' → P self'.
Proof.
  intros Hstep. induction ids as [|id ids IH]; simpl; intros self self' HP Hv.
  - by injection Hv as <-.
  - destruct (visitInst gfxIp self id) as [s1|] eqn:H1; [|done]. simpl in Hv. eauto.
Qed.

Lemma visitStages_invariant (P : PatchImageOp → Prop) gfxIp :
  (∀ self id self', P self → visitInst gfxIp self id = Some self' → P self') →
  ∀ entryPoints self self',
    P self → visitStages gfxIp self entryPoints = Some self' → P self'.
Proof.
  intros Hstep. induction entryPoints as [|[f|] eps IH]; simpl; intros self self' HP Hv.
  - by injection Hv as <-.
  - destruct (visit gfxIp self f) as [s1|] eqn:H1; [|done]. simpl in Hv.
    apply (IH s1 self'); [|done]. unfold visit in H1.
    destruct (moduleFuncs (m_pModule self) !! f); [|congruence].
    by eapply visitInsts_invariant.
  - eauto.
Qed.

Lemma texelOffsetPatched_other self callInst ty pCallee operandList j i :
  moduleInsts (m_pModule self) !! callInst
    = Some {| instType := ty; instOp := Call pCallee operandList |} →
  j ≠ callInst →
  moduleInsts (m_pModule self) !! j = Some i →
  moduleInsts (m_pModule (texelOffsetPatched self callInst)) !! j = Some i.
Proof.
  intros Hc Hj Hi.
  pose proof (emitted_ids_distinct _ _ _ _ _ Hc) as (_ & Hn1 & Hn2 & Hn3 & Hn4).
  pose proof (texelOffsetPatched_insts _ _ _ _ _ Hc) as Hst.
  cbv zeta in Hn1, Hn2, Hn3, Hn4, Hst.
  unfold texelOffsetPatched. cbn [m_pModule]. rewrite Hst.
  rewrite lookup_insert_ne by done.
  rewrite !lookup_insert_ne; [done|congruence..].
Qed.

Lemma texelOffsetPatched_self self callInst ty pCallee operandList :
  moduleInsts (m_pModule self) !! callInst
    = Some {| instType := ty; instOp := Call pCallee operandList |} →
  ∃ pTexelOffset,
    moduleInsts (m_pModule (texelOffsetPatched self callInst)) !! callInst
      = Some {| instType := ty;
                instOp := Call pCallee (<[3%nat := InstResult pTexelOffset]> operandList) |}.
Proof.
  intros Hc. pose proof (texelOffsetPatched_insts _ _ _ _ _ Hc) as Hst.
  cbv zeta in Hst. eexists. unfold texelOffsetPatched. cbn [m_pModule].
  rewrite Hst. apply lookup_insert_eq.
Qed.

Lemma KeepsUse_refl c i : KeepsUse c i i.
Proof. by intros k. Qed.

Lemma KeepsUse_trans c i1 i2 i3 : KeepsUse c i1 i2 → KeepsUse c i2 i3 → KeepsUse c i1 i3.
Proof. intros H12 H23 k Hk. auto. Qed.

Lemma KeepsUse_subst c d new i : d ≠ c → KeepsUse c i (substInst d new i).
Proof.
  intros Hne k Hk. simpl. rewrite operands_mapOperands, list_lookup_fmap, Hk. simpl.
  by rewrite decide_False by congruence.
Qed.

Lemma RedirectedWhere_refl P operandList : RedirectedWhere P operandList operandList.
Proof.
  apply Forall2_same_length_lookup. split; [done|]. intros k v v' H1 H2. left. congruence.
Qed.

Lemma RedirectedWhere_impl (P Q : InstId → Prop) operandList operandList' :
  (∀ d, P d → Q d) →
  RedirectedWhere P operandList operandList' → RedirectedWhere Q operandList operandList'.
Proof.
  intros HPQ H. eapply Forall2_impl; [exact H|].
  intros v v' [->|(a & b & -> & -> & HP)]; [by left|right; eauto 6].
Qed.

Lemma RedirectedWhere_subst (P Q : InstId → Prop) d new operandList operandList' :
  (∀ x, P x → Q x) → Q d →
  RedirectedWhere P operandList operandList' →
  RedirectedWhere Q operandList (substValue d new <$> operandList').
Proof.
  intros HPQ HQd H. apply Forall2_fmap_r. eapply Forall2_impl; [exact H|].
  intros v v' [->|(a & b & -> & -> & HP)].
  - destruct v as [| id |]; simpl; [by left| |by left].
    case_decide; [subst id; right; eauto 6|by left].
  - right. simpl. case_decide; eauto 8.
Qed.

Lemma Redirected_decodeMetadata operandList operandList' meta :
  Redirected operandList operandList' →
  decodeMetadata operandList = Some meta →
  decodeMetadata operandList' = Some meta.
Proof.
  intros H. unfold decodeMetadata. rewrite <- (Forall2_length _ _ _ H).
  case_decide; [|done].
  destruct (operandList !! (length operandList - 1)%nat) as [v|] eqn:Hv; [|done].
  destruct (Forall2_lookup_l _ _ _ _ _ H Hv) as (v' & -> & Hor).
  destruct Hor as [->|(a & b & -> & -> & _)]; done.
Qed.

Lemma Redirected_lookup operandList operandList' k v :
  Redirected operandList operandList' →
  operandList !! k = Some v →
  ∃ v', operandList' !! k = Some v' ∧
        (v' = v ∨ ∃ d d', v = InstResult d ∧ v' = InstResult d').
Proof.
  intros H Hv. destruct (Forall2_lookup_l _ _ _ _ _ H Hv) as (v' & Hv' & Hor).
  exists v'. split; [done|]. destruct Hor as [->|(a & b & -> & -> & _)]; eauto.
Qed.

Lemma Redirected_lookup_None operandList operandList' k :
  Redirected operandList operandList' →
  operandList !! k = None → operandList' !! k = None.
Proof.
  intros H Hv. apply lookup_ge_None in Hv. rewrite (Forall2_length _ _ _ H) in Hv.
  by apply lookup_ge_None.
Qed.

Lemma RedirectedWhere_no_inst P operandList operandList' :
  (∀ d, InstResult d ∉ operandList) →
  RedirectedWhere P operandList operandList' → operandList' = operandList.
Proof.
  intros Hn H. induction H as [|v v' l l' Hor H IH]; [done|].
  rewrite IH.
  - destruct Hor as [->|(a & b & -> & -> & _)]; [done|]. destruct (Hn a). left.
  - intros d Hd. apply (Hn d). by right.
Qed.

Lemma Frame_step gfxIp c ty pCallee operandList module self id self' :
  (∀ operandList', Redirected operandList operandList' →
                   QuietCall gfxIp ty pCallee operandList') →
  Frame c ty pCallee operandList module self →
  visitInst gfxIp self id = Some self' →
  Frame c ty pCallee operandList module self'.
Proof.
  intros Hquiet HF Hv. pose proof HF as (Hpend & (ops' & Hc & Hred) & Huse).
  destruct (decide (id = c)) as [->|Hne].
  { rewrite visitInst_quiet in Hv; [by injection Hv as <-|].
    intros i Hi. rewrite Hc in Hi. injection Hi as <-. apply Hquiet.
    by eapply RedirectedWhere_impl. }
  apply visitInst_cases in Hv as [[-> _]|[Ha|Hb]]; [done| |].
  - destruct Ha as (tyd & nm & ops & meta & Hid & _ & _ & _ & Hle & ->).
    rewrite patchBufferSizeQuery_le8 by done.
    set (pImageCall := fresh (dom (moduleInsts (m_pModule self)))).
    assert (Hfresh : ∀ j i, moduleInsts (m_pModule self) !! j = Some i → pImageCall ≠ j).
    { intros j i. apply fresh_inst_ne. }
    split; [simpl; set_solver|]. split.
    + exists (substValue id pImageCall <$> ops'). simpl.
      rewrite lookup_fmap, lookup_insert_ne, Hc by eauto. simpl.
      split; [done|]. eapply RedirectedWhere_subst; [| |exact Hred]; set_solver.
    + intros j i Hj. destruct (Huse j i Hj) as (i1 & Hi1 & Hk1).
      exists (substInst id pImageCall i1). simpl.
      rewrite lookup_fmap, lookup_insert_ne, Hi1 by eauto. simpl.
      split; [done|]. eapply KeepsUse_trans; [done|]. by apply KeepsUse_subst.
  - destruct Hb as (tyd & nm & ops & meta & bits & val & Hid & _ & _ & _ & _ & _ & H3 & _ & ->).
    split; [done|]. split.
    + exists ops'. split; [|done]. by eapply texelOffsetPatched_other.
    + intros j i Hj. destruct (Huse j i Hj) as (i1 & Hi1 & Hk1).
      destruct (decide (j = id)) as [->|Hji].
      * destruct (texelOffsetPatched_self _ _ _ _ _ Hid) as (p & Hp).
        eexists. split; [exact Hp|]. eapply KeepsUse_trans; [done|].
        rewrite Hid in Hi1. injection Hi1 as <-.
        intros k Hk. simpl in *. rewrite list_lookup_insert_ne; [done|].
        intros <-. congruence.
      * exists i1. split; [|done]. by eapply texelOffsetPatched_other.
Qed.

Lemma eraseInsts_lookup_other (c : InstId) (l : list InstId) (m : Module) :
  c ∉ l → moduleInsts (foldr eraseInst m l) !! c = moduleInsts m !! c.
Proof.
  induction l as [|x l IH]; simpl; [done|].
  rewrite not_elem_of_cons. intros [Hne Hl].
  rewrite lookup_delete_ne by done. auto.
Qed.

Lemma eraseInsts_HasInBody (c : InstId) (l : list InstId) (m : Module) f :
  c ∉ l → HasInBody m f c → HasInBody (foldr eraseInst m l) f c.
Proof.
  induction l as [|x l IH]; simpl; [done|].
  rewrite not_elem_of_cons. intros [Hne Hl] Hb.
  destruct (IH Hl Hb) as (body & Hf & Hc).
  exists (filter (λ y, y ≠ x) body). simpl. rewrite list_lookup_fmap, Hf. simpl.
  split; [done|]. by apply list_elem_of_filter.
Qed.

(** A recognized call whose metadata selects neither rule is left as it is
    by the visitor, on every hardware generation. *)
Lemma visitInst_unselected
    gfxIp self callInst ty mangledName operandList meta :
  moduleInsts (m_pModule self) !! callInst
    = Some {| instType := ty; instOp := Call (Some mangledName) operandList |} →
  startswith mangledName ImageCallPrefix = true →
  decodeMetadata operandList = Some meta →
  ¬ SizeQuerySelector meta →
  ¬ OffsetErratumSelector meta →
  visitInst gfxIp self callInst = Some self.
Proof.
  intros Hc Hpre Hmeta Ha Hb.
  rewrite (visitInst_call _ _ _ _ _ _ Hc). unfold visitCallInst.
  rewrite Hpre, Hmeta. simpl.
  apply isBufferSizeQuery_false in Ha. apply isBufferOffsetOp_false in Hb.
  by rewrite Ha, Hb.
Qed.

Lemma visitStages_Frame gfxIp entryPoints module self1 callInst ty pCallee operandList :
  (∀ operandList', Redirected operandList operandList' →
                   QuietCall gfxIp ty pCallee operandList') →
  moduleInsts module !! callInst
    = Some {| instType := ty; instOp := Call pCallee operandList |} →
  visitStages gfxIp {| m_pModule := module; m_imageCalls := ∅ |} entryPoints = Some self1 →
  Frame callInst ty pCallee operandList module self1.
Proof.
  intros Hquiet Hc Hscan.
  assert (HF0 : Frame callInst ty pCallee operandList module
                  {| m_pModule := module; m_imageCalls := ∅ |}).
  { split; [by apply not_elem_of_empty|]. split.
    - exists operandList. split; [done|apply RedirectedWhere_refl].
    - intros j i Hj. exists i. split; [done|apply KeepsUse_refl]. }
  exact (visitStages_invariant _ gfxIp
           (λ self id self', Frame_step gfxIp _ _ _ _ module self id self' Hquiet)
           _ _ _ HF0 Hscan).
Qed.

(** Over the whole pass, a call that the visitor leaves alone whatever its
    instruction-result operands are redirected to is never scheduled or
    erased. *)
Lemma quiet_call_through_pass
    gfxIp entryPoints module module' flag callInst ty pCallee operandList :
  (∀ operandList', Redirected operandList operandList' →
                   QuietCall gfxIp ty pCallee operandList') →
  runOnModule gfxIp entryPoints module = Some (module', flag) →
  moduleInsts module !! callInst
    = Some {| instType := ty; instOp := Call pCallee operandList |} →
  KeptThroughPass module module' callInst ty pCallee operandList.
Proof.
  intros Hquiet Hrun Hc. unfold runOnModule in Hrun.
  destruct (visitStages gfxIp {| m_pModule := module; m_imageCalls := ∅ |} entryPoints)
    as [self1|] eqn:Hscan; [|done].
  simpl in Hrun. injection Hrun as <- <-.
  destruct (visitStages_Frame _ _ _ _ _ _ _ _ Hquiet Hc Hscan)
    as (Hpend & (ops' & Hc' & Hred) & Huse).
  assert (Hnin : callInst ∉ elements (m_imageCalls self1)) by by rewrite elem_of_elements.
  exists ops'. simpl.
  split; [by rewrite eraseInsts_lookup_other|].
  split.
  { eapply RedirectedWhere_impl; [|exact Hred].
    intros d Hd. apply eraseInsts_lookup_None. by apply elem_of_elements. }
  split; [intros Hn; by eapply RedirectedWhere_no_inst|].
  split.
  - intros f Hf. apply eraseInsts_HasInBody; [done|].
    eapply HasInBody_grow; [|done].
    apply (visitStages_BodiesGrow _ _ _ _ Hscan).
  - intros j i i' Hj Hj'. apply eraseInsts_lookup_Some in Hj'.
    destruct (Huse j i Hj) as (i1 & Hi1 & Hk).
    rewrite Hi1 in Hj'. by injection Hj' as <-.
Qed.

Lemma RedirectedWhere_False operandList operandList' :
  RedirectedWhere (λ _, False) operandList operandList' → operandList' = operandList.
Proof.
  intros H. induction H as [|v v' l l' Hor H IH]; [done|].
  rewrite IH. by destruct Hor as [->|(a & b & _ & _ & [])].
Qed.

Lemma visitStages_no_replacement_from_9 gfxIp entryPoints self self' :
  8 < major gfxIp →
  visitStages gfxIp self entryPoints = Some self' →
  m_imageCalls self' = m_imageCalls self.
Proof.
  intros Hgt Hscan.
  apply (visitStages_invariant (λ s, m_imageCalls s = m_imageCalls self) gfxIp)
    with (entryPoints := entryPoints) (self := self); [|done|done].
  intros s id s' Hs Hv. apply visitInst_cases in Hv as [[-> _]|[Ha|Hb]]; [done| |].
  - destruct Ha as (? & ? & ? & ? & _ & _ & _ & _ & Hle & _). lia.
  - destruct Hb as (? & ? & ? & ? & ? & ? & _ & _ & _ & _ & _ & _ & _ & _ & ->). done.
Qed.

(** From generation 9 on nothing is replaced, so such a call is exactly what
    it was when the pass returns. *)
Lemma quiet_call_same_from_9
    gfxIp entryPoints module module' flag callInst ty pCallee operandList :
  8 < major gfxIp →
  (∀ operandList', Redirected operandList operandList' →
                   QuietCall gfxIp ty pCallee operandList') →
  runOnModule gfxIp entryPoints module = Some (module', flag) →
  moduleInsts module !! callInst
    = Some {| instType := ty; instOp := Call pCallee operandList |} →
  moduleInsts module' !! callInst
    = Some {| instType := ty; instOp := Call pCallee operandList |} ∧
  (∀ f, HasInBody module f callInst → HasInBody module' f callInst).
Proof.
  intros Hgt Hquiet Hrun Hc.
  destruct (quiet_call_through_pass _ _ _ _ _ _ _ _ _ Hquiet Hrun Hc)
    as (ops' & Hc' & _ & _ & Hbody & _).
  split; [|done].
  unfold runOnModule in Hrun.
  destruct (visitStages gfxIp {| m_pModule := module; m_imageCalls := ∅ |} entryPoints)
    as [self1|] eqn:Hscan; [|done].
  simpl in Hrun. injection Hrun as <- <-.
  destruct (visitStages_Frame _ _ _ _ _ _ _ _ Hquiet Hc Hscan)
    as (_ & (ops1 & Hc1 & Hred) & _).
  pose proof (visitStages_no_replacement_from_9 _ _ _ _ Hgt Hscan) as Hpend.
  simpl in Hpend.
  assert (ops1 = operandList) as ->.
  { apply RedirectedWhere_False. eapply RedirectedWhere_impl; [|exact Hred].
    intros d. rewrite Hpend. apply not_elem_of_empty. }
  unfold eraseImageCalls. rewrite Hpend, elements_empty. simpl. exact Hc1.
Qed.

(** C1: when the visitor meets a recognized buffer size query, it replaces
    it by a call to the callee name suffixed [.gfx6] on hardware generations
    6 and 7, suffixed [.gfx8] on generation 8, and leaves everything as it is
    (nothing created, nothing scheduled for erasure) from generation 9 on;
    there the call is also exactly what it was when the whole pass returns. *)
Theorem buffer_size_query_by_generation :
  (∀ gfxIp self callInst ty mangledName operandList meta,
     moduleInsts (m_pModule self) !! callInst
       = Some {| instType := ty; instOp := Call (Some mangledName) operandList |} →
     startswith mangledName ImageCallPrefix = true →
     decodeMetadata operandList = Some meta →
     SizeQuerySelector meta →
     let pImageCall := fresh (dom (moduleInsts (m_pModule self))) in
     let replacedBy (suffix : string) :=
       ∃ self' args,
         visitInst gfxIp self callInst = Some self' ∧
         moduleInsts (m_pModule self) !! pImageCall = None ∧
         moduleInsts (m_pModule self') !! pImageCall
           = Some {| instType := ty;
                     instOp := Call (Some (mangledName +:+ suffix)) args |} ∧
         callInst ∈ m_imageCalls self' in
     ((major gfxIp = 6 ∨ major gfxIp = 7) → replacedBy ".gfx6") ∧
     (major gfxIp = 8 → replacedBy ".gfx8") ∧
     (9 ≤ major gfxIp → visitInst gfxIp self callInst = Some self))
  ∧
  (∀ gfxIp entryPoints module module' flag callInst ty mangledName operandList meta,
     9 ≤ major gfxIp →
     runOnModule gfxIp entryPoints module = Some (module', flag) →
     moduleInsts module !! callInst
       = Some {| instType := ty; instOp := Call (Some mangledName) operandList |} →
     startswith mangledName ImageCallPrefix = true →
     decodeMetadata operandList = Some meta →
     SizeQuerySelector meta →
     moduleInsts module' !! callInst
       = Some {| instType := ty; instOp := Call (Some mangledName) operandList |} ∧
     (∀ f, HasInBody module f callInst → HasInBody module' f callInst)).
Proof.
  split.
  - apply visitInst_size_query_by_generation.
  - intros gfxIp entryPoints module module' flag callInst ty mangledName operandList meta
           Hge Hrun Hc Hpre Hmeta Hsel.
    eapply (quiet_call_same_from_9 gfxIp); [lia| |exact Hrun|exact Hc].
    intros ops' Hred self c. unfold visitCallInst.
    rewrite Hpre, (Redirected_decodeMetadata _ _ _ Hred Hmeta). simpl.
    apply isBufferSizeQuery_spec in Hsel. rewrite Hsel.
    rewrite patchBufferSizeQuery_gt8; [done|lia].
Qed.

(** *** A patched texel offset through the whole pass (generation 9) *)

Lemma NonConstantZeroAt_eval m p pc :
  NonConstantZeroAt m p → 0 ≤ pc < 2 ^ 56 →
  evalValue 4 m pc (InstResult p) = Some (RtInt 0).
Proof.
  intros (pPc & pPcCast & pPcHigh & H4 & H3 & H2 & H1) Hpc.
  cbn [evalValue]. rewrite H4. cbn [mbind option_bind instOp instType evalValue].
  rewrite H3. cbn [mbind option_bind instOp instType evalValue].
  rewrite H2. cbn [mbind option_bind instOp instType evalValue].
  rewrite H1. cbn [mbind option_bind instOp instType evalValue].
  rewrite decide_True by done. simpl.
  by rewrite pc_high_bits_zero.
Qed.

Lemma texelOffsetPatched_OffsetPatched self callInst ty mangledName operandList :
  moduleInsts (m_pModule self) !! callInst
    = Some {| instType := ty; instOp := Call (Some mangledName) operandList |} →
  OffsetPatched (m_pModule (texelOffsetPatched self callInst)) callInst ty mangledName
    operandList.
Proof.
  intros Hc.
  pose proof (emitted_ids_distinct _ _ _ _ _ Hc) as Hids.
  pose proof (texelOffsetPatched_insts _ _ _ _ _ Hc) as Hst.
  cbv zeta in Hids, Hst.
  set (pPc := fresh (dom (moduleInsts (m_pModule self)))) in *.
  set (s1 := <[pPc := _]> (moduleInsts (m_pModule self))) in *.
  set (pPcCast := fresh (dom s1)) in *.
  set (s2 := <[pPcCast := _]> s1) in *.
  set (pPcHigh := fresh (dom s2)) in *.
  set (s3 := <[pPcHigh := _]> s2) in *.
  set (pTexelOffset := fresh (dom s3)) in *.
  destruct Hids as (Hnd & _).
  assert (pPc ≠ pPcCast ∧ pPc ≠ pPcHigh ∧ pPc ≠ pTexelOffset ∧ pPc ≠ callInst ∧
          pPcCast ≠ pPcHigh ∧ pPcCast ≠ pTexelOffset ∧ pPcCast ≠ callInst ∧
          pPcHigh ≠ pTexelOffset ∧ pPcHigh ≠ callInst ∧ pTexelOffset ≠ callInst)
    as (? & ? & ? & ? & ? & ? & ? & ? & ? & ?).
  { clear -Hnd. rewrite !NoDup_cons, !elem_of_cons, elem_of_nil in Hnd. tauto. }
  exists pTexelOffset. unfold texelOffsetPatched. cbn [m_pModule]. rewrite Hst.
  split; [apply lookup_insert_eq|].
  exists pPc, pPcCast, pPcHigh. rewrite Hst. unfold s3, s2, s1.
  split; [|split; [|split]];
    rewrite !lookup_insert_ne by done; apply lookup_insert_eq.
Qed.

Lemma NonConstantZeroAt_patch_other self id ty pCallee operandList v p :
  moduleInsts (m_pModule self) !! id
    = Some {| instType := ty; instOp := Call pCallee operandList |} →
  operandList !! 3%nat = Some v →
  NonConstantZeroAt (m_pModule self) p →
  NonConstantZeroAt (m_pModule (texelOffsetPatched self id)) p.
Proof.
  intros Hid H3 (pPc & pPcCast & pPcHigh & H4 & Hh & Hc & Hp).
  assert (Hne : ∀ j i, moduleInsts (m_pModule self) !! j = Some i →
                       (∀ pCallee' ops, instOp i = Call pCallee' ops → ops !! 3%nat = None) →
                       j ≠ id).
  { intros j i Hj Hi ->. rewrite Hid in Hj. injection Hj as <-.
    specialize (Hi _ _ eq_refl). congruence. }
  exists pPc, pPcCast, pPcHigh.
  split; [|split; [|split]];
    (eapply texelOffsetPatched_other; [exact Hid| |done]);
    (eapply Hne; [done|]); simpl; intros ?? [=]; by subst.
Qed.

Section TexelOffsetScan.
Variables (gfxIp : GfxIpVersion) (c : InstId) (ty : Ty) (mangledName : string)
          (operandList : list Value) (meta : ShaderImageCallMetadata) (bits : N).
Hypothesis Hdistinct : EnumeratorsDistinct.
Hypothesis Hmajor : major gfxIp = 9.
Hypothesis Hprefix : startswith mangledName ImageCallPrefix = true.
Hypothesis Hmeta : decodeMetadata operandList = Some meta.
Hypothesis Hsel : OffsetErratumSelector meta.
Hypothesis Hzero : operandList !! 3%nat = Some (ConstantInt bits 0).

Lemma OffsetPatched_step self id self' :
  OffsetPatched (m_pModule self) c ty mangledName operandList →
  visitInst gfxIp self id = Some self' →
  OffsetPatched (m_pModule self') c ty mangledName operandList.
Proof using Hmajor Hzero.
  intros (p & Hc & Hp) Hv.
  assert (Hlen : (3 < length operandList)%nat) by (by eapply lookup_lt_Some).
  apply visitInst_cases in Hv as [[-> _]|[Ha|Hb]]; [by exists p| |].
  - destruct Ha as (? & ? & ? & ? & _ & _ & _ & _ & Hle & _). lia.
  - destruct Hb as (tyd & nm & ops & m' & b & v & Hid & _ & _ & _ & _ & _ & H3 & _ & ->).
    assert (id ≠ c) as Hne.
    { intros ->. rewrite Hc in Hid. injection Hid as _ _ <-.
      rewrite list_lookup_insert_eq in H3 by done. done. }
    exists p. split.
    + by eapply texelOffsetPatched_other.
    + by eapply NonConstantZeroAt_patch_other.
Qed.

Lemma OffsetState_step self id self' :
  OffsetState c ty mangledName operandList self →
  visitInst gfxIp self id = Some self' →
  OffsetState c ty mangledName operandList self'.
Proof using Hmajor Hzero.
  intros [Hc|Hp] Hv; [|right; by eapply OffsetPatched_step].
  apply visitInst_cases in Hv as [[-> _]|[Ha|Hb]]; [by left| |].
  - destruct Ha as (? & ? & ? & ? & _ & _ & _ & _ & Hle & _). lia.
  - destruct Hb as (tyd & nm & ops & m' & b & v & Hid & _ & _ & _ & _ & _ & H3 & _ & ->).
    destruct (decide (id = c)) as [->|Hne].
    + right. by apply texelOffsetPatched_OffsetPatched.
    + left. by eapply texelOffsetPatched_other.
Qed.

Lemma OffsetState_visit self self' :
  OffsetState c ty mangledName operandList self →
  visitInst gfxIp self c = Some self' →
  OffsetPatched (m_pModule self') c ty mangledName operandList.
Proof using Hdistinct Hmajor Hprefix Hmeta Hsel Hzero.
  intros [Hc|Hp] Hv; [|by eapply OffsetPatched_step].
  rewrite (visitInst_offset gfxIp _ _ _ _ _ _ Hdistinct Hc Hprefix Hmeta Hsel) in Hv.
  rewrite (patchTexelOffset_zero _ _ _ _ bits 0 Hmajor Hzero eq_refl) in Hv.
  injection Hv as <-. by apply texelOffsetPatched_OffsetPatched.
Qed.

Lemma visitInsts_OffsetPatched ids : ∀ self self',
  OffsetState c ty mangledName operandList self →
  visitInsts gfxIp self ids = Some self' →
  c ∈ ids →
  OffsetPatched (m_pModule self') c ty mangledName operandList.
Proof using Hdistinct Hmajor Hprefix Hmeta Hsel Hzero.
  induction ids as [|id ids IH]; simpl; intros self self' Hst Hv Hin.
  - by apply elem_of_nil in Hin.
  - destruct (visitInst gfxIp self id) as [s1|] eqn:H1; [|done]. simpl in Hv.
    apply elem_of_cons in Hin as [<-|Hin].
    + apply (visitInsts_invariant
               (λ s, OffsetPatched (m_pModule s) c ty mangledName operandList) gfxIp
               OffsetPatched_step ids s1 self'); [|done].
      by eapply OffsetState_visit.
    + eapply IH; [|done..]. by eapply OffsetState_step.
Qed.

Lemma visitStages_OffsetPatched entryPoints : ∀ self self' f,
  OffsetState c ty mangledName operandList self →
  visitStages gfxIp self entryPoints = Some self' →
  Some f ∈ entryPoints →
  HasInBody (m_pModule self) f c →
  OffsetPatched (m_pModule self') c ty mangledName operandList.
Proof using Hdistinct Hmajor Hprefix Hmeta Hsel Hzero.
  induction entryPoints as [|[g|] eps IH]; simpl; intros self self' f Hst Hv Hf Hbody.
  - by apply elem_of_nil in Hf.
  - destruct (visit gfxIp self g) as [s1|] eqn:H1; [|done]. simpl in Hv.
    assert (Hst1 : OffsetState c ty mangledName operandList s1).
    { unfold visit in H1. destruct (moduleFuncs (m_pModule self) !! g); [|congruence].
      by eapply (visitInsts_invariant _ gfxIp OffsetState_step). }
    apply elem_of_cons in Hf as [[= ->]|Hf].
    + apply (visitStages_invariant
               (λ s, OffsetPatched (m_pModule s) c ty mangledName operandList) gfxIp
               OffsetPatched_step eps s1 self'); [|done].
      destruct Hbody as (body & Hb & Hin). unfold visit in H1. rewrite Hb in H1.
      exact (visitInsts_OffsetPatched body self s1 Hst H1 Hin).
    + eapply (IH s1 self' f); [done..|].
      eapply HasInBody_grow; [|done]. by eapply visit_BodiesGrow.
  - apply elem_of_cons in Hf as [?|Hf]; [done|]. by eapply IH.
Qed.

End TexelOffsetScan.

(** C3: on generation 9, a recognized buffer fetch, read, write or atomic
    whose operand 3 is the integer constant zero gets, in place of that
    operand, the result of a logical shift right by 24 of the high 32-bit
    half of the program counter: four instructions are put immediately in
    front of the call, the value they compute is zero whenever the top eight
    bits of the program counter are, and nothing else changes: the call keeps
    its identity, callee and other operands, every other instruction is as
    it was, and nothing is scheduled for erasure. When the whole pass
    returns, a call of an entry point is in that state. *)
Theorem texel_offset_zero_made_non_constant :
  EnumeratorsDistinct →
  (∀ gfxIp self callInst ty mangledName operandList meta bits,
     moduleInsts (m_pModule self) !! callInst
       = Some {| instType := ty; instOp := Call (Some mangledName) operandList |} →
     startswith mangledName ImageCallPrefix = true →
     decodeMetadata operandList = Some meta →
     OffsetErratumSelector meta →
     major gfxIp = 9 →
     operandList !! 3%nat = Some (ConstantInt bits 0) →
     ∃ self' pPc pPcCast pPcHigh pTexelOffset,
       visitInst gfxIp self callInst = Some self' ∧
       NoDup [pPc; pPcCast; pPcHigh; pTexelOffset; callInst] ∧
       (∀ p, p ∈ [pPc; pPcCast; pPcHigh; pTexelOffset] →
             moduleInsts (m_pModule self) !! p = None) ∧
       moduleInsts (m_pModule self') =
         <[callInst := {| instType := ty;
                          instOp := Call (Some mangledName)
                                         (<[3%nat := InstResult pTexelOffset]> operandList) |}]>
         (<[pTexelOffset := {| instType := Int32Ty;
                               instOp := LShr (InstResult pPcHigh) (ConstantInt 32 24) |}]>
         (<[pPcHigh := {| instType := Int32Ty;
                          instOp := ExtractElementInst (InstResult pPcCast)
                                                       (ConstantInt 32 1) |}]>
         (<[pPcCast := {| instType := Int32x2Ty; instOp := BitCastInst (InstResult pPc) |}]>
         (<[pPc := {| instType := Int64Ty;
                      instOp := Call (Some "llvm.amdgcn.s.getpc") [] |}]>
            (moduleInsts (m_pModule self)))))) ∧
       (∀ f pre post,
          moduleFuncs (m_pModule self) !! f = Some (pre ++ callInst :: post) →
          callInst ∉ pre →
          moduleFuncs (m_pModule self') !! f
            = Some (pre ++ [pPc; pPcCast; pPcHigh; pTexelOffset] ++ callInst :: post)) ∧
       (∀ k, k ≠ 3%nat →
          (<[3%nat := InstResult pTexelOffset]> operandList) !! k = operandList !! k) ∧
       (<[3%nat := InstResult pTexelOffset]> operandList) !! 3%nat
         = Some (InstResult pTexelOffset) ∧
       (∀ j i, j ≠ callInst → moduleInsts (m_pModule self) !! j = Some i →
               moduleInsts (m_pModule self') !! j = Some i) ∧
       (∀ pc, 0 ≤ pc < 2 ^ 56 →
              evalValue 4 (m_pModule self') pc (InstResult pTexelOffset) = Some (RtInt 0)) ∧
       m_imageCalls self' = m_imageCalls self)
  ∧
  (∀ gfxIp entryPoints module module' flag f callInst ty mangledName operandList meta bits,
     runOnModule gfxIp entryPoints module = Some (module', flag) →
     Some f ∈ entryPoints →
     HasInBody module f callInst →
     moduleInsts module !! callInst
       = Some {| instType := ty; instOp := Call (Some mangledName) operandList |} →
     startswith mangledName ImageCallPrefix = true →
     decodeMetadata operandList = Some meta →
     OffsetErratumSelector meta →
     major gfxIp = 9 →
     operandList !! 3%nat = Some (ConstantInt bits 0) →
     ∃ pTexelOffset,
       moduleInsts module' !! callInst
         = Some {| instType := ty;
                   instOp := Call (Some mangledName)
                                  (<[3%nat := InstResult pTexelOffset]> operandList) |} ∧
       NonConstantZeroAt module' pTexelOffset ∧
       (∀ pc, 0 ≤ pc < 2 ^ 56 →
              evalValue 4 module' pc (InstResult pTexelOffset) = Some (RtInt 0)) ∧
       HasInBody module' f callInst).
Proof.
  intros Hd. split.
  - intros. by eapply visitInst_texel_offset_zero.
  - intros gfxIp entryPoints module module' flag f callInst ty mangledName operandList meta
           bits Hrun Hf Hbody Hc Hpre Hmeta Hsel H9 H3.
    unfold runOnModule in Hrun.
    destruct (visitStages gfxIp {| m_pModule := module; m_imageCalls := ∅ |} entryPoints)
      as [self1|] eqn:Hscan; [|done].
    simpl in Hrun. injection Hrun as <- <-.
    assert (Hgt : 8 < major gfxIp) by lia.
    pose proof (visitStages_no_replacement_from_9 _ _ _ _ Hgt Hscan) as Hpend.
    simpl in Hpend.
    unfold eraseImageCalls. rewrite Hpend, elements_empty. simpl.
    assert (Hst0 : OffsetState callInst ty mangledName operandList
                     {| m_pModule := module; m_imageCalls := ∅ |}) by (by left).
    destruct (visitStages_OffsetPatched gfxIp callInst ty mangledName operandList meta bits
                Hd H9 Hpre Hmeta Hsel H3 entryPoints _ _ f Hst0 Hscan Hf Hbody)
      as (p & Hcp & Hp).
    exists p. split; [done|]. split; [done|].
    split; [intros pc Hpc; by apply NonConstantZeroAt_eval|].
    eapply HasInBody_grow; [|done]. apply (visitStages_BodiesGrow _ _ _ _ Hscan).
Qed.

Lemma unselected_call_quiet gfxIp ty mangledName operandList meta :
  startswith mangledName ImageCallPrefix = true →
  decodeMetadata operandList = Some meta →
  ¬ SizeQuerySelector meta →
  ¬ OffsetErratumSelector meta →
  ∀ operandList', Redirected operandList operandList' →
                  QuietCall gfxIp ty (Some mangledName) operandList'.
Proof.
  intros Hpre Hmeta Ha Hb ops' Hred self c.
  apply isBufferSizeQuery_false in Ha. apply isBufferOffsetOp_false in Hb.
  unfold visitCallInst.
  rewrite Hpre, (Redirected_decodeMetadata _ _ _ Hred Hmeta). simpl.
  by rewrite Ha, Hb.
Qed.

Lemma offset_call_quiet gfxIp ty mangledName operandList meta :
  EnumeratorsDistinct →
  startswith mangledName ImageCallPrefix = true →
  decodeMetadata operandList = Some meta →
  OffsetErratumSelector meta →
  major gfxIp ≠ 9
  ∨ (∃ v, operandList !! 3%nat = Some v ∧ ∀ bits val, v ≠ ConstantInt bits val)
  ∨ (∃ bits val, operandList !! 3%nat = Some (ConstantInt bits val) ∧ val mod 2 ^ 32 ≠ 0) →
  ∀ operandList', Redirected operandList operandList' →
                  QuietCall gfxIp ty (Some mangledName) operandList'.
Proof.
  intros Hd Hpre Hmeta Hsel Hcase ops' Hred self c.
  unfold visitCallInst.
  rewrite Hpre, (Redirected_decodeMetadata _ _ _ Hred Hmeta). simpl.
  assert (isBufferSizeQuery meta = false) as ->.
  { apply isBufferSizeQuery_false. intros Ha. by apply (selectors_exclusive meta). }
  apply isBufferOffsetOp_spec in Hsel. rewrite Hsel.
  apply patchTexelOffset_keeps.
  destruct Hcase as [?|[(v & H3 & Hv)|(bits & val & H3 & Hnz)]]; [by left| |].
  - right; left.
    destruct (Redirected_lookup _ _ _ _ Hred H3) as (v' & H3' & [->|(a & b & -> & ->)]).
    + by exists v.
    + by exists (InstResult b).
  - right; right.
    destruct (Redirected_lookup _ _ _ _ Hred H3) as (v' & H3' & [->|(a & b & [=] & _)]).
    by exists bits, val.
Qed.

(** C4, as the code has it: a call that selects the texel offset rule is not
    touched by the visitor (no operand change, no replacement, no erasure)
    when the generation is not 9, or operand 3 is not an integer constant, or
    it is a constant whose value is not zero (the texel offset is a 32-bit
    unsigned integer); and after the whole pass such a call is still there
    with its callee and type, in the bodies it was in, its operands the same
    except that an operand which was the result of an instruction erased by
    the pass (a replaced buffer size query) is an instruction result again. *)
Theorem offset_rule_keeps_call :
  EnumeratorsDistinct →
  (∀ gfxIp self callInst ty mangledName operandList meta,
     moduleInsts (m_pModule self) !! callInst
       = Some {| instType := ty; instOp := Call (Some mangledName) operandList |} →
     startswith mangledName ImageCallPrefix = true →
     decodeMetadata operandList = Some meta →
     OffsetErratumSelector meta →
     major gfxIp ≠ 9
     ∨ (∃ v, operandList !! 3%nat = Some v ∧ ∀ bits val, v ≠ ConstantInt bits val)
     ∨ (∃ bits val, operandList !! 3%nat = Some (ConstantInt bits val) ∧
                    0 ≤ val < 2 ^ 32 ∧ val ≠ 0) →
     visitInst gfxIp self callInst = Some self)
  ∧
  (∀ gfxIp entryPoints module module' flag callInst ty mangledName operandList meta,
     runOnModule gfxIp entryPoints module = Some (module', flag) →
     moduleInsts module !! callInst
       = Some {| instType := ty; instOp := Call (Some mangledName) operandList |} →
     startswith mangledName ImageCallPrefix = true →
     decodeMetadata operandList = Some meta →
     OffsetErratumSelector meta →
     major gfxIp ≠ 9
     ∨ (∃ v, operandList !! 3%nat = Some v ∧ ∀ bits val, v ≠ ConstantInt bits val)
     ∨ (∃ bits val, operandList !! 3%nat = Some (ConstantInt bits val) ∧
                    0 ≤ val < 2 ^ 32 ∧ val ≠ 0) →
     KeptThroughPass module module' callInst ty (Some mangledName) operandList).
Proof.
  intros Hd.
  assert (Hread : ∀ gfxIp (operandList : list Value),
            major gfxIp ≠ 9
            ∨ (∃ v, operandList !! 3%nat = Some v ∧ ∀ bits val, v ≠ ConstantInt bits val)
            ∨ (∃ bits val, operandList !! 3%nat = Some (ConstantInt bits val) ∧
                           0 ≤ val < 2 ^ 32 ∧ val ≠ 0) →
            major gfxIp ≠ 9
            ∨ (∃ v, operandList !! 3%nat = Some v ∧ ∀ bits val, v ≠ ConstantInt bits val)
            ∨ (∃ bits val, operandList !! 3%nat = Some (ConstantInt bits val) ∧
                           val mod 2 ^ 32 ≠ 0)).
  { intros gfxIp operandList [?|[?|(bits & val & H3 & Hrange & Hnz)]]; [by left|by right; left|].
    right; right. exists bits, val. split; [done|]. by rewrite Z.mod_small. }
  split.
  - intros gfxIp self callInst ty mangledName operandList meta Hc Hpre Hmeta Hsel Hcase.
    eapply visitInst_offset_keeps; [done..|]. by apply Hread.
  - intros gfxIp entryPoints module module' flag callInst ty mangledName operandList meta
           Hrun Hc Hpre Hmeta Hsel Hcase.
    eapply quiet_call_through_pass; [|exact Hrun|exact Hc].
    eapply offset_call_quiet; [done..|]. by apply Hread.
Qed.

(** C10, as the code has it: a call with no statically known callee is left
    as it is by the visitor, whatever the hardware generation and the
    operands: the visitor returns before looking at it; and after the whole
    pass such a call is still there with its type, in the bodies it was in,
    its operands the same except that an operand which was the result of an
    instruction erased by the pass (a replaced buffer size query) is an
    instruction result again. *)
Theorem indirect_call_untouched :
  (∀ gfxIp self callInst ty operandList,
     moduleInsts (m_pModule self) !! callInst
       = Some {| instType := ty; instOp := Call None operandList |} →
     visitInst gfxIp self callInst = Some self)
  ∧
  (∀ gfxIp entryPoints module module' flag callInst ty operandList,
     runOnModule gfxIp entryPoints module = Some (module', flag) →
     moduleInsts module !! callInst
       = Some {| instType := ty; instOp := Call None operandList |} →
     KeptThroughPass module module' callInst ty None operandList).
Proof.
  split.
  - intros gfxIp self callInst ty operandList Hc.
    by rewrite (visitInst_call _ _ _ _ _ _ Hc).
  - intros gfxIp entryPoints module module' flag callInst ty operandList Hrun Hc.
    eapply quiet_call_through_pass; [|exact Hrun|exact Hc].
    by intros ops' _ self c.
Qed.

(** C6, as the code has it: for a recognized call whose metadata selects
    neither rule, on every hardware generation, the visitor returns with the
    module and the set of calls to erase unchanged; and after the whole pass
    the call is still there with its callee and type (so it was never
    scheduled for erasure), is in the bodies it was in, every remaining user
    of its result still uses it, and its operands are the same except that
    an operand which was the result of an instruction erased by the pass (a
    replaced buffer size query) is an instruction result again (the use
    redirection of the size query rule). *)
Theorem unselected_call_untouched :
  (∀ gfxIp self callInst ty mangledName operandList meta,
     moduleInsts (m_pModule self) !! callInst
       = Some {| instType := ty; instOp := Call (Some mangledName) operandList |} →
     startswith mangledName ImageCallPrefix = true →
     decodeMetadata operandList = Some meta →
     ¬ SizeQuerySelector meta →
     ¬ OffsetErratumSelector meta →
     visitInst gfxIp self callInst = Some self)
  ∧
  (∀ gfxIp entryPoints module module' flag callInst ty mangledName operandList meta,
     runOnModule gfxIp entryPoints module = Some (module', flag) →
     moduleInsts module !! callInst
       = Some {| instType := ty; instOp := Call (Some mangledName) operandList |} →
     startswith mangledName ImageCallPrefix = true →
     decodeMetadata operandList = Some meta →
     ¬ SizeQuerySelector meta →
     ¬ OffsetErratumSelector meta →
     KeptThroughPass module module' callInst ty (Some mangledName) operandList).
Proof.
  split.
  - apply visitInst_unselected.
  - intros gfxIp entryPoints module module' flag callInst ty mangledName operandList meta
           Hrun Hc Hpre Hmeta Ha Hb.
    eapply quiet_call_through_pass; [|exact Hrun|exact Hc].
    by eapply unselected_call_quiet.
Qed.

(** C7: no metadata value selects both rules, so at most one rule applies to
    a call, and a visitor that tries the two rules in the other order gives
    the same result on every call and state. *)
Theorem rules_exclusive_and_order_independent :
  EnumeratorsDistinct →
  (∀ meta, ¬ (SizeQuerySelector meta ∧ OffsetErratumSelector meta)) ∧
  (∀ meta, isBufferSizeQuery meta && isBufferOffsetOp meta = false) ∧
  (∀ gfxIp self callInst ty pCallee operandList,
     visitCallInstSwapped gfxIp self callInst ty pCallee operandList
     = visitCallInst gfxIp self callInst ty pCallee operandList).
Proof.
  intros Hd.
  assert (Hex : ∀ meta, ¬ (SizeQuerySelector meta ∧ OffsetErratumSelector meta)).
  { intros meta [Ha Hb]. by apply (selectors_exclusive meta). }
  assert (Hb : ∀ meta, isBufferSizeQuery meta && isBufferOffsetOp meta = false).
  { intros meta. apply not_true_is_false. rewrite andb_true_iff.
    rewrite isBufferSizeQuery_spec, isBufferOffsetOp_spec. apply Hex. }
  split; [done|]. split; [done|].
  intros gfxIp self callInst ty [mangledName|] operandList; [|done].
  unfold visitCallInstSwapped, visitCallInst.
  destruct (startswith mangledName ImageCallPrefix); [|done].
  destruct (decodeMetadata operandList) as [meta|]; [|done]. simpl.
  specialize (Hb meta).
  destruct (isBufferSizeQuery meta), (isBufferOffsetOp meta); done.
Qed.

(** C8: with at least two operands and an integer constant as the last one,
    the metadata read succeeds: the assertion and the cast of lines 113-115
    cannot fail, the result is the low 32 bits of that constant, of which
    [OpKind] and [Dim] are bit-fields; the visitor can then stop only at the
    read of operand 3 in the texel offset rule. *)
Theorem metadata_decoding_succeeds (operandList : list Value) (bits : N) (val : Z) :
  (2 ≤ length operandList)%nat →
  last operandList = Some (ConstantInt bits val) →
  decodeMetadata operandList = Some {| U32All := val mod 2 ^ 32 |} ∧
  (∀ meta, decodeMetadata operandList = Some meta →
     OpKind meta = Z.land (Z.shiftr (val mod 2 ^ 32) OpKindLsb) (Z.ones OpKindBits) ∧
     Dim meta = Z.land (Z.shiftr (val mod 2 ^ 32) DimLsb) (Z.ones DimBits)) ∧
  (∀ gfxIp self callInst ty pCallee,
     visitCallInst gfxIp self callInst ty pCallee operandList = None →
     isBufferOffsetOp {| U32All := val mod 2 ^ 32 |} = true ∧ major gfxIp = 9 ∧
     operandList !! 3%nat = None).
Proof.
  intros Hlen Hlast.
  assert (Hdec : decodeMetadata operandList = Some {| U32All := val mod 2 ^ 32 |}).
  { unfold decodeMetadata. rewrite decide_True by done.
    rewrite last_lookup in Hlast.
    replace (length operandList - 1)%nat with (pred (length operandList)) by lia.
    rewrite Hlast. do 2 f_equal. unfold toU32, getZExtValue.
    apply Z.mod_mod_divide. exists (2 ^ 32). lia. }
  split; [done|].
  split; [intros meta Hm; rewrite Hdec in Hm; by injection Hm as <-|].
  intros gfxIp self callInst ty [mangledName|] Hv; [|done].
  unfold visitCallInst in Hv.
  destruct (startswith mangledName ImageCallPrefix); [|done].
  rewrite Hdec in Hv. simpl in Hv.
  destruct (isBufferSizeQuery _); [done|].
  destruct (isBufferOffsetOp _); [|done].
  unfold patchTexelOffset in Hv.
  destruct (Z.eqb_spec (major gfxIp) 9); [|done].
  destruct (operandList !! 3%nat) as [[]|]; try done.
  destruct (_ =? _); [|done].
  by destruct (emitNonConstantZero _ _).
Qed.

(** C9: the read of operand 3 in the texel offset rule is guarded by nothing
    but the two-operand assertion: for a recognized call that selects the
    rule on generation 9, whose metadata was read without failure (so it has
    at least two operands), the visitor fails exactly when the call has fewer
    than four operands. *)
Theorem texel_offset_read_needs_four_operands
    gfxIp self callInst ty mangledName operandList meta :
  EnumeratorsDistinct →
  moduleInsts (m_pModule self) !! callInst
    = Some {| instType := ty; instOp := Call (Some mangledName) operandList |} →
  startswith mangledName ImageCallPrefix = true →
  decodeMetadata operandList = Some meta →
  OffsetErratumSelector meta →
  major gfxIp = 9 →
  (2 ≤ length operandList)%nat ∧
  (visitInst gfxIp self callInst = None ↔ (length operandList < 4)%nat).
Proof.
  intros Hd Hc Hpre Hmeta Hsel H9.
  split.
  { unfold decodeMetadata in Hmeta. by case_decide. }
  rewrite (visitInst_offset gfxIp _ _ _ _ _ _ Hd Hc Hpre Hmeta Hsel).
  unfold patchTexelOffset.
  destruct (Z.eqb_spec (major gfxIp) 9); [|done].
  destruct (operandList !! 3%nat) as [v|] eqn:H3.
  - apply lookup_lt_Some in H3. split; [|lia].
    destruct v; try done. destruct (_ =? _); [|done].
    by destruct (emitNonConstantZero _ _).
  - apply lookup_ge_None in H3. split; [lia|done].
Qed.


(** *** A second run on the output (generation 9 and above) *)

Lemma QuietStep_refl gfxIp self : QuietStep gfxIp self self.
Proof. split; [done|]. split; [done|]. intros f body Hf. exists body. auto. Qed.

Lemma QuietStep_trans gfxIp s1 s2 s3 :
  QuietStep gfxIp s1 s2 → QuietStep gfxIp s2 s3 → QuietStep gfxIp s1 s3.
Proof.
  intros (Hq12 & Hp12 & Hb12) (Hq23 & Hp23 & Hb23).
  split; [auto|]. split; [congruence|].
  intros f body3 Hf3.
  destruct (Hb23 _ _ Hf3) as (body2 & Hf2 & H32).
  destruct (Hb12 _ _ Hf2) as (body1 & Hf1 & H21).
  exists body1. split; [done|]. intros x Hx.
  destruct (H32 x Hx) as [Hx2|?]; [|by right].
  destruct (H21 x Hx2) as [?|?]; [by left|right; auto].
Qed.

Section SecondRun.
Variable gfxIp : GfxIpVersion.
Hypothesis HgetpcName : startswith "llvm.amdgcn.s.getpc" ImageCallPrefix = false.
Hypothesis HzeroMeta : isBufferOffsetOp {| U32All := 0 |} = false.

Lemma patched_call_quiet ty mangledName operandList meta bits val pTexelOffset :
  startswith mangledName ImageCallPrefix = true →
  decodeMetadata operandList = Some meta →
  isBufferSizeQuery meta = false →
  isBufferOffsetOp meta = true →
  major gfxIp = 9 →
  operandList !! 3%nat = Some (ConstantInt bits val) →
  toU32 (getZExtValue val) = 0 →
  QuietCall gfxIp ty (Some mangledName) (<[3%nat := InstResult pTexelOffset]> operandList).
Proof using HzeroMeta.
  intros Hpre Hmeta Ha Hb H9 H3 Hz self callInst.
  assert (Hlen : (3 < length operandList)%nat) by (by eapply lookup_lt_Some).
  assert (Hdec : decodeMetadata (<[3%nat := InstResult pTexelOffset]> operandList) = Some meta).
  { unfold decodeMetadata in *. rewrite length_insert.
    destruct (decide (2 ≤ length operandList)%nat); [|done].
    destruct (decide (length operandList - 1 = 3)%nat) as [E|E].
    - rewrite E, H3 in Hmeta. injection Hmeta as <-.
      rewrite Hz in Hb. congruence.
    - by rewrite list_lookup_insert_ne. }
  unfold visitCallInst. rewrite Hpre, Hdec. simpl. rewrite Ha, Hb.
  unfold patchTexelOffset.
  destruct (Z.eqb_spec (major gfxIp) 9); [|done].
  by rewrite list_lookup_insert_eq.
Qed.

Lemma getpc_call_quiet : QuietCall gfxIp Int64Ty (Some "llvm.amdgcn.s.getpc") [].
Proof using HgetpcName.
  intros self callInst. unfold visitCallInst. by rewrite HgetpcName.
Qed.

Lemma visitInst_QuietStep self id self' :
  8 < major gfxIp →
  visitInst gfxIp self id = Some self' →
  QuietStep gfxIp self self' ∧ QuietAt gfxIp self' id.
Proof using HgetpcName HzeroMeta.
  intros Hgt Hv. apply visitInst_cases in Hv as [[-> Hq]|[Ha|Hb]].
  - split; [apply QuietStep_refl|done].
  - destruct Ha as (? & ? & ? & ? & _ & _ & _ & _ & Hle & _). lia.
  - destruct Hb as (ty & nm & ops & meta & bits & val & Hc & Hpre & Hmeta & Ha & Hb & H9 & H3 & Hz & ->).
    pose proof (emitted_ids_distinct _ _ _ _ _ Hc) as Hids.
    pose proof (texelOffsetPatched_insts _ _ _ _ _ Hc) as Hst.
    pose proof (emitNonConstantZero_result (m_pModule self) id) as Hemit.
    cbv zeta in Hids, Hst, Hemit.
    set (pPc := fresh (dom (moduleInsts (m_pModule self)))) in *.
    set (s1 := <[pPc := _]> (moduleInsts (m_pModule self))) in *.
    set (pPcCast := fresh (dom s1)) in *.
    set (s2 := <[pPcCast := _]> s1) in *.
    set (pPcHigh := fresh (dom s2)) in *.
    set (s3 := <[pPcHigh := _]> s2) in *.
    set (pTexelOffset := fresh (dom s3)) in *.
    destruct Hids as (Hnd & Hn1 & Hn2 & Hn3 & Hn4).
    assert (Hlook : ∀ x i,
              moduleInsts (m_pModule (texelOffsetPatched self id)) !! x = Some i →
              QuietInst gfxIp i ∨ (moduleInsts (m_pModule self) !! x = Some i)).
    { intros x i. unfold texelOffsetPatched. cbn [m_pModule]. rewrite Hst.
      unfold s3, s2, s1. rewrite !lookup_insert.
      repeat case_decide; intros Hx; try (injection Hx as <-; left); try (by right).
      - by eapply patched_call_quiet.
      - exact I.
      - exact I.
      - exact I.
      - apply getpc_call_quiet. }
    assert (Hquiet : ∀ x, (QuietAt gfxIp self x ∨ moduleInsts (m_pModule self) !! x = None) →
                          QuietAt gfxIp (texelOffsetPatched self id) x).
    { intros x Hx i Hi. destruct (Hlook x i Hi) as [?|Hold]; [done|].
      destruct Hx as [Hq|Hnone]; [by apply Hq|congruence]. }
    split; [split; [|split]|].
    + intros x Hx. apply Hquiet. by left.
    + done.
    + intros f body' Hf. unfold texelOffsetPatched in Hf.
      cbn [m_pModule moduleFuncs setArgOperand] in Hf. rewrite Hemit in Hf.
      cbn [fst moduleFuncs] in Hf. rewrite !list_lookup_fmap in Hf.
      destruct (moduleFuncs (m_pModule self) !! f) as [body|]; [|done].
      simpl in Hf. injection Hf as <-. exists body. split; [done|].
      intros x. rewrite !elem_of_insertBefore.
      intros Hx.
      assert (x ∈ body ∨ x = pPc ∨ x = pPcCast ∨ x = pPcHigh ∨ x = pTexelOffset)
        as [?|Hnew] by tauto; [by left|].
      right. apply Hquiet. right. destruct Hnew as [-> | [-> | [-> | ->] ] ]; done.
    + intros i Hi. destruct (Hlook id i Hi) as [?|Hold]; [done|].
      rewrite Hc in Hold. injection Hold as <-.
      revert Hi. unfold texelOffsetPatched. cbn [m_pModule]. rewrite Hst.
      rewrite lookup_insert_eq. intros [= <-]. by eapply patched_call_quiet.
Qed.

Lemma visitInsts_QuietStep ids : ∀ self self',
  8 < major gfxIp →
  visitInsts gfxIp self ids = Some self' →
  QuietStep gfxIp self self' ∧ ∀ x, x ∈ ids → QuietAt gfxIp self' x.
Proof using HgetpcName HzeroMeta.
  induction ids as [|id ids IH]; simpl; intros self self' Hgt Hv.
  - injection Hv as <-. split; [apply QuietStep_refl|]. by intros x ?%elem_of_nil.
  - destruct (visitInst gfxIp self id) as [s1|] eqn:H1; [|done]. simpl in Hv.
    destruct (visitInst_QuietStep _ _ _ Hgt H1) as [Hs1 Hq1].
    destruct (IH _ _ Hgt Hv) as [Hs2 Hq2].
    split; [by eapply QuietStep_trans|].
    intros x [->|Hx]%elem_of_cons; [|auto].
    by apply Hs2.
Qed.

Lemma AllQuiet_step self self' g :
  QuietStep gfxIp self self' → AllQuiet gfxIp self g → AllQuiet gfxIp self' g.
Proof.
  intros (Hq & _ & Hb) Hg body' Hf x Hx.
  destruct (Hb _ _ Hf) as (body & Hf0 & Hor).
  destruct (Hor x Hx) as [Hin|?]; [|done]. apply Hq. by eapply Hg.
Qed.

Lemma visit_QuietStep self f self' :
  8 < major gfxIp →
  visit gfxIp self f = Some self' →
  QuietStep gfxIp self self' ∧ AllQuiet gfxIp self' f.
Proof using HgetpcName HzeroMeta.
  intros Hgt Hv. unfold visit in Hv.
  destruct (moduleFuncs (m_pModule self) !! f) as [body|] eqn:Hf.
  - destruct (visitInsts_QuietStep _ _ _ Hgt Hv) as [Hs Hq]. split; [done|].
    intros body' Hf' x Hx. destruct Hs as (_ & _ & Hb).
    destruct (Hb _ _ Hf') as (body0 & Hf0 & Hor).
    rewrite Hf in Hf0. injection Hf0 as <-.
    destruct (Hor x Hx); auto.
  - injection Hv as <-. split; [apply QuietStep_refl|].
    intros body Hf'. congruence.
Qed.

Lemma visitStages_QuietStep entryPoints : ∀ self self',
  8 < major gfxIp →
  visitStages gfxIp self entryPoints = Some self' →
  QuietStep gfxIp self self' ∧ ∀ f, Some f ∈ entryPoints → AllQuiet gfxIp self' f.
Proof using HgetpcName HzeroMeta.
  induction entryPoints as [|[f|] eps IH]; simpl; intros self self' Hgt Hv.
  - injection Hv as <-. split; [apply QuietStep_refl|]. by intros f ?%elem_of_nil.
  - destruct (visit gfxIp self f) as [s1|] eqn:H1; [|done]. simpl in Hv.
    destruct (visit_QuietStep _ _ _ Hgt H1) as [Hs1 Hq1].
    destruct (IH _ _ Hgt Hv) as [Hs2 Hq2].
    split; [by eapply QuietStep_trans|].
    intros g [[= ->]|Hg]%elem_of_cons; [|auto].
    by eapply AllQuiet_step.
  - destruct (IH _ _ Hgt Hv) as [Hs Hq]. split; [done|].
    intros g [?|Hg]%elem_of_cons; [done|auto].
Qed.

End SecondRun.

Lemma visitInsts_all_quiet gfxIp self ids :
  (∀ x, x ∈ ids → QuietAt gfxIp self x) → visitInsts gfxIp self ids = Some self.
Proof.
  induction ids as [|id ids IH]; simpl; intros Hq; [done|].
  rewrite visitInst_quiet by (apply Hq; left). simpl.
  apply IH. intros x Hx. apply Hq. by right.
Qed.

Lemma visitStages_all_quiet gfxIp self entryPoints :
  (∀ f, Some f ∈ entryPoints → AllQuiet gfxIp self f) →
  visitStages gfxIp self entryPoints = Some self.
Proof.
  induction entryPoints as [|[f|] eps IH]; simpl; intros Hq; [done| |].
  - assert (visit gfxIp self f = Some self) as ->.
    { unfold visit.
      destruct (moduleFuncs (m_pModule self) !! f) as [body|] eqn:Hf; [|done].
      apply visitInsts_all_quiet. intros x Hx. eapply (Hq f); [left|done..]. }
    simpl. apply IH. intros g Hg. apply Hq. by right.
  - apply IH. intros g Hg. apply Hq. by right.
Qed.

(** *** A run that replaces no call (generations other than 9) changes nothing *)

Lemma visitInst_same_or_scheduled gfxIp self id self' :
  major gfxIp ≠ 9 →
  visitInst gfxIp self id = Some self' →
  self' = self ∨ id ∈ m_imageCalls self'.
Proof.
  intros Hn9 Hv. apply visitInst_cases in Hv as [[-> _]|[Ha|Hb]]; [by left| |].
  - destruct Ha as (ty & nm & ops & meta & _ & _ & _ & _ & Hle & ->).
    right. rewrite patchBufferSizeQuery_le8 by done. simpl. set_solver.
  - destruct Hb as (? & ? & ? & ? & ? & ? & _ & _ & _ & _ & _ & H9 & _). done.
Qed.

Lemma visitInsts_nothing_scheduled gfxIp ids : ∀ self self',
  major gfxIp ≠ 9 →
  visitInsts gfxIp self ids = Some self' →
  m_imageCalls self' = ∅ → self' = self.
Proof.
  induction ids as [|id ids IH]; simpl; intros self self' Hn9 Hv Hemp.
  - by injection Hv as <-.
  - destruct (visitInst gfxIp self id) as [s1|] eqn:H1; [|done]. simpl in Hv.
    pose proof (IH _ _ Hn9 Hv Hemp) as ->.
    destruct (visitInst_same_or_scheduled _ _ _ _ Hn9 H1) as [?|Hin]; [done|].
    rewrite Hemp in Hin. by apply not_elem_of_empty in Hin.
Qed.

Lemma visitStages_nothing_scheduled gfxIp entryPoints : ∀ self self',
  major gfxIp ≠ 9 →
  visitStages gfxIp self entryPoints = Some self' →
  m_imageCalls self' = ∅ → self' = self.
Proof.
  induction entryPoints as [|[f|] eps IH]; simpl; intros self self' Hn9 Hv Hemp.
  - by injection Hv as <-.
  - destruct (visit gfxIp self f) as [s1|] eqn:H1; [|done]. simpl in Hv.
    pose proof (IH _ _ Hn9 Hv Hemp) as ->.
    unfold visit in H1.
    destruct (moduleFuncs (m_pModule self) !! f); [|congruence].
    by eapply visitInsts_nothing_scheduled.
  - by apply IH.
Qed.

(** C5, as the code has it: a second run over the output of a run changes
    nothing whenever the first run replaced no call, which is always so from
    generation 9 on; there the operand synthesized by the texel offset rule
    is not a constant, so the rule's guard fails on it. The declarations are
    taken such that the image-call prefix does not start the name of the
    program-counter intrinsic and an all-zero metadata word does not select
    the texel offset rule; otherwise the second run would stop on the emitted
    call, or on a call whose metadata operand was the patched operand 3. *)
Theorem second_run_is_noop_without_replacement
    gfxIp entryPoints module module' flag :
  startswith "llvm.amdgcn.s.getpc" ImageCallPrefix = false →
  isBufferOffsetOp {| U32All := 0 |} = false →
  runOnModule gfxIp entryPoints module = Some (module', flag) →
  9 ≤ major gfxIp
  ∨ (∃ self', visitStages gfxIp {| m_pModule := module; m_imageCalls := ∅ |} entryPoints
                = Some self' ∧ m_imageCalls self' = ∅) →
  runOnModule gfxIp entryPoints module' = Some (module', true).
Proof.
  intros Hname Hzero Hrun Hcase. unfold runOnModule in *.
  destruct (visitStages gfxIp {| m_pModule := module; m_imageCalls := ∅ |} entryPoints)
    as [self1|] eqn:Hscan; [|done].
  simpl in Hrun. injection Hrun as <- <-.
  destruct (decide (8 < major gfxIp)) as [Hgt|Hle].
  - destruct (visitStages_QuietStep gfxIp Hname Hzero _ _ _ Hgt Hscan)
      as [(_ & Hpend & _) Hq].
    simpl in Hpend. unfold eraseImageCalls. rewrite Hpend, elements_empty. simpl.
    assert (self1 = {| m_pModule := m_pModule self1; m_imageCalls := ∅ |}) as E.
    { destruct self1; simpl in *; by subst. }
    rewrite <- E, (visitStages_all_quiet gfxIp self1 entryPoints Hq). simpl.
    by rewrite Hpend, elements_empty.
  - destruct Hcase as [?|(self' & [= <-] & Hemp)]; [lia|].
    assert (Hn9 : major gfxIp ≠ 9) by lia.
    rewrite (visitStages_nothing_scheduled _ _ _ _ Hn9 Hscan Hemp). simpl.
    rewrite elements_empty. simpl.
    rewrite (visitStages_nothing_scheduled _ _ _ _ Hn9 Hscan Hemp) in Hscan.
    rewrite Hscan. simpl. by rewrite elements_empty.
Qed.

(** ** Further properties of the visitor and of the pass *)

(** *** The store and the bodies after each of the two rewrites *)

Lemma patchBufferSizeQuery_store gfxIp self id ty mangledName operandList :
  major gfxIp ≤ 8 →
  ∃ pImageCall callName,
    moduleInsts (m_pModule self) !! pImageCall = None ∧
    callName = mangledName +:+ (if major gfxIp =? 8 then ".gfx8" else ".gfx6") ∧
    (∀ j, moduleInsts (m_pModule (patchBufferSizeQuery gfxIp self id ty mangledName
                                    operandList)) !! j
          = if decide (pImageCall = j)
            then Some {| instType := ty;
                         instOp := Call (Some callName)
                                        (substValue id pImageCall <$> operandList) |}
            else substInst id pImageCall <$> moduleInsts (m_pModule self) !! j) ∧
    moduleFuncs (m_pModule (patchBufferSizeQuery gfxIp self id ty mangledName operandList))
      = insertBefore id pImageCall <$> moduleFuncs (m_pModule self) ∧
    m_imageCalls (patchBufferSizeQuery gfxIp self id ty mangledName operandList)
      = {[id]} ∪ m_imageCalls self.
Proof.
  intros Hle. rewrite patchBufferSizeQuery_le8 by done.
  eexists _, _. split; [apply fresh_inst_None|]. split; [done|].
  split; [|done]. intros j. simpl. rewrite lookup_fmap, lookup_insert.
  by case_decide.
Qed.

Lemma texelOffsetPatched_store self id ty pCallee operandList :
  moduleInsts (m_pModule self) !! id
    = Some {| instType := ty; instOp := Call pCallee operandList |} →
  ∃ pPc pPcCast pPcHigh pTexelOffset,
    NoDup [pPc; pPcCast; pPcHigh; pTexelOffset; id] ∧
    moduleInsts (m_pModule self) !! pPc = None ∧
    moduleInsts (m_pModule self) !! pPcCast = None ∧
    moduleInsts (m_pModule self) !! pPcHigh = None ∧
    moduleInsts (m_pModule self) !! pTexelOffset = None ∧
    moduleInsts (m_pModule (texelOffsetPatched self id)) =
      <[id := {| instType := ty;
                 instOp := Call pCallee (<[3%nat := InstResult pTexelOffset]> operandList) |}]>
      (<[pTexelOffset := {| instType := Int32Ty;
                            instOp := LShr (InstResult pPcHigh) (ConstantInt 32 24) |}]>
      (<[pPcHigh := {| instType := Int32Ty;
                       instOp := ExtractElementInst (InstResult pPcCast)
                                                    (ConstantInt 32 1) |}]>
      (<[pPcCast := {| instType := Int32x2Ty; instOp := BitCastInst (InstResult pPc) |}]>
      (<[pPc := {| instType := Int64Ty;
                   instOp := Call (Some "llvm.amdgcn.s.getpc") [] |}]>
         (moduleInsts (m_pModule self)))))) ∧
    moduleFuncs (m_pModule (texelOffsetPatched self id)) =
      insertBefore id pTexelOffset <$>
        (insertBefore id pPcHigh <$>
           (insertBefore id pPcCast <$>
              (insertBefore id pPc <$> moduleFuncs (m_pModule self)))) ∧
    m_imageCalls (texelOffsetPatched self id) = m_imageCalls self.
Proof.
  intros Hc.
  pose proof (emitted_ids_distinct _ _ _ _ _ Hc) as (Hnd & H1 & H2 & H3 & H4).
  pose proof (texelOffsetPatched_insts _ _ _ _ _ Hc) as Hst.
  pose proof (emitNonConstantZero_result (m_pModule self) id) as Hemit.
  cbv zeta in Hnd, H1, H2, H3, H4, Hst, Hemit.
  eexists _, _, _, _. split; [exact Hnd|].
  split; [exact H1|]. split; [exact H2|]. split; [exact H3|]. split; [exact H4|].
  split; [exact Hst|]. split; [|done].
  unfold texelOffsetPatched. cbn [m_pModule moduleFuncs setArgOperand].
  by rewrite Hemit.
Qed.


(** *** When the visitor stops *)

Lemma decodeMetadata_None operandList :
  decodeMetadata operandList = None ↔
  (length operandList < 2)%nat ∨ ∀ bits val, last operandList ≠ Some (ConstantInt bits val).
Proof.
  unfold decodeMetadata. rewrite last_lookup.
  replace (length operandList - 1)%nat with (pred (length operandList)) by lia.
  case_decide; [|split; [left; lia|done]].
  destruct (operandList !! pred (length operandList)) as [[]|]; naive_solver lia.
Qed.

Lemma patchTexelOffset_None gfxIp self callInst operandList :
  patchTexelOffset gfxIp self callInst operandList = None ↔
  major gfxIp = 9 ∧ (length operandList < 4)%nat.
Proof.
  unfold patchTexelOffset.
  destruct (Z.eqb_spec (major gfxIp) 9) as [H9|Hn9]; [|naive_solver].
  destruct (operandList !! 3%nat) as [v|] eqn:H3.
  - apply lookup_lt_Some in H3. split; [|lia].
    destruct v; try done. destruct (_ =? _); [|done].
    by destruct (emitNonConstantZero _ _).
  - apply lookup_ge_None in H3. split; [lia|done].
Qed.

(** X1: the visitor stops (an assertion or a cast fails, or operand 3 is
    read out of range) on exactly these calls: the callee is known and its
    name starts with the image-call prefix, and the call has fewer than two
    operands, or its last operand is not an integer constant, or its
    metadata selects the texel offset rule and not the size query rule, the
    generation is 9 and the call has fewer than four operands. A recognized
    call without readable metadata stops the visitor on every generation,
    also where the visitor would change nothing. *)
Theorem visitor_stops_exactly_on_malformed_image_call
    gfxIp self callInst ty pCallee operandList :
  visitCallInst gfxIp self callInst ty pCallee operandList = None ↔
  ∃ mangledName,
    pCallee = Some mangledName ∧
    startswith mangledName ImageCallPrefix = true ∧
    ((length operandList < 2)%nat
     ∨ (∀ bits val, last operandList ≠ Some (ConstantInt bits val))
     ∨ (∃ meta, decodeMetadata operandList = Some meta ∧
                isBufferSizeQuery meta = false ∧ isBufferOffsetOp meta = true ∧
                major gfxIp = 9 ∧ (length operandList < 4)%nat)).
Proof.
  unfold visitCallInst.
  destruct pCallee as [mangledName|]; [|split; [done|by intros (? & [=] & _)]].
  destruct (startswith mangledName ImageCallPrefix) eqn:Hpre;
    [|split; [done|intros (? & [= <-] & ? & _); congruence]].
  destruct (decodeMetadata operandList) as [meta|] eqn:Hmeta; simpl.
  - assert (Hdec : ¬ ((length operandList < 2)%nat
                      ∨ ∀ bits val, last operandList ≠ Some (ConstantInt bits val))).
    { rewrite <- decodeMetadata_None. congruence. }
    destruct (isBufferSizeQuery meta) eqn:Ha.
    { split; [done|]. intros (? & _ & _ & [?|[?|(m' & [= <-] & ? & _)]]); [tauto..|congruence]. }
    destruct (isBufferOffsetOp meta) eqn:Hb.
    2:{ split; [done|].
        intros (? & _ & _ & [?|[?|(m' & [= <-] & _ & ? & _)]]); [tauto..|congruence]. }
    rewrite patchTexelOffset_None. split.
    + intros [H9 Hlen]. exists mangledName. split; [done|]. split; [done|].
      right; right. by exists meta.
    + intros (nm & _ & _ & [?|[?|(m' & _ & _ & _ & H9 & Hlen)]]); tauto.
  - apply decodeMetadata_None in Hmeta. split; [|done]. intros _.
    exists mangledName. split; [done|]. split; [done|]. tauto.
Qed.

(** *** Hardware generations the pass tells apart *)

Lemma visitCallInst_sameGeneration g1 g2 self callInst ty pCallee operandList :
  sameGeneration g1 g2 →
  visitCallInst g1 self callInst ty pCallee operandList
  = visitCallInst g2 self callInst ty pCallee operandList.
Proof.
  intros Hg.
  assert ((major g1 <=? 8) = (major g2 <=? 8) ∧ (major g1 =? 8) = (major g2 =? 8) ∧
          (major g1 =? 9) = (major g2 =? 9)) as (E1 & E2 & E3).
  { unfold sameGeneration in Hg.
    destruct (Z.leb_spec (major g1) 8), (Z.leb_spec (major g2) 8),
             (Z.eqb_spec (major g1) 8), (Z.eqb_spec (major g2) 8),
             (Z.eqb_spec (major g1) 9), (Z.eqb_spec (major g2) 9);
      try lia; done. }
  unfold visitCallInst, patchBufferSizeQuery, patchTexelOffset.
  by rewrite E1, E2, E3.
Qed.

Lemma visitInsts_sameGeneration g1 g2 ids :
  sameGeneration g1 g2 → ∀ self, visitInsts g1 self ids = visitInsts g2 self ids.
Proof.
  intros Hg. induction ids as [|id ids IH]; intros self; simpl; [done|].
  assert (visitInst g1 self id = visitInst g2 self id) as ->.
  { unfold visitInst.
    destruct (moduleInsts (m_pModule self) !! id) as [[ty []]|]; try done.
    by apply visitCallInst_sameGeneration. }
  destruct (visitInst g2 self id); simpl; [apply IH|done].
Qed.

Lemma visitStages_sameGeneration g1 g2 entryPoints :
  sameGeneration g1 g2 →
  ∀ self, visitStages g1 self entryPoints = visitStages g2 self entryPoints.
Proof.
  intros Hg. induction entryPoints as [|[f|] eps IH]; intros self; simpl; [done| |apply IH].
  assert (visit g1 self f = visit g2 self f) as ->.
  { unfold visit. destruct (moduleFuncs (m_pModule self) !! f); [|done].
    by apply visitInsts_sameGeneration. }
  destruct (visit g2 self f); simpl; [apply IH|done].
Qed.

(** X2: of the hardware version the pass looks at nothing but the class of
    the major number: up to 7, 8, 9, and 10 and above. Two versions of the
    same class give the same result on every module, whatever their minor
    number and stepping. *)
Theorem result_depends_on_generation_class g1 g2 entryPoints module :
  sameGeneration g1 g2 →
  runOnModule g1 entryPoints module = runOnModule g2 entryPoints module.
Proof.
  intros Hg. unfold runOnModule. by rewrite (visitStages_sameGeneration g1 g2).
Qed.

(** *** Generations above 9 *)

(** X3: on generations above 9 the pass changes nothing: if [runOnModule]
    returns, it returns the module it was given and still reports a change;
    and it does return whenever the metadata of every recognized call can be
    read. *)
Theorem pass_changes_nothing_above_generation_9 gfxIp entryPoints module :
  10 ≤ major gfxIp →
  (∀ module' flag, runOnModule gfxIp entryPoints module = Some (module', flag) →
                   module' = module ∧ flag = true) ∧
  ((∀ id ty mangledName operandList,
      moduleInsts module !! id
        = Some {| instType := ty; instOp := Call (Some mangledName) operandList |} →
      startswith mangledName ImageCallPrefix = true →
      is_Some (decodeMetadata operandList)) →
   runOnModule gfxIp entryPoints module = Some (module, true)).
Proof.
  intros Hge. split.
  - intros module' flag Hrun. unfold runOnModule in Hrun.
    destruct (visitStages gfxIp {| m_pModule := module; m_imageCalls := ∅ |} entryPoints)
      as [self1|] eqn:Hscan; [|done].
    simpl in Hrun. injection Hrun as <- <-.
    assert (Hpend : m_imageCalls self1 = ∅).
    { by rewrite (visitStages_no_replacement_from_9 gfxIp entryPoints _ _ ltac:(lia) Hscan). }
    rewrite (visitStages_nothing_scheduled gfxIp entryPoints _ _ ltac:(lia) Hscan Hpend).
    simpl. by rewrite elements_empty.
  - intros Hwf. unfold runOnModule.
    rewrite visitStages_all_quiet; [simpl; by rewrite elements_empty|].
    intros f _ body _ x _ [ty op] Hx. simpl in Hx.
    destruct op as [[mangledName|] operandList| | | |]; try exact I; intros self c;
      unfold visitCallInst; [|done].
    destruct (startswith mangledName ImageCallPrefix) eqn:Hpre; [|done].
    destruct (Hwf _ _ _ _ Hx Hpre) as [meta ->]. simpl.
    rewrite patchBufferSizeQuery_gt8 by lia.
    unfold patchTexelOffset. destruct (Z.eqb_spec (major gfxIp) 9); [lia|].
    by destruct (isBufferSizeQuery meta), (isBufferOffsetOp meta).
Qed.

(** *** Nothing is destroyed before the final loop *)

Lemma visitInst_store_grows gfxIp self id self' :
  visitInst gfxIp self id = Some self' →
  (∀ j, is_Some (moduleInsts (m_pModule self) !! j) →
        is_Some (moduleInsts (m_pModule self') !! j)) ∧
  (∀ c, c ∈ m_imageCalls self' →
        c ∈ m_imageCalls self ∨ is_Some (moduleInsts (m_pModule self) !! c)).
Proof.
  intros Hv. apply visitInst_cases in Hv as [[-> _]|[Ha|Hb]]; [by auto| |].
  - destruct Ha as (ty & nm & ops & meta & Hid & _ & _ & _ & Hle & ->).
    destruct (patchBufferSizeQuery_store gfxIp self id ty nm ops Hle)
      as (new & callName & Hnew & _ & Hst & _ & Hpend).
    split.
    + intros j [i Hj]. rewrite Hst. case_decide; [by eexists|]. rewrite Hj. by eexists.
    + intros c. rewrite Hpend, elem_of_union, elem_of_singleton.
      intros [->|?]; [right; by eexists|by left].
  - destruct Hb as (ty & nm & ops & meta & bits & val & Hid & _ & _ & _ & _ & _ & _ & _ & ->).
    destruct (texelOffsetPatched_store self id ty (Some nm) ops Hid)
      as (p1 & p2 & p3 & p4 & _ & _ & _ & _ & _ & Hst & _ & Hpend).
    split; [|intros c; rewrite Hpend; by left].
    intros j [i Hj]. rewrite Hst, !lookup_insert.
    repeat case_decide; try by eexists.
Qed.

Lemma visitStages_store_grows gfxIp entryPoints self self' :
  visitStages gfxIp self entryPoints = Some self' →
  m_imageCalls self ⊆ dom (moduleInsts (m_pModule self)) →
  dom (moduleInsts (m_pModule self)) ⊆ dom (moduleInsts (m_pModule self')) ∧
  m_imageCalls self' ⊆ dom (moduleInsts (m_pModule self')).
Proof.
  intros Hscan Hlive.
  apply (visitStages_invariant
           (λ s, dom (moduleInsts (m_pModule self)) ⊆ dom (moduleInsts (m_pModule s)) ∧
                 m_imageCalls s ⊆ dom (moduleInsts (m_pModule s))) gfxIp)
    with (entryPoints := entryPoints) (self := self); [|done|done].
  intros s id s' [Hdom Hpend] Hv.
  destruct (visitInst_store_grows _ _ _ _ Hv) as [Hgrow Hsched].
  assert (Hsub : dom (moduleInsts (m_pModule s)) ⊆ dom (moduleInsts (m_pModule s'))).
  { intros j. rewrite !elem_of_dom. apply Hgrow. }
  split; [set_solver|].
  intros c Hc. destruct (Hsched c Hc) as [?|?]; [set_solver|].
  apply Hsub. by apply elem_of_dom.
Qed.

Lemma eraseInsts_dom (l : list InstId) (m : Module) :
  dom (moduleInsts (foldr eraseInst m l)) = dom (moduleInsts m) ∖ list_to_set l.
Proof.
  induction l as [|x l IH]; simpl; [set_solver|].
  rewrite dom_delete_L, IH. set_solver.
Qed.

(** X4: while the stages are scanned nothing is destroyed: every instruction
    of the input is still in the store when the scan ends, and so is every
    call scheduled for erasure; the final loop then removes exactly the
    scheduled calls and leaves the set of scheduled calls empty. *)
Theorem scheduled_calls_are_live_until_the_final_loop gfxIp entryPoints module self' :
  visitStages gfxIp (scan module) entryPoints = Some self' →
  dom (moduleInsts module) ⊆ dom (moduleInsts (m_pModule self')) ∧
  m_imageCalls self' ⊆ dom (moduleInsts (m_pModule self')) ∧
  dom (moduleInsts (m_pModule (eraseImageCalls self')))
    = dom (moduleInsts (m_pModule self')) ∖ m_imageCalls self' ∧
  m_imageCalls (eraseImageCalls self') = ∅.
Proof.
  intros Hscan.
  destruct (visitStages_store_grows _ _ _ _ Hscan) as [Hdom Hpend]; [set_solver|].
  split; [exact Hdom|]. split; [exact Hpend|]. split; [|done].
  simpl. by rewrite eraseInsts_dom, list_to_set_elements_L.
Qed.

(** *** What an instruction of the input looks like while the stages are scanned *)

Lemma opShape_mapOperands f op : opShape (mapOperands f op) = opShape op.
Proof.
  unfold opShape. destruct op; simpl; try done; by rewrite <- list_fmap_compose.
Qed.

Lemma opShape_setArgOperand pCallee operandList k v :
  opShape (Call pCallee (<[k := v]> operandList)) = opShape (Call pCallee operandList).
Proof.
  unfold opShape. simpl. f_equal. apply list_eq. intros n.
  rewrite !list_lookup_fmap.
  destruct (decide (k = n)) as [->|Hne]; [|by rewrite list_lookup_insert_ne].
  destruct (operandList !! n) as [x|] eqn:Hn.
  - by rewrite list_lookup_insert_eq by (by eapply lookup_lt_Some).
  - apply lookup_ge_None in Hn.
    by rewrite (proj2 (lookup_ge_None _ _)) by (by rewrite length_insert).
Qed.

Lemma opShape_Call op pCallee operandList :
  opShape op = opShape (Call pCallee operandList) →
  ∃ operandList0, op = Call pCallee operandList0 ∧ length operandList0 = length operandList.
Proof.
  unfold opShape. destruct op as [callee args| | | |]; simpl; try done.
  intros [= -> Hl]. exists args. split; [done|].
  apply (f_equal length) in Hl. by rewrite !length_fmap in Hl.
Qed.

Lemma OperandKept_impl gfxIp (P Q New : InstId → Prop) k v v' :
  (∀ d, P d → Q d) → OperandKept gfxIp P New k v v' → OperandKept gfxIp Q New k v v'.
Proof.
  intros HPQ [->|[(d & d' & -> & -> & HP & HN)|H3]]; [by left| |by right; right].
  right; left. eauto 8.
Qed.

Lemma OperandKept_subst gfxIp (P Q New : InstId → Prop) k v v' id new :
  (∀ d, P d → Q d) → Q id → New new →
  OperandKept gfxIp P New k v v' → OperandKept gfxIp Q New k v (substValue id new v').
Proof.
  intros HPQ HQ HN
    [->|[(d & d' & -> & -> & HP & HN')|(-> & H9 & bits & val & d' & -> & Hz & -> & HN')]].
  - destruct v as [| d |]; simpl; [by left| |by left].
    case_decide; [subst d; right; left; eauto 8|by left].
  - right; left. simpl. case_decide; eauto 10.
  - right; right. split; [done|]. split; [done|]. simpl. case_decide; eauto 10.
Qed.

Lemma KeepsShape_refl gfxIp P New i : KeepsShape gfxIp P New i i.
Proof. split; [done|]. split; [done|]. intros k v Hv. exists v. split; [done|by left]. Qed.

Lemma KeepsShape_impl gfxIp (P Q New : InstId → Prop) i i' :
  (∀ d, P d → Q d) → KeepsShape gfxIp P New i i' → KeepsShape gfxIp Q New i i'.
Proof.
  intros HPQ (Hty & Hsh & Hops). split; [done|]. split; [done|].
  intros k v Hv. destruct (Hops k v Hv) as (v' & Hv' & Hk).
  exists v'. split; [done|]. by eapply OperandKept_impl.
Qed.

Lemma KeepsShape_subst gfxIp (P Q New : InstId → Prop) i i' id new :
  (∀ d, P d → Q d) → Q id → New new →
  KeepsShape gfxIp P New i i' → KeepsShape gfxIp Q New i (substInst id new i').
Proof.
  intros HPQ HQ HN (Hty & Hsh & Hops). split; [done|].
  split; [simpl; by rewrite opShape_mapOperands|].
  intros k v Hv. destruct (Hops k v Hv) as (v' & Hv' & Hk).
  exists (substValue id new v'). simpl.
  rewrite operands_mapOperands, list_lookup_fmap, Hv'. split; [done|].
  by eapply OperandKept_subst.
Qed.

Lemma KeepsShape_patch gfxIp P (New : InstId → Prop) i ty pCallee operandList bits val
    pTexelOffset :
  major gfxIp = 9 →
  operandList !! 3%nat = Some (ConstantInt bits val) →
  toU32 (getZExtValue val) = 0 →
  New pTexelOffset →
  KeepsShape gfxIp P New i {| instType := ty; instOp := Call pCallee operandList |} →
  KeepsShape gfxIp P New i
    {| instType := ty;
       instOp := Call pCallee (<[3%nat := InstResult pTexelOffset]> operandList) |}.
Proof.
  intros H9 H3 Hz HN (Hty & Hsh & Hops). split; [done|].
  split; [cbn [instOp] in *; by rewrite opShape_setArgOperand|].
  intros k v Hv. destruct (Hops k v Hv) as (v' & Hv' & Hk). cbn [instOp operands] in *.
  destruct (decide (k = 3%nat)) as [->|Hne].
  - exists (InstResult pTexelOffset).
    rewrite list_lookup_insert_eq by (by eapply lookup_lt_Some). split; [done|].
    rewrite H3 in Hv'. injection Hv' as <-.
    destruct Hk as [<-|[(d & d' & _ & [=] & _)|(_ & _ & b & x & d' & _ & _ & [=] & _)]].
    right; right. eauto 12.
  - exists v'. by rewrite list_lookup_insert_ne.
Qed.

Lemma KeepsShape_step gfxIp (module : Module) self id self' :
  (∀ j i, moduleInsts module !! j = Some i →
     ∃ i', moduleInsts (m_pModule self) !! j = Some i' ∧
           KeepsShape gfxIp (λ d, d ∈ m_imageCalls self)
             (λ d, moduleInsts module !! d = None) i i') →
  visitInst gfxIp self id = Some self' →
  (∀ j i, moduleInsts module !! j = Some i →
     ∃ i', moduleInsts (m_pModule self') !! j = Some i' ∧
           KeepsShape gfxIp (λ d, d ∈ m_imageCalls self')
             (λ d, moduleInsts module !! d = None) i i').
Proof.
  intros Hinv Hv j i Hj. destruct (Hinv j i Hj) as (i1 & Hi1 & Hk).
  assert (Hfresh : ∀ p, moduleInsts (m_pModule self) !! p = None →
                        moduleInsts module !! p = None).
  { intros p Hp. destruct (moduleInsts module !! p) as [ip|] eqn:Hp0; [|done].
    destruct (Hinv p ip Hp0) as (? & ? & _). congruence. }
  apply visitInst_cases in Hv as [[-> _]|[Ha|Hb]]; [by exists i1| |].
  - destruct Ha as (ty & nm & ops & meta & Hid & _ & _ & _ & Hle & ->).
    destruct (patchBufferSizeQuery_store gfxIp self id ty nm ops Hle)
      as (new & callName & Hnew & _ & Hst & _ & Hpend).
    exists (substInst id new i1). rewrite Hst.
    rewrite decide_False by congruence. rewrite Hi1. split; [done|].
    eapply KeepsShape_subst; [| | |exact Hk]; [rewrite Hpend; set_solver..|auto].
  - destruct Hb as (ty & nm & ops & meta & bits & val & Hid & _ & _ & _ & _ & H9 & H3 & Hz & ->).
    destruct (texelOffsetPatched_store self id ty (Some nm) ops Hid)
      as (p1 & p2 & p3 & p4 & Hnd & Hn1 & Hn2 & Hn3 & Hn4 & Hst & _ & Hpend).
    rewrite Hst, Hpend. rewrite lookup_insert. case_decide as Hji.
    + subst j. eexists. split; [done|]. rewrite Hid in Hi1. injection Hi1 as <-.
      eapply KeepsShape_patch; [done..|auto|done].
    + exists i1. split; [|done].
      rewrite !lookup_insert_ne by congruence. done.
Qed.

Lemma visitStages_KeepsShape gfxIp entryPoints module self' :
  visitStages gfxIp {| m_pModule := module; m_imageCalls := ∅ |} entryPoints = Some self' →
  ∀ j i, moduleInsts module !! j = Some i →
    ∃ i', moduleInsts (m_pModule self') !! j = Some i' ∧
          KeepsShape gfxIp (λ d, d ∈ m_imageCalls self')
            (λ d, moduleInsts module !! d = None) i i'.
Proof.
  intros Hscan.
  refine (visitStages_invariant
            (λ s, ∀ j i, moduleInsts module !! j = Some i →
                    ∃ i', moduleInsts (m_pModule s) !! j = Some i' ∧
                          KeepsShape gfxIp (λ d, d ∈ m_imageCalls s)
                            (λ d, moduleInsts module !! d = None) i i') gfxIp
            (KeepsShape_step gfxIp module) entryPoints _ _ _ Hscan).
  intros j i Hj. exists i. split; [done|apply KeepsShape_refl].
Qed.

(** X5: an instruction of the input that is still there after the pass has
    the result type, the kind, the callee and the number of operands it had.
    Each operand is what it was, except that the result of an instruction
    erased by the pass has been replaced by the result of an instruction the
    input did not have, and that on generation 9 an integer constant at
    index 3 whose low 32 bits are zero may have been replaced by such a
    result. The pass never puts a constant in the place of an operand. *)
Theorem surviving_instruction_keeps_its_shape
    gfxIp entryPoints module module' flag j i i' :
  runOnModule gfxIp entryPoints module = Some (module', flag) →
  moduleInsts module !! j = Some i →
  moduleInsts module' !! j = Some i' →
  KeepsShape gfxIp (λ d, moduleInsts module' !! d = None)
    (λ d, moduleInsts module !! d = None) i i'.
Proof.
  intros Hrun Hj Hj'. unfold runOnModule in Hrun.
  destruct (visitStages gfxIp {| m_pModule := module; m_imageCalls := ∅ |} entryPoints)
    as [self1|] eqn:Hscan; [|done].
  simpl in Hrun. injection Hrun as <- <-. simpl in *.
  destruct (visitStages_KeepsShape _ _ _ _ Hscan j i Hj) as (i1 & Hi1 & Hk).
  apply eraseInsts_lookup_Some in Hj'. rewrite Hi1 in Hj'. injection Hj' as <-.
  eapply KeepsShape_impl; [|exact Hk].
  intros d Hd. apply eraseInsts_lookup_None. by apply elem_of_elements.
Qed.

(** *** Which instructions the visitor meets *)

Lemma visitInsts_invariant_visited (P : PatchImageOp → Prop) (V : InstId → Prop) gfxIp :
  (∀ self id self', P self → V id → visitInst gfxIp self id = Some self' → P self') →
  ∀ ids self self',
    (∀ x, x ∈ ids → V x) → P self → visitInsts gfxIp self ids = Some self' → P self'.
Proof.
  intros Hstep. induction ids as [|id ids IH]; simpl; intros self self' HV HP Hv.
  - by injection Hv as <-.
  - destruct (visitInst gfxIp self id) as [s1|] eqn:H1; [|done]. simpl in Hv.
    apply (IH s1 self'); [|eapply Hstep; [done| |done]|done].
    + intros x Hx. apply HV. by right.
    + apply HV. by left.
Qed.

Lemma visitStages_invariant_visited
    (P : PatchImageOp → Prop) (V : InstId → Prop) gfxIp (entryPoints0 : list (option nat)) :
  (∀ self f body x, P self → Some f ∈ entryPoints0 →
     moduleFuncs (m_pModule self) !! f = Some body → x ∈ body → V x) →
  (∀ self id self', P self → V id → visitInst gfxIp self id = Some self' → P self') →
  ∀ entryPoints self self',
    (∀ f, Some f ∈ entryPoints → Some f ∈ entryPoints0) →
    P self → visitStages gfxIp self entryPoints = Some self' → P self'.
Proof.
  intros Hbody Hstep.
  induction entryPoints as [|[f|] eps IH]; simpl; intros self self' Hsub HP Hv.
  - by injection Hv as <-.
  - destruct (visit gfxIp self f) as [s1|] eqn:H1; [|done]. simpl in Hv.
    apply (IH s1 self'); [intros g Hg; apply Hsub; by right| |done].
    unfold visit in H1.
    destruct (moduleFuncs (m_pModule self) !! f) as [body|] eqn:Hf; [|congruence].
    eapply (visitInsts_invariant_visited P V gfxIp Hstep body); [|done..].
    intros x Hx. eapply (Hbody self f body); [done| |done..]. apply Hsub. by left.
  - apply (IH self self'); [|done..]. intros g Hg. apply Hsub. by right.
Qed.

Lemma visitInst_new_in_body gfxIp self id self' :
  visitInst gfxIp self id = Some self' →
  ∀ f body', moduleFuncs (m_pModule self') !! f = Some body' →
    ∃ body, moduleFuncs (m_pModule self) !! f = Some body ∧
            ∀ x, x ∈ body' → x ∈ body ∨ moduleInsts (m_pModule self) !! x = None.
Proof.
  intros Hv f body' Hf. apply visitInst_cases in Hv as [[-> _]|[Ha|Hb]].
  - exists body'. auto.
  - destruct Ha as (ty & nm & ops & meta & Hid & _ & _ & _ & Hle & ->).
    destruct (patchBufferSizeQuery_store gfxIp self id ty nm ops Hle)
      as (new & callName & Hnew & _ & _ & Hfn & _).
    rewrite Hfn, list_lookup_fmap in Hf.
    destruct (moduleFuncs (m_pModule self) !! f) as [body|]; [|done].
    injection Hf as <-. exists body. split; [done|].
    intros x [?|[-> _]]%elem_of_insertBefore; auto.
  - destruct Hb as (ty & nm & ops & meta & bits & val & Hid & _ & _ & _ & _ & _ & _ & _ & ->).
    destruct (texelOffsetPatched_store self id ty (Some nm) ops Hid)
      as (p1 & p2 & p3 & p4 & _ & Hn1 & Hn2 & Hn3 & Hn4 & _ & Hfn & _).
    rewrite Hfn, !list_lookup_fmap in Hf.
    destruct (moduleFuncs (m_pModule self) !! f) as [body|]; [|done].
    injection Hf as <-. exists body. split; [done|].
    intros x. rewrite !elem_of_insertBefore. intros Hx.
    assert (x ∈ body ∨ x = p1 ∨ x = p2 ∨ x = p3 ∨ x = p4) as Hor by tauto.
    destruct Hor as [?| [-> | [-> | [-> | ->] ] ] ]; auto.
Qed.

Lemma BodiesFrom_refl module : BodiesFrom module {| m_pModule := module; m_imageCalls := ∅ |}.
Proof. split; [done|]. intros f body Hf. exists body. auto. Qed.

Lemma BodiesFrom_step gfxIp module self id self' :
  BodiesFrom module self → visitInst gfxIp self id = Some self' → BodiesFrom module self'.
Proof.
  intros [Hdom Hbody] Hv. split.
  - intros j Hj. apply (visitInst_store_grows _ _ _ _ Hv). auto.
  - intros f body' Hf.
    destruct (visitInst_new_in_body _ _ _ _ Hv f body' Hf) as (body1 & Hf1 & Hin1).
    destruct (Hbody f body1 Hf1) as (body & Hf0 & Hin0).
    exists body. split; [done|]. intros x Hx.
    destruct (Hin1 x Hx) as [?|Hnone]; [auto|].
    right. destruct (moduleInsts module !! x) as [i|] eqn:Hx0; [|done].
    destruct (Hdom x ltac:(by eexists)) as [? ?]. congruence.
Qed.

(** *** A call outside the entry points *)

(** X6: only the bodies of the entry points are visited. An instruction that
    is in the body of no entry point is still there after the pass, whatever
    it is (a recognized buffer size query included), with its type, kind,
    callee and number of operands; an operand differs only where it was the
    result of an instruction erased by the pass. *)
Theorem instruction_outside_entry_points_is_kept
    gfxIp entryPoints module module' flag c i :
  runOnModule gfxIp entryPoints module = Some (module', flag) →
  moduleInsts module !! c = Some i →
  (∀ f, Some f ∈ entryPoints → ¬ HasInBody module f c) →
  ∃ i', moduleInsts module' !! c = Some i' ∧
        instType i' = instType i ∧
        opShape (instOp i') = opShape (instOp i) ∧
        RedirectedWhere (λ d, moduleInsts module' !! d = None)
          (operands (instOp i)) (operands (instOp i')).
Proof.
  intros Hrun Hc Hout. unfold runOnModule in Hrun.
  destruct (visitStages gfxIp {| m_pModule := module; m_imageCalls := ∅ |} entryPoints)
    as [self1|] eqn:Hscan; [|done].
  simpl in Hrun. injection Hrun as <- <-.
  set (P := λ s : PatchImageOp,
         BodiesFrom module s ∧ (c ∉ m_imageCalls s) ∧
         ∃ i', moduleInsts (m_pModule s) !! c = Some i' ∧
               instType i' = instType i ∧
               opShape (instOp i') = opShape (instOp i) ∧
               RedirectedWhere (λ d, d ∈ m_imageCalls s)
                 (operands (instOp i)) (operands (instOp i'))).
  assert (HP : P self1).
  { apply (visitStages_invariant_visited P (λ x, x ≠ c) gfxIp entryPoints)
      with (entryPoints := entryPoints)
           (self := {| m_pModule := module; m_imageCalls := ∅ |}); [| |done| |done].
    - intros s f body' x ([_ Hbody] & _) Hf Hb Hx ->.
      destruct (Hbody f body' Hb) as (body & Hb0 & Hin).
      destruct (Hin c Hx) as [?|?]; [|congruence].
      apply (Hout f Hf). by exists body.
    - intros s id s' (Hfrom & Hpend & i1 & Hi1 & Hty & Hsh & Hred) Hne Hv.
      split; [by eapply BodiesFrom_step|].
      apply visitInst_cases in Hv as [[-> _]|[Ha|Hb]]; [split; [done|by exists i1]| |].
      + destruct Ha as (ty & nm & ops & meta & Hid & _ & _ & _ & Hle & ->).
        destruct (patchBufferSizeQuery_store gfxIp s id ty nm ops Hle)
          as (new & callName & Hnew & _ & Hst & _ & Hp').
        rewrite Hp'. split; [set_solver|].
        exists (substInst id new i1). rewrite Hst.
        rewrite decide_False by congruence. rewrite Hi1.
        split; [done|]. split; [done|].
        split; [simpl; by rewrite opShape_mapOperands|].
        simpl. rewrite operands_mapOperands.
        eapply RedirectedWhere_subst; [| |exact Hred]; set_solver.
      + destruct Hb as (ty & nm & ops & meta & bits & val & Hid & _ & _ & _ & _ & _ & _ & _ & ->).
        destruct (texelOffsetPatched_store s id ty (Some nm) ops Hid)
          as (p1 & p2 & p3 & p4 & _ & Hn1 & Hn2 & Hn3 & Hn4 & Hst & _ & Hp').
        rewrite Hp'. split; [done|]. exists i1. rewrite Hst.
        rewrite !lookup_insert_ne by congruence. done.
    - split; [apply BodiesFrom_refl|]. split; [simpl; set_solver|].
      exists i. split; [done|]. split; [done|]. split; [done|].
      apply RedirectedWhere_refl. }
  destruct HP as (_ & Hpend & i1 & Hi1 & Hty & Hsh & Hred).
  exists i1. simpl.
  split; [rewrite eraseInsts_lookup_other by (by rewrite elem_of_elements); done|].
  split; [done|]. split; [done|].
  eapply RedirectedWhere_impl; [|exact Hred].
  intros d Hd. apply eraseInsts_lookup_None. by apply elem_of_elements.
Qed.

(** *** Which instructions the final loop erases *)

Lemma KeepsShape_decodeMetadata gfxIp P New i ty pCallee operandList' meta :
  KeepsShape gfxIp P New i {| instType := ty; instOp := Call pCallee operandList' |} →
  decodeMetadata operandList' = Some meta →
  ∃ operandList,
    i = {| instType := ty; instOp := Call pCallee operandList |} ∧
    decodeMetadata operandList = Some meta.
Proof.
  intros (Hty & Hsh & Hops) Hmeta. cbn [instType instOp] in *.
  symmetry in Hsh. apply opShape_Call in Hsh as (ops & Hop & Hlen).
  exists ops. split; [destruct i; simpl in *; congruence|].
  rewrite Hop in Hops. cbn [operands] in Hops.
  unfold decodeMetadata in *. rewrite Hlen.
  destruct (decide (2 ≤ length operandList')%nat) as [H2|]; [|done].
  destruct (lookup_lt_is_Some_2 ops (length operandList' - 1)) as [v Hv]; [lia|].
  destruct (Hops _ _ Hv) as (v' & Hv' & Hk). rewrite Hv' in Hmeta. rewrite Hv.
  destruct v' as [bits val| |]; try done.
  by destruct Hk as [<-|[(d & d' & _ & [=] & _)|(_ & _ & b & x & d' & _ & _ & [=] & _)]].
Qed.

(** X7: an instruction of the input is missing after the pass exactly when
    the generation is at most 8 and the instruction is a recognized call
    whose metadata selects the size query rule and that is in the body of an
    entry point. *)
Theorem erased_exactly_the_size_queries_of_entry_points
    gfxIp entryPoints module module' flag c i :
  runOnModule gfxIp entryPoints module = Some (module', flag) →
  moduleInsts module !! c = Some i →
  (moduleInsts module' !! c = None ↔
   major gfxIp ≤ 8 ∧ IsBufferSizeQueryCall i ∧
   ∃ f, Some f ∈ entryPoints ∧ HasInBody module f c).
Proof.
  intros Hrun Hc. unfold runOnModule in Hrun.
  destruct (visitStages gfxIp {| m_pModule := module; m_imageCalls := ∅ |} entryPoints)
    as [self1|] eqn:Hscan; [|done].
  simpl in Hrun. injection Hrun as <- <-. simpl. split.
  - intros Hgone.
    set (P := λ s : PatchImageOp,
           BodiesFrom module s ∧
           (∀ j i, moduleInsts module !! j = Some i →
              ∃ i', moduleInsts (m_pModule s) !! j = Some i' ∧
                    KeepsShape gfxIp (λ d, d ∈ m_imageCalls s)
                      (λ d, moduleInsts module !! d = None) i i') ∧
           (∀ d i, d ∈ m_imageCalls s → moduleInsts module !! d = Some i →
              major gfxIp ≤ 8 ∧ IsBufferSizeQueryCall i ∧
              ∃ f, Some f ∈ entryPoints ∧ HasInBody module f d)).
    assert (HP : P self1).
    { apply (visitStages_invariant_visited P
               (λ x, (∃ f, Some f ∈ entryPoints ∧ HasInBody module f x)
                     ∨ moduleInsts module !! x = None) gfxIp entryPoints)
        with (entryPoints := entryPoints)
             (self := {| m_pModule := module; m_imageCalls := ∅ |}); [| |done| |done].
      - intros s f body' x ([_ Hbody] & _) Hf Hb Hx.
        destruct (Hbody f body' Hb) as (body & Hb0 & Hin).
        destruct (Hin x Hx) as [?|?]; [left|by right].
        exists f. split; [done|]. by exists body.
      - intros s id s' (Hfrom & Hstable & Hsched) HV Hv.
        split; [by eapply BodiesFrom_step|].
        split; [by eapply KeepsShape_step|].
        apply visitInst_cases in Hv as [[-> _]|[Ha|Hb]]; [done| |].
        + destruct Ha as (ty & nm & ops & meta & Hid & Hpre & Hmeta & Hsel & Hle & ->).
          rewrite patchBufferSizeQuery_le8 by done. simpl.
          intros d i0 [->%elem_of_singleton|Hd]%elem_of_union Hd0; [|by eapply Hsched].
          split; [done|].
          destruct (Hstable _ _ Hd0) as (i1 & Hi1 & Hk).
          rewrite Hid in Hi1. injection Hi1 as <-.
          destruct (KeepsShape_decodeMetadata _ _ _ _ _ _ _ _ Hk Hmeta) as (ops0 & -> & Hm0).
          split.
          * exists nm, ops0, meta. split; [done|]. split; [done|]. split; [done|].
            by apply isBufferSizeQuery_spec.
          * destruct HV as [?|?]; [done|congruence].
        + destruct Hb as (ty & nm & ops & meta & bits & val & _ & _ & _ & _ & _ & _ & _ & _ & ->).
          exact Hsched.
      - split; [apply BodiesFrom_refl|]. split.
        + intros j i0 Hj. exists i0. split; [done|apply KeepsShape_refl].
        + simpl. intros d i0 Hd. set_solver. }
    destruct HP as (_ & Hstable & Hsched).
    apply (Hsched c i); [|done].
    destruct (decide (c ∈ m_imageCalls self1)) as [?|Hnin]; [done|].
    rewrite eraseInsts_lookup_other in Hgone by (by rewrite elem_of_elements).
    destruct (Hstable _ _ Hc) as (i1 & Hi1 & _). congruence.
  - intros (Hle & (nm & ops & meta & Hop & Hpre & Hmeta & Hsel) & f & Hf & Hbody).
    assert (Htr0 : Tracked c nm meta {| m_pModule := module; m_imageCalls := ∅ |}).
    { split; [by eexists|]. split.
      - right. exists (instType i), ops. split; [|done].
        simpl. rewrite Hc. destruct i; simpl in *; by subst.
      - simpl. by intros ?%not_elem_of_empty. }
    destruct (visitStages_Tracked gfxIp c nm meta Hle Hpre Hsel _ _ _ Htr0 Hscan)
      as [_ Hpend].
    apply eraseInsts_lookup_None, elem_of_elements. by apply (Hpend f).
Qed.

(** *** What the pass creates *)

Lemma CreatedByPass_subst gfxIp i id new :
  CreatedByPass gfxIp i → CreatedByPass gfxIp (substInst id new i).
Proof.
  intros [(Hle & nm & ops & Hop & Hpre)|(H9 & Hcase)].
  - left. split; [done|]. exists nm, (substValue id new <$> ops). simpl. by rewrite Hop.
  - right. split; [done|].
    destruct Hcase as [-> | [(p & ->) | [(p & ->) | (p & ->)] ] ]; unfold substInst; simpl.
    + by left.
    + right; left. case_decide; eauto.
    + right; right; left. case_decide; eauto.
    + right; right; right. case_decide; eauto.
Qed.

Lemma CreatedByPass_step gfxIp (module : Module) self id self' :
  (∀ j i, moduleInsts module !! j = None → moduleInsts (m_pModule self) !! j = Some i →
          CreatedByPass gfxIp i) →
  visitInst gfxIp self id = Some self' →
  (∀ j i, moduleInsts module !! j = None → moduleInsts (m_pModule self') !! j = Some i →
          CreatedByPass gfxIp i).
Proof.
  intros Hinv Hv j i Hj0 Hj.
  apply visitInst_cases in Hv as [[-> _]|[Ha|Hb]]; [by eapply Hinv| |].
  - destruct Ha as (ty & nm & ops & meta & Hid & Hpre & _ & _ & Hle & ->).
    destruct (patchBufferSizeQuery_store gfxIp self id ty nm ops Hle)
      as (new & callName & Hnew & -> & Hst & _ & _).
    rewrite Hst in Hj. case_decide.
    + injection Hj as <-. left. split; [done|]. by eexists nm, _.
    + apply fmap_Some in Hj as (i0 & Hi0 & ->).
      apply CreatedByPass_subst. by eapply Hinv.
  - destruct Hb as (ty & nm & ops & meta & bits & val & Hid & _ & _ & _ & _ & H9 & H3 & _ & ->).
    destruct (texelOffsetPatched_store self id ty (Some nm) ops Hid)
      as (p1 & p2 & p3 & p4 & _ & _ & _ & _ & _ & Hst & _ & _).
    rewrite Hst, !lookup_insert in Hj.
    repeat case_decide; try (injection Hj as <-).
    + subst j.
      destruct (Hinv _ _ Hj0 Hid) as [(Hle & _)|(_ & Hcase)]; [lia|].
      destruct Hcase as [[= _ _ ->] | [(p & [=]) | [(p & [=]) | (p & [=])] ] ]. done.
    + right. split; [done|]. right; right; right. eauto.
    + right. split; [done|]. right; right; left. eauto.
    + right. split; [done|]. right; left. eauto.
    + right. split; [done|]. by left.
    + by eapply Hinv.
Qed.

(** X8: an instruction of the output that the input did not have is, on
    generations up to 8, a call to a recognized name followed by the suffix
    of the generation, and on generation 9 one of the four instructions of
    the texel offset rule: the call of [llvm.amdgcn.s.getpc], the bitcast to
    two 32-bit lanes, the extraction of lane 1, the shift right by 24. On
    generations above 9 the output has no such instruction. *)
Theorem pass_creates_only_its_own_instructions
    gfxIp entryPoints module module' flag j i :
  runOnModule gfxIp entryPoints module = Some (module', flag) →
  moduleInsts module !! j = None →
  moduleInsts module' !! j = Some i →
  CreatedByPass gfxIp i.
Proof.
  intros Hrun Hj0 Hj. unfold runOnModule in Hrun.
  destruct (visitStages gfxIp {| m_pModule := module; m_imageCalls := ∅ |} entryPoints)
    as [self1|] eqn:Hscan; [|done].
  simpl in Hrun. injection Hrun as <- <-. simpl in Hj.
  apply eraseInsts_lookup_Some in Hj.
  refine (visitStages_invariant
            (λ s, ∀ j i, moduleInsts module !! j = None →
                         moduleInsts (m_pModule s) !! j = Some i → CreatedByPass gfxIp i)
            gfxIp (CreatedByPass_step gfxIp module) entryPoints _ _ _ Hscan j i Hj0 Hj).
  simpl. intros ???. congruence.
Qed.

(** *** No operand and no body entry is left dangling *)

Lemma list_elem_of_insert_inv {A} (l : list A) k x y :
  x ∈ <[k := y]> l → x = y ∨ x ∈ l.
Proof.
  intros (n & Hn)%list_elem_of_lookup.
  apply list_lookup_insert_Some in Hn as [(-> & -> & _)|(_ & Hn)]; [by left|].
  right. by eapply list_elem_of_lookup_2.
Qed.

Lemma eraseInsts_funcs (l : list InstId) (m : Module) :
  moduleFuncs (foldr eraseInst m l) = filter (λ x, x ∉ l) <$> moduleFuncs m.
Proof.
  induction l as [|a l IH]; simpl.
  - rewrite <- (list_fmap_id (moduleFuncs m)) at 1. apply list_fmap_ext.
    intros _ body _. simpl. induction body as [|x body IHb]; [done|].
    rewrite filter_cons_True by apply not_elem_of_nil. by rewrite <- IHb.
  - rewrite IH, <- list_fmap_compose. apply list_fmap_ext. intros _ body _. simpl.
    rewrite list_filter_filter. apply list_filter_iff. intros x.
    rewrite not_elem_of_cons. tauto.
Qed.

Lemma eraseInsts_closed (l : list InstId) (m : Module) :
  ClosedModule m → (∀ c, c ∈ l → NoUseOf c m) → ClosedModule (foldr eraseInst m l).
Proof.
  intros [Hops Hbodies] Huse. split.
  - intros j i d Hj Hd. apply eraseInsts_lookup_Some in Hj.
    rewrite eraseInsts_lookup_other; [by eapply Hops|].
    intros Hin. by apply (Huse d Hin j i).
  - intros body x. rewrite eraseInsts_funcs.
    intros (body0 & -> & Hb0)%list_elem_of_fmap [Hx Hin]%list_elem_of_filter.
    rewrite eraseInsts_lookup_other by done. by eapply Hbodies.
Qed.

Lemma Closed_step gfxIp self id self' :
  ClosedModule (m_pModule self) ∧
  (∀ c, c ∈ m_imageCalls self →
        is_Some (moduleInsts (m_pModule self) !! c) ∧ NoUseOf c (m_pModule self)) →
  visitInst gfxIp self id = Some self' →
  ClosedModule (m_pModule self') ∧
  (∀ c, c ∈ m_imageCalls self' →
        is_Some (moduleInsts (m_pModule self') !! c) ∧ NoUseOf c (m_pModule self')).
Proof.
  intros [[Hops Hbodies] Hsched] Hv.
  pose proof (proj1 (visitInst_store_grows _ _ _ _ Hv)) as Hgrow.
  apply visitInst_cases in Hv as [[-> _]|[Ha|Hb]]; [done| |].
  - destruct Ha as (ty & nm & ops & meta & Hid & _ & _ & _ & Hle & ->).
    rewrite patchBufferSizeQuery_le8 in * by done.
    set (new := fresh (dom (moduleInsts (m_pModule self)))) in *.
    set (callName := nm +:+ _) in *.
    split; [split|].
    + intros j i d Hj Hd. simpl in Hj. rewrite lookup_fmap in Hj.
      apply fmap_Some in Hj as (i0 & Hi0 & ->). simpl in Hd.
      rewrite operands_mapOperands in Hd.
      apply list_elem_of_fmap in Hd as (v & Hv & Hin).
      destruct v as [| x |]; simpl in Hv; try done.
      case_decide; injection Hv as ->.
      * simpl. rewrite lookup_fmap, lookup_insert_eq. by eexists.
      * apply Hgrow. rewrite lookup_insert in Hi0. case_decide.
        -- injection Hi0 as <-. by eapply (Hops id).
        -- by eapply (Hops j).
    + intros body' x. simpl.
      intros (body & -> & Hb)%list_elem_of_fmap [Hx|[-> _]]%elem_of_insertBefore.
      * apply Hgrow. by eapply Hbodies.
      * simpl. rewrite lookup_fmap, lookup_insert_eq. by eexists.
    + intros c Hc. simpl in Hc.
      assert (Hsome : is_Some (moduleInsts (m_pModule self) !! c)).
      { apply elem_of_union in Hc as [->%elem_of_singleton|Hc]; [by eexists|].
        by apply Hsched. }
      split; [by apply Hgrow|].
      eapply NoUseOf_after_replace; [done|exact Hid| |done].
      intros Hne. apply Hsched. set_solver.
  - destruct Hb as (ty & nm & ops & meta & bits & val & Hid & _ & _ & _ & _ & _ & H3 & _ & ->).
    destruct (texelOffsetPatched_store self id ty (Some nm) ops Hid)
      as (p1 & p2 & p3 & p4 & Hnd & Hn1 & Hn2 & Hn3 & Hn4 & Hst & Hfn & Hpend).
    assert (Hnew : ∀ p, p ∈ [p1; p2; p3; p4] →
              is_Some (moduleInsts (m_pModule (texelOffsetPatched self id)) !! p)).
    { intros p Hp. rewrite Hst, !lookup_insert. repeat case_decide; try by eexists.
      rewrite !elem_of_cons, elem_of_nil in Hp. naive_solver. }
    assert (Hlook : ∀ j i d,
              moduleInsts (m_pModule (texelOffsetPatched self id)) !! j = Some i →
              InstResult d ∈ operands (instOp i) →
              d ∈ [p1; p2; p3; p4]
              ∨ ∃ j0 i0, moduleInsts (m_pModule self) !! j0 = Some i0 ∧
                         InstResult d ∈ operands (instOp i0)).
    { intros j i d Hj Hd. rewrite Hst, !lookup_insert in Hj.
      repeat case_decide; try (injection Hj as <-); simpl in Hd.
      - apply list_elem_of_insert_inv in Hd as [[= ->]|Hd].
        + left. rewrite !elem_of_cons. tauto.
        + right. by exists id, {| instType := ty; instOp := Call (Some nm) ops |}.
      - left. rewrite !elem_of_cons, elem_of_nil in Hd. rewrite !elem_of_cons. naive_solver.
      - left. rewrite !elem_of_cons, elem_of_nil in Hd. rewrite !elem_of_cons. naive_solver.
      - left. rewrite !elem_of_cons, elem_of_nil in Hd. rewrite !elem_of_cons. naive_solver.
      - by apply elem_of_nil in Hd.
      - right. by exists j, i. }
    split; [split|].
    + intros j i d Hj Hd. destruct (Hlook j i d Hj Hd) as [?|(j0 & i0 & Hj0 & Hd0)]; [auto|].
      apply Hgrow. by eapply Hops.
    + intros body' x. rewrite Hfn.
      intros (b3 & -> & (b2 & -> & (b1 & -> & (body & -> & Hb)%list_elem_of_fmap)
                %list_elem_of_fmap)%list_elem_of_fmap)%list_elem_of_fmap.
      rewrite !elem_of_insertBefore. intros Hx.
      assert (x ∈ body ∨ x ∈ [p1; p2; p3; p4]) as [?|?]
        by (rewrite !elem_of_cons; tauto); [|auto].
      apply Hgrow. by eapply Hbodies.
    + intros c Hc. rewrite Hpend in Hc. destruct (Hsched c Hc) as [[ic Hsome] Huse].
      split; [apply Hgrow; by eexists|].
      intros j i Hj Hd. destruct (Hlook j i c Hj Hd) as [Hp|(j0 & i0 & Hj0 & Hd0)].
      * rewrite !elem_of_cons, elem_of_nil in Hp. naive_solver congruence.
      * by apply (Huse j0 i0).
Qed.

(** X9: the pass keeps a module closed: if in the input every operand that
    is an instruction result, and every entry of a function body, names an
    instruction of the module, then so it is in the output. No use of an
    erased call is left behind, and no body keeps an erased call. *)
Theorem pass_preserves_closed_modules gfxIp entryPoints module module' flag :
  ClosedModule module →
  runOnModule gfxIp entryPoints module = Some (module', flag) →
  ClosedModule module'.
Proof.
  intros Hclosed Hrun. unfold runOnModule in Hrun.
  destruct (visitStages gfxIp {| m_pModule := module; m_imageCalls := ∅ |} entryPoints)
    as [self1|] eqn:Hscan; [|done].
  simpl in Hrun. injection Hrun as <- <-. simpl.
  assert (H0 : ClosedModule (m_pModule {| m_pModule := module; m_imageCalls := ∅ |}) ∧
               (∀ c, c ∈ m_imageCalls {| m_pModule := module; m_imageCalls := ∅ |} →
                     is_Some (moduleInsts module !! c) ∧ NoUseOf c module)).
  { split; [exact Hclosed|]. simpl. set_solver. }
  destruct (visitStages_invariant _ gfxIp (Closed_step gfxIp) entryPoints _ _ H0 Hscan)
    as [Hc1 Hs1].
  apply eraseInsts_closed; [done|].
  intros c Hc. apply Hs1. by apply elem_of_elements.
Qed.

(** *** The order of the instructions in a body *)

Lemma filter_insertBefore (P : InstId → Prop) `{!∀ x, Decision (P x)} pos new body :
  ¬ P new → filter P (insertBefore pos new body) = filter P body.
Proof.
  intros Hnew. induction body as [|x body IH]; simpl; [done|].
  case_decide.
  - by rewrite filter_cons_False by done.
  - by rewrite !filter_cons, IH.
Qed.

Lemma fmap_filter_insertBefore (P : InstId → Prop) `{!∀ x, Decision (P x)} pos new
    (funcs : list (list InstId)) :
  ¬ P new → filter P <$> (insertBefore pos new <$> funcs) = filter P <$> funcs.
Proof.
  intros Hnew. rewrite <- list_fmap_compose. apply list_fmap_ext.
  intros _ body _. simpl. by apply filter_insertBefore.
Qed.

Lemma visitInst_bodies_filter gfxIp (D : gset InstId) self id self' :
  D ⊆ dom (moduleInsts (m_pModule self)) →
  visitInst gfxIp self id = Some self' →
  filter (λ x, x ∈ D) <$> moduleFuncs (m_pModule self')
  = filter (λ x, x ∈ D) <$> moduleFuncs (m_pModule self).
Proof.
  intros HD Hv.
  assert (Hfresh : ∀ p, moduleInsts (m_pModule self) !! p = None → p ∉ D).
  { intros p Hp Hin. apply HD, elem_of_dom in Hin as [? ?]. congruence. }
  apply visitInst_cases in Hv as [[-> _]|[Ha|Hb]]; [done| |].
  - destruct Ha as (ty & nm & ops & meta & Hid & _ & _ & _ & Hle & ->).
    destruct (patchBufferSizeQuery_store gfxIp self id ty nm ops Hle)
      as (new & callName & Hnew & _ & _ & -> & _).
    apply fmap_filter_insertBefore; auto.
  - destruct Hb as (ty & nm & ops & meta & bits & val & Hid & _ & _ & _ & _ & _ & _ & _ & ->).
    destruct (texelOffsetPatched_store self id ty (Some nm) ops Hid)
      as (p1 & p2 & p3 & p4 & _ & Hn1 & Hn2 & Hn3 & Hn4 & _ & -> & _).
    rewrite !fmap_filter_insertBefore; auto.
Qed.

(** X10: the pass inserts and erases but never reorders: in each function
    body the instructions that come from the input are the surviving
    instructions of the input body, in the same order. *)
Theorem pass_keeps_the_order_of_instructions gfxIp entryPoints module module' flag :
  (∀ body x, body ∈ moduleFuncs module → x ∈ body → is_Some (moduleInsts module !! x)) →
  runOnModule gfxIp entryPoints module = Some (module', flag) →
  ∀ f body, moduleFuncs module !! f = Some body →
    ∃ body', moduleFuncs module' !! f = Some body' ∧
             filter (λ x, x ∈ dom (moduleInsts module)) body'
             = filter (λ x, x ∈ dom (moduleInsts module')) body.
Proof.
  intros Hlive Hrun. unfold runOnModule in Hrun.
  destruct (visitStages gfxIp {| m_pModule := module; m_imageCalls := ∅ |} entryPoints)
    as [self1|] eqn:Hscan; [|done].
  simpl in Hrun. injection Hrun as <- <-. simpl.
  set (D := dom (moduleInsts module)).
  assert (HP : D ⊆ dom (moduleInsts (m_pModule self1)) ∧
               filter (λ x, x ∈ D) <$> moduleFuncs (m_pModule self1) = moduleFuncs module).
  { refine (visitStages_invariant
              (λ s, D ⊆ dom (moduleInsts (m_pModule s)) ∧
                    filter (λ x, x ∈ D) <$> moduleFuncs (m_pModule s) = moduleFuncs module)
              gfxIp _ entryPoints _ _ _ Hscan).
    - intros s id s' [HD Hf] Hv. split.
      + intros j Hj. apply HD in Hj. rewrite elem_of_dom in *.
        by apply (visitInst_store_grows _ _ _ _ Hv).
      + by rewrite (visitInst_bodies_filter gfxIp D s id s' HD Hv).
    - split; [done|]. simpl.
      rewrite <- (list_fmap_id (moduleFuncs module)) at 2.
      apply list_fmap_ext. intros k body Hk. simpl.
      assert (Hall : ∀ x, x ∈ body → x ∈ D).
      { intros x Hx. apply elem_of_dom. eapply Hlive; [|done].
        by eapply list_elem_of_lookup_2. }
      clear Hk. induction body as [|x body IH]; [done|].
      rewrite filter_cons_True by (apply Hall; left).
      rewrite IH; [done|]. intros y Hy. apply Hall. by right. }
  destruct HP as [HD Hfuncs].
  rewrite eraseInsts_funcs.
  intros f body Hf. rewrite <- Hfuncs, list_lookup_fmap in Hf.
  destruct (moduleFuncs (m_pModule self1) !! f) as [b1|] eqn:Hb1; [|done].
  injection Hf as <-. rewrite list_lookup_fmap, Hb1. simpl.
  eexists. split; [done|].
  rewrite !list_filter_filter. apply list_filter_iff. intros x.
  rewrite eraseInsts_dom, list_to_set_elements_L, elem_of_difference, elem_of_elements.
  split; [intros [Hx Hn]; split; [split|]; auto|tauto].
Qed.

(** *** The visitor does not stop on a well-formed module *)

Lemma visitStages_progress (P : PatchImageOp → Prop) gfxIp :
  (∀ self id, P self → is_Some (visitInst gfxIp self id)) →
  (∀ self id self', P self → visitInst gfxIp self id = Some self' → P self') →
  ∀ entryPoints self, P self →
    ∃ self', visitStages gfxIp self entryPoints = Some self' ∧ P self'.
Proof.
  intros Hprog Hstep.
  assert (Hinsts : ∀ ids self, P self →
            ∃ self', visitInsts gfxIp self ids = Some self' ∧ P self').
  { induction ids as [|id ids IH]; simpl; intros self HP; [by exists self|].
    destruct (Hprog self id HP) as [s1 H1]. rewrite H1. simpl.
    apply IH. by eapply Hstep. }
  induction entryPoints as [|[f|] eps IH]; simpl; intros self HP; [by exists self| |by apply IH].
  assert (∃ s1, visit gfxIp self f = Some s1 ∧ P s1) as (s1 & -> & HP1).
  { unfold visit. destruct (moduleFuncs (m_pModule self) !! f); [by apply Hinsts|by exists self]. }
  simpl. by apply IH.
Qed.

Lemma WellFormedImageCall_subst gfxIp id new operandList :
  WellFormedImageCall gfxIp operandList →
  WellFormedImageCall gfxIp (substValue id new <$> operandList).
Proof.
  intros (meta & Hmeta & Hlen). exists meta.
  rewrite decodeMetadata_subst, length_fmap. done.
Qed.

Lemma WellFormed_visit gfxIp self id :
  WellFormedModule gfxIp (m_pModule self) → is_Some (visitInst gfxIp self id).
Proof.
  intros Hwf. unfold visitInst.
  destruct (moduleInsts (m_pModule self) !! id) as [[ty op]|] eqn:Hid; [|by eexists].
  destruct op as [[nm|] ops| | | |]; try by eexists.
  unfold visitCallInst.
  destruct (startswith nm ImageCallPrefix) eqn:Hpre; [|by eexists].
  destruct (Hwf _ _ _ _ Hid Hpre) as (meta & -> & Hlen). simpl.
  destruct (isBufferSizeQuery meta); [by eexists|].
  destruct (isBufferOffsetOp meta); [|by eexists].
  destruct (patchTexelOffset gfxIp self id ops) eqn:E; [by eexists|].
  apply patchTexelOffset_None in E as [H9 Hlt]. specialize (Hlen eq_refl eq_refl H9). lia.
Qed.

Section WellFormedScan.
Variable gfxIp : GfxIpVersion.
Hypothesis HgetpcName : startswith "llvm.amdgcn.s.getpc" ImageCallPrefix = false.
Hypothesis HzeroMeta : isBufferOffsetOp {| U32All := 0 |} = false.

Lemma WellFormedImageCall_patch operandList meta bits val pTexelOffset :
  decodeMetadata operandList = Some meta →
  isBufferOffsetOp meta = true →
  operandList !! 3%nat = Some (ConstantInt bits val) →
  toU32 (getZExtValue val) = 0 →
  WellFormedImageCall gfxIp operandList →
  WellFormedImageCall gfxIp (<[3%nat := InstResult pTexelOffset]> operandList).
Proof using HzeroMeta.
  intros Hmeta Hb H3 Hz (meta' & Hmeta' & Hlen).
  rewrite Hmeta in Hmeta'. injection Hmeta' as <-.
  exists meta. rewrite length_insert. split; [|done].
  unfold decodeMetadata in *. rewrite length_insert.
  destruct (decide (2 ≤ length operandList)%nat); [|done].
  destruct (decide (length operandList - 1 = 3)%nat) as [E|E].
  - rewrite E, H3 in Hmeta. injection Hmeta as <-.
    rewrite Hz in Hb. congruence.
  - by rewrite list_lookup_insert_ne.
Qed.

Lemma WellFormed_step self id self' :
  WellFormedModule gfxIp (m_pModule self) →
  visitInst gfxIp self id = Some self' →
  WellFormedModule gfxIp (m_pModule self').
Proof using HgetpcName HzeroMeta.
  intros Hwf Hv. apply visitInst_cases in Hv as [[-> _]|[Ha|Hb]]; [done| |].
  - destruct Ha as (ty & nm & ops & meta & Hid & Hpre & _ & _ & Hle & ->).
    destruct (patchBufferSizeQuery_store gfxIp self id ty nm ops Hle)
      as (new & callName & Hnew & _ & Hst & _ & _).
    intros j tyj nmj opsj Hj Hprej. rewrite Hst in Hj. case_decide.
    + simplify_eq. apply WellFormedImageCall_subst. by eapply Hwf.
    + apply fmap_Some in Hj as ([ty0 op0] & Hi0 & Heq).
      destruct op0 as [c0 a0| | | |]; try done.
      unfold substInst in Heq. simpl in Heq. simplify_eq.
      apply WellFormedImageCall_subst. by eapply Hwf.
  - destruct Hb as (ty & nm & ops & meta & bits & val & Hid & Hpre & Hmeta & _ & Hb & _ & H3 & Hz & ->).
    destruct (texelOffsetPatched_store self id ty (Some nm) ops Hid)
      as (p1 & p2 & p3 & p4 & _ & _ & _ & _ & _ & Hst & _ & _).
    intros j tyj nmj opsj Hj Hprej. rewrite Hst, !lookup_insert in Hj.
    repeat case_decide; simplify_eq.
    + eapply WellFormedImageCall_patch; [done..|]. by eapply Hwf.
    + congruence.
    + by eapply Hwf.
Qed.

End WellFormedScan.

(** X11: [runOnModule] returns, with the flag [true], on every module in
    which each recognized call has readable metadata and, where the texel
    offset rule reads operand 3, at least four operands; and its output is
    such a module again. The declarations are taken such that the image-call
    prefix does not start the name of the program-counter intrinsic and an
    all-zero metadata word does not select the texel offset rule. *)
Theorem pass_returns_on_well_formed_module gfxIp entryPoints module :
  startswith "llvm.amdgcn.s.getpc" ImageCallPrefix = false →
  isBufferOffsetOp {| U32All := 0 |} = false →
  WellFormedModule gfxIp module →
  ∃ module', runOnModule gfxIp entryPoints module = Some (module', true) ∧
             WellFormedModule gfxIp module'.
Proof.
  intros Hname Hzero Hwf.
  destruct (visitStages_progress (λ s, WellFormedModule gfxIp (m_pModule s)) gfxIp
              (λ self id, WellFormed_visit gfxIp self id)
              (WellFormed_step gfxIp Hname Hzero) entryPoints
              {| m_pModule := module; m_imageCalls := ∅ |} Hwf) as (self1 & Hscan & Hwf1).
  unfold runOnModule. rewrite Hscan. simpl. eexists. split; [done|].
  intros j ty nm ops Hj Hpre. apply eraseInsts_lookup_Some in Hj. by eapply Hwf1.
Qed.

(** *** The value of the synthesized texel offset *)

Lemma NonConstantZeroAt_value m p pc :
  NonConstantZeroAt m p → 0 ≤ pc < 2 ^ 64 →
  evalValue 4 m pc (InstResult p) = Some (RtInt (pc / 2 ^ 56)).
Proof.
  intros (pPc & pPcCast & pPcHigh & H4 & H3 & H2 & H1) Hpc.
  cbn [evalValue]. rewrite H4. cbn [mbind option_bind instOp instType evalValue].
  rewrite H3. cbn [mbind option_bind instOp instType evalValue].
  rewrite H2. cbn [mbind option_bind instOp instType evalValue].
  rewrite H1. cbn [mbind option_bind instOp instType evalValue].
  rewrite decide_True by done. simpl. do 2 f_equal.
  rewrite Z.shiftr_div_pow2 by lia.
  assert (0 ≤ pc / 2 ^ 32 < 2 ^ 32) as Hq.
  { split; [apply Z.div_pos; lia|]. apply Z.div_lt_upper_bound; lia. }
  rewrite Z.mod_small by lia.
  rewrite Z.div_div by lia. f_equal.
Qed.

(** X12: the operand that the texel offset rule puts in the place of a
    constant zero evaluates to the top byte of the 64-bit program counter
    (bits 56 to 63); it is zero exactly when the program counter is below
    [2^56], which is what the note in the source relies on. *)
Theorem synthesized_offset_is_the_top_byte_of_the_program_counter
    gfxIp self callInst ty mangledName operandList meta bits val pc :
  moduleInsts (m_pModule self) !! callInst
    = Some {| instType := ty; instOp := Call (Some mangledName) operandList |} →
  startswith mangledName ImageCallPrefix = true →
  decodeMetadata operandList = Some meta →
  isBufferSizeQuery meta = false →
  isBufferOffsetOp meta = true →
  major gfxIp = 9 →
  operandList !! 3%nat = Some (ConstantInt bits val) →
  val mod 2 ^ 32 = 0 →
  0 ≤ pc < 2 ^ 64 →
  ∃ self' pTexelOffset operandList',
    visitInst gfxIp self callInst = Some self' ∧
    moduleInsts (m_pModule self') !! callInst
      = Some {| instType := ty; instOp := Call (Some mangledName) operandList' |} ∧
    operandList' !! 3%nat = Some (InstResult pTexelOffset) ∧
    evalValue 4 (m_pModule self') pc (InstResult pTexelOffset) = Some (RtInt (pc / 2 ^ 56)) ∧
    (evalValue 4 (m_pModule self') pc (InstResult pTexelOffset) = Some (RtInt 0)
     ↔ pc < 2 ^ 56).
Proof.
  intros Hc Hpre Hmeta Ha Hb H9 H3 Hz Hpc.
  assert (Hv : visitInst gfxIp self callInst = Some (texelOffsetPatched self callInst)).
  { rewrite (visitInst_call _ _ _ _ _ _ Hc). unfold visitCallInst.
    rewrite Hpre, Hmeta. simpl. rewrite Ha, Hb.
    by eapply patchTexelOffset_zero. }
  destruct (texelOffsetPatched_OffsetPatched self callInst ty mangledName operandList Hc)
    as (p & Hcp & Hp).
  pose proof (NonConstantZeroAt_value _ _ pc Hp Hpc) as Hval.
  exists (texelOffsetPatched self callInst), p, (<[3%nat := InstResult p]> operandList).
  split; [done|]. split; [done|].
  split; [apply list_lookup_insert_eq; by eapply lookup_lt_Some|].
  split; [done|]. rewrite Hval. split.
  - intros [= Hq]. apply Z.div_small_iff in Hq; lia.
  - intros Hlt. do 2 f_equal. apply Z.div_small. lia.
Qed.

(** *** The call that replaces a buffer size query *)

Lemma startswith_app s pre suffix :
  startswith s pre = true → startswith (s +:+ suffix) pre = true.
Proof.
  unfold startswith. revert pre. induction s as [|b s IH]; intros [|a pre]; simpl; try done.
  - by destruct suffix.
  - destruct (ascii_dec a b); [apply IH|done].
Qed.

(** X13: on generations up to 8 the call that replaces a buffer size query
    is itself a call the size query rule selects: its name still starts with
    the image-call prefix and it carries the same metadata; visiting it
    replaces it in turn and schedules it for erasure. *)
Theorem replacement_is_again_a_buffer_size_query
    gfxIp self callInst ty mangledName operandList meta :
  moduleInsts (m_pModule self) !! callInst
    = Some {| instType := ty; instOp := Call (Some mangledName) operandList |} →
  startswith mangledName ImageCallPrefix = true →
  decodeMetadata operandList = Some meta →
  SizeQuerySelector meta →
  major gfxIp ≤ 8 →
  ∃ self' pImageCall i self'',
    visitInst gfxIp self callInst = Some self' ∧
    moduleInsts (m_pModule self) !! pImageCall = None ∧
    moduleInsts (m_pModule self') !! pImageCall = Some i ∧
    instType i = ty ∧
    IsBufferSizeQueryCall i ∧
    visitInst gfxIp self' pImageCall = Some self'' ∧
    pImageCall ∈ m_imageCalls self''.
Proof.
  intros Hc Hpre Hmeta Hsel Hle.
  pose proof (visitInst_size_query gfxIp _ _ _ _ _ _ Hc Hpre Hmeta Hsel) as Hv.
  destruct (patchBufferSizeQuery_store gfxIp self callInst ty mangledName operandList Hle)
    as (new & callName & Hnew & -> & Hst & _ & _).
  set (self' := patchBufferSizeQuery gfxIp self callInst ty mangledName operandList) in *.
  assert (Hi : moduleInsts (m_pModule self') !! new
               = Some {| instType := ty;
                         instOp := Call (Some (mangledName +:+
                                                 (if major gfxIp =? 8 then ".gfx8" else ".gfx6")))
                                        (substValue callInst new <$> operandList) |}).
  { rewrite Hst. by rewrite decide_True. }
  assert (Hpre' : startswith (mangledName +:+ (if major gfxIp =? 8 then ".gfx8" else ".gfx6"))
                    ImageCallPrefix = true) by (by apply startswith_app).
  assert (Hmeta' : decodeMetadata (substValue callInst new <$> operandList) = Some meta)
    by (by rewrite decodeMetadata_subst).
  pose proof (visitInst_size_query gfxIp _ _ _ _ _ _ Hi Hpre' Hmeta' Hsel) as Hv'.
  eexists self', new, _, _.
  split; [exact Hv|]. split; [exact Hnew|]. split; [exact Hi|]. split; [done|].
  split; [by eexists _, _, meta|]. split; [exact Hv'|].
  rewrite patchBufferSizeQuery_le8 by done. simpl. set_solver.
Qed.

(** *** What the final loop erases *)

Lemma Scheduled_step gfxIp self id self' :
  (∀ c, c ∈ m_imageCalls self →
        is_Some (moduleInsts (m_pModule self) !! c) ∧ NoUseOf c (m_pModule self)) →
  visitInst gfxIp self id = Some self' →
  (∀ c, c ∈ m_imageCalls self' →
        is_Some (moduleInsts (m_pModule self') !! c) ∧ NoUseOf c (m_pModule self')).
Proof.
  intros Hsched Hv.
  pose proof (proj1 (visitInst_store_grows _ _ _ _ Hv)) as Hgrow.
  apply visitInst_cases in Hv as [[-> _]|[Ha|Hb]]; [done| |].
  - destruct Ha as (ty & nm & ops & meta & Hid & _ & _ & _ & Hle & ->).
    rewrite patchBufferSizeQuery_le8 in * by done.
    intros c Hc. simpl in Hc.
    assert (Hsome : is_Some (moduleInsts (m_pModule self) !! c)).
    { apply elem_of_union in Hc as [->%elem_of_singleton|Hc]; [by eexists|].
      by apply Hsched. }
    split; [by apply Hgrow|].
    eapply NoUseOf_after_replace; [done|exact Hid| |done].
    intros Hne. apply Hsched. set_solver.
  - destruct Hb as (ty & nm & ops & meta & bits & val & Hid & _ & _ & _ & _ & _ & H3 & _ & ->).
    destruct (texelOffsetPatched_store self id ty (Some nm) ops Hid)
      as (p1 & p2 & p3 & p4 & Hnd & Hn1 & Hn2 & Hn3 & Hn4 & Hst & Hfn & Hpend).
    intros c Hc. rewrite Hpend in Hc. destruct (Hsched c Hc) as [[ic Hsome] Huse].
    split; [apply Hgrow; by eexists|].
    intros j i Hj Hd. rewrite Hst, !lookup_insert in Hj.
    repeat case_decide; try (injection Hj as <-); simpl in Hd.
    + apply list_elem_of_insert_inv in Hd as [[= ->]|Hd]; [congruence|].
      by apply (Huse id {| instType := ty; instOp := Call (Some nm) ops |}).
    + rewrite !elem_of_cons, elem_of_nil in Hd. naive_solver congruence.
    + rewrite !elem_of_cons, elem_of_nil in Hd. naive_solver congruence.
    + rewrite !elem_of_cons, elem_of_nil in Hd. naive_solver congruence.
    + by apply elem_of_nil in Hd.
    + by apply (Huse j i).
Qed.

(** X14: when the final loop runs, every call it erases is a live
    instruction that no operand uses any more: the uses of a call are
    redirected when it is scheduled, and nothing the pass does afterwards
    uses it. So the loop never erases a call that still has users, and no
    instruction of the output uses an erased call. *)
Theorem final_loop_erases_only_unused_calls gfxIp entryPoints module self' :
  visitStages gfxIp (scan module) entryPoints = Some self' →
  ∀ c, c ∈ m_imageCalls self' →
    is_Some (moduleInsts (m_pModule self') !! c) ∧
    NoUseOf c (m_pModule self') ∧
    NoUseOf c (m_pModule (eraseImageCalls self')).
Proof.
  intros Hscan c Hc.
  assert (H0 : ∀ d, d ∈ m_imageCalls (scan module) →
                    is_Some (moduleInsts (m_pModule (scan module)) !! d) ∧
                    NoUseOf d (m_pModule (scan module))).
  { simpl. set_solver. }
  destruct (visitStages_invariant _ gfxIp (Scheduled_step gfxIp) entryPoints _ _ H0 Hscan
              c Hc) as [Hsome Huse].
  split; [done|]. split; [done|].
  intros j i Hj. simpl in Hj. apply eraseInsts_lookup_Some in Hj. by apply (Huse j i).
Qed.

(** *** What is true of a call once the visitor has met it *)

Lemma visitStages_established (P : PatchImageOp → Prop) gfxIp (c : InstId) :
  (∀ self id self', P self → visitInst gfxIp self id = Some self' → P self') →
  (∀ self self', visitInst gfxIp self c = Some self' → P self') →
  ∀ entryPoints self self' f,
    visitStages gfxIp self entryPoints = Some self' →
    Some f ∈ entryPoints → HasInBody (m_pModule self) f c → P self'.
Proof.
  intros Hstep Hvisit.
  assert (Hinsts : ∀ ids self self',
            visitInsts gfxIp self ids = Some self' → c ∈ ids → P self').
  { induction ids as [|id ids IH]; simpl; intros self self' Hv Hin.
    - by apply elem_of_nil in Hin.
    - destruct (visitInst gfxIp self id) as [s1|] eqn:H1; [|done]. simpl in Hv.
      destruct (decide (c ∈ ids)) as [?|Hnin]; [by eapply IH|].
      apply elem_of_cons in Hin as [<-|?]; [|done].
      eapply (visitInsts_invariant P gfxIp Hstep ids s1 self'); [|done]. by eapply Hvisit. }
  induction entryPoints as [|[g|] eps IH]; simpl; intros self self' f Hv Hf Hbody.
  - by apply elem_of_nil in Hf.
  - destruct (visit gfxIp self g) as [s1|] eqn:H1; [|done]. simpl in Hv.
    destruct (decide (Some f ∈ eps)) as [Hin|Hnin].
    + eapply (IH s1 self' f); [done..|].
      eapply HasInBody_grow; [|done]. by eapply visit_BodiesGrow.
    + apply elem_of_cons in Hf as [[= ->]|?]; [|done].
      eapply (visitStages_invariant P gfxIp Hstep eps s1 self'); [|done].
      destruct Hbody as (body & Hb & Hin). unfold visit in H1. rewrite Hb in H1.
      by eapply Hinsts.
  - apply elem_of_cons in Hf as [?|Hf]; [done|]. by eapply IH.
Qed.

(** X15: after the pass on generation 9, no recognized call of an entry
    point whose metadata selects the texel offset rule (and not the size
    query rule) has as operand 3 an integer constant whose low 32 bits are
    all zero. *)
Theorem no_constant_zero_offset_left_on_generation_9
    gfxIp entryPoints module module' flag f c ty mangledName operandList meta :
  major gfxIp = 9 →
  runOnModule gfxIp entryPoints module = Some (module', flag) →
  Some f ∈ entryPoints →
  HasInBody module f c →
  moduleInsts module' !! c
    = Some {| instType := ty; instOp := Call (Some mangledName) operandList |} →
  startswith mangledName ImageCallPrefix = true →
  decodeMetadata operandList = Some meta →
  isBufferSizeQuery meta = false →
  isBufferOffsetOp meta = true →
  ∀ bits val, operandList !! 3%nat = Some (ConstantInt bits val) →
              toU32 (getZExtValue val) ≠ 0.
Proof.
  intros H9 Hrun Hf Hbody Hc Hpre Hmeta Ha Hb bits val H3.
  unfold runOnModule in Hrun.
  destruct (visitStages gfxIp {| m_pModule := module; m_imageCalls := ∅ |} entryPoints)
    as [self1|] eqn:Hscan; [|done].
  simpl in Hrun. injection Hrun as <- <-.
  pose proof (visitStages_no_replacement_from_9 gfxIp _ _ _ ltac:(lia) Hscan) as Hpend.
  simpl in Hpend, Hc. rewrite Hpend, elements_empty in Hc. simpl in Hc.
  set (P := λ s : PatchImageOp,
         ∀ ty nm ops meta bits val,
           moduleInsts (m_pModule s) !! c
             = Some {| instType := ty; instOp := Call (Some nm) ops |} →
           startswith nm ImageCallPrefix = true →
           decodeMetadata ops = Some meta →
           isBufferSizeQuery meta = false →
           isBufferOffsetOp meta = true →
           ops !! 3%nat = Some (ConstantInt bits val) →
           toU32 (getZExtValue val) ≠ 0).
  assert (Hpatched : ∀ s id ty0 nm0 ops0,
            moduleInsts (m_pModule s) !! id
              = Some {| instType := ty0; instOp := Call (Some nm0) ops0 |} →
            ops0 !! 3%nat ≠ None →
            (id ≠ c → P s) → P (texelOffsetPatched s id)).
  { intros s id ty0 nm0 ops0 Hid Hlen HP ty1 nm1 ops1 meta1 bits1 val1 Hc1.
    destruct (texelOffsetPatched_store s id ty0 (Some nm0) ops0 Hid)
      as (p1 & p2 & p3 & p4 & _ & _ & _ & _ & _ & Hst & _ & _).
    rewrite Hst, !lookup_insert in Hc1.
    repeat case_decide; simplify_eq.
    - intros _ _ _ _ H3'. rewrite list_lookup_insert_eq in H3'; [done|].
      apply lookup_lt_is_Some. by destruct (ops0 !! 3%nat).
    - by intros _ _ _ _ ?.
    - by eapply HP. }
  assert (HP : P self1).
  { apply (visitStages_established P gfxIp c) with (entryPoints := entryPoints)
      (self := {| m_pModule := module; m_imageCalls := ∅ |}) (f := f); [| |done..].
    - intros s id s' HPs Hv. apply visitInst_cases in Hv as [[-> _]|[Hx|Hy]]; [done| |].
      + destruct Hx as (? & ? & ? & ? & _ & _ & _ & _ & Hle & _). lia.
      + destruct Hy as (ty0 & nm0 & ops0 & m0 & b0 & v0 & Hid & _ & _ & _ & _ & _ & H30 & _ & ->).
        eapply Hpatched; [done|by rewrite H30|done].
    - intros s s' Hv. apply visitInst_cases in Hv as [[-> Hq]|[Hx|Hy]].
      + intros ty1 nm1 ops1 meta1 bits1 val1 Hc1 Hpre1 Hmeta1 Ha1 Hb1 H31 Hz.
        specialize (Hq _ Hc1 s c). cbn [QuietInst instOp instType] in Hq.
        unfold visitCallInst in Hq. rewrite Hpre1, Hmeta1 in Hq. simpl in Hq.
        rewrite Ha1, Hb1 in Hq.
        rewrite (patchTexelOffset_zero gfxIp s c ops1 bits1 val1 H9 H31) in Hq.
        2:{ unfold toU32, getZExtValue in Hz.
            rewrite <- Hz. symmetry. apply Z.mod_mod_divide. exists (2 ^ 32). lia. }
        destruct (texelOffsetPatched_store s c ty1 (Some nm1) ops1 Hc1)
          as (p1 & p2 & p3 & p4 & Hnd & _ & _ & _ & Hn4 & Hst & _ & _).
        injection Hq as Hq. rewrite Hq in Hst. rewrite Hst in Hn4.
        assert (c ≠ p4) as Hne.
        { clear -Hnd. rewrite !NoDup_cons, !elem_of_cons, elem_of_nil in Hnd.
          intros ->. tauto. }
        rewrite lookup_insert_ne, lookup_insert_eq in Hn4 by done. done.
      + destruct Hx as (? & ? & ? & ? & _ & _ & _ & _ & Hle & _). lia.
      + destruct Hy as (ty0 & nm0 & ops0 & m0 & b0 & v0 & Hid & _ & _ & _ & _ & _ & H30 & _ & ->).
        eapply Hpatched; [done|by rewrite H30|done]. }
  by eapply (HP ty mangledName operandList meta bits val).
Qed.

(** *** The body of a function that is not an entry point *)

Lemma insertBefore_notin pos new body : pos ∉ body → insertBefore pos new body = body.
Proof.
  induction body as [|x body IH]; simpl; [done|].
  rewrite not_elem_of_cons. intros [Hne Hn].
  rewrite decide_False by done. by rewrite IH.
Qed.

Lemma filter_all {A} (P : A → Prop) `{!∀ x, Decision (P x)} (l : list A) :
  (∀ x, x ∈ l → P x) → filter P l = l.
Proof.
  induction l as [|x l IH]; [done|]. intros Hall.
  rewrite filter_cons_True by (apply Hall; left).
  rewrite IH; [done|]. intros y Hy. apply Hall. by right.
Qed.

(** X16: the body of a function none of whose instructions is in an entry
    point is, after the pass, the list it was: nothing is inserted into it
    and nothing is erased from it. *)
Theorem body_outside_entry_points_is_unchanged
    gfxIp entryPoints module module' flag f body :
  runOnModule gfxIp entryPoints module = Some (module', flag) →
  moduleFuncs module !! f = Some body →
  (∀ x, x ∈ body → is_Some (moduleInsts module !! x)) →
  (∀ x g, x ∈ body → Some g ∈ entryPoints → ¬ HasInBody module g x) →
  moduleFuncs module' !! f = Some body.
Proof.
  intros Hrun Hf Hlive Hout. unfold runOnModule in Hrun.
  destruct (visitStages gfxIp {| m_pModule := module; m_imageCalls := ∅ |} entryPoints)
    as [self1|] eqn:Hscan; [|done].
  simpl in Hrun. injection Hrun as <- <-.
  set (V := λ x : InstId, (∃ g, Some g ∈ entryPoints ∧ HasInBody module g x)
                          ∨ moduleInsts module !! x = None).
  assert (HV : ∀ x, x ∈ body → ¬ V x).
  { intros x Hx [(g & Hg & Hb)|Hnone]; [by eapply Hout|].
    destruct (Hlive x Hx) as [? ?]. congruence. }
  set (P := λ s : PatchImageOp,
         BodiesFrom module s ∧ moduleFuncs (m_pModule s) !! f = Some body ∧
         ∀ d, d ∈ m_imageCalls s → V d).
  assert (HP : P self1).
  { apply (visitStages_invariant_visited P V gfxIp entryPoints)
      with (entryPoints := entryPoints)
           (self := {| m_pModule := module; m_imageCalls := ∅ |}); [| |done| |done].
    - intros s g body' x ([_ Hbody] & _) Hg Hb Hx.
      destruct (Hbody g body' Hb) as (body0 & Hb0 & Hin).
      destruct (Hin x Hx) as [?|?]; [left|by right].
      exists g. split; [done|]. by exists body0.
    - intros s id s' (Hfrom & Hfs & Hsched) Hid Hv.
      split; [by eapply BodiesFrom_step|].
      assert (Hnin : id ∉ body) by (intros Hin; by apply (HV id)).
      apply visitInst_cases in Hv as [[-> _]|[Ha|Hb]]; [done| |].
      + destruct Ha as (ty & nm & ops & meta & _ & _ & _ & _ & Hle & ->).
        destruct (patchBufferSizeQuery_store gfxIp s id ty nm ops Hle)
          as (new & callName & _ & _ & _ & -> & ->).
        split.
        * rewrite list_lookup_fmap, Hfs. simpl. by rewrite insertBefore_notin.
        * intros d [->%elem_of_singleton|?]%elem_of_union; auto.
      + destruct Hb as (ty & nm & ops & meta & bits & val & Hc & _ & _ & _ & _ & _ & _ & _ & ->).
        destruct (texelOffsetPatched_store s id ty (Some nm) ops Hc)
          as (p1 & p2 & p3 & p4 & _ & _ & _ & _ & _ & _ & -> & ->).
        split; [|done].
        rewrite !list_lookup_fmap, Hfs. simpl.
        by rewrite !(insertBefore_notin id _ body) by done.
    - split; [apply BodiesFrom_refl|]. split; [done|]. simpl. set_solver. }
  destruct HP as (_ & Hfs & Hsched). simpl.
  rewrite eraseInsts_funcs, list_lookup_fmap, Hfs. simpl. f_equal.
  apply filter_all. intros x Hx Hin. apply (HV x Hx), Hsched. by apply elem_of_elements.
Qed.

(** *** Where a use of an instruction points after the pass *)

Lemma UsesFollowed_step gfxIp (module : Module) self id self' :
  (∀ j i, moduleInsts module !! j = Some i →
     ∃ i', moduleInsts (m_pModule self) !! j = Some i' ∧
           KeepsShape gfxIp (λ d, d ∈ m_imageCalls self)
             (λ d, moduleInsts module !! d = None) i i') ∧
  m_imageCalls self ⊆ dom (moduleInsts (m_pModule self)) ∧
  (∀ j i k d id0,
     moduleInsts module !! j = Some i →
     operands (instOp i) !! k = Some (InstResult d) →
     moduleInsts module !! d = Some id0 →
     ∃ i' d',
       moduleInsts (m_pModule self) !! j = Some i' ∧
       operands (instOp i') !! k = Some (InstResult d') ∧
       (((d ∉ m_imageCalls self) ∧ d' = d)
        ∨ (d ∈ m_imageCalls self ∧ (d' ∉ m_imageCalls self) ∧
           moduleInsts module !! d' = None ∧
           ∃ r nm ops,
             moduleInsts (m_pModule self) !! d' = Some r ∧
             instType r = instType id0 ∧
             instOp r = Call (Some nm) ops ∧
             startswith nm ImageCallPrefix = true))) →
  visitInst gfxIp self id = Some self' →
  (∀ j i, moduleInsts module !! j = Some i →
     ∃ i', moduleInsts (m_pModule self') !! j = Some i' ∧
           KeepsShape gfxIp (λ d, d ∈ m_imageCalls self')
             (λ d, moduleInsts module !! d = None) i i') ∧
  m_imageCalls self' ⊆ dom (moduleInsts (m_pModule self')) ∧
  (∀ j i k d id0,
     moduleInsts module !! j = Some i →
     operands (instOp i) !! k = Some (InstResult d) →
     moduleInsts module !! d = Some id0 →
     ∃ i' d',
       moduleInsts (m_pModule self') !! j = Some i' ∧
       operands (instOp i') !! k = Some (InstResult d') ∧
       (((d ∉ m_imageCalls self') ∧ d' = d)
        ∨ (d ∈ m_imageCalls self' ∧ (d' ∉ m_imageCalls self') ∧
           moduleInsts module !! d' = None ∧
           ∃ r nm ops,
             moduleInsts (m_pModule self') !! d' = Some r ∧
             instType r = instType id0 ∧
             instOp r = Call (Some nm) ops ∧
             startswith nm ImageCallPrefix = true))).
Proof.
  intros (Hstable & Hlive & Huses) Hv.
  split; [by eapply KeepsShape_step|].
  assert (Hgrow : ∀ x, is_Some (moduleInsts (m_pModule self) !! x) →
                       is_Some (moduleInsts (m_pModule self') !! x))
    by apply (visitInst_store_grows _ _ _ _ Hv).
  assert (Hfresh : ∀ p, moduleInsts (m_pModule self) !! p = None →
                        moduleInsts module !! p = None ∧ p ∉ m_imageCalls self).
  { intros p Hp. split.
    - destruct (moduleInsts module !! p) as [ip|] eqn:Hp0; [|done].
      destruct (Hstable p ip Hp0) as (? & ? & _). congruence.
    - intros Hin. apply Hlive, elem_of_dom in Hin as [? ?]. congruence. }
  apply visitInst_cases in Hv as [[-> _]|[Ha|Hb]]; [done| |].
  - destruct Ha as (ty & nm & ops & meta & Hid & Hpre & _ & _ & Hle & ->).
    destruct (patchBufferSizeQuery_store gfxIp self id ty nm ops Hle)
      as (new & callName & Hnew & -> & Hst & _ & Hpend).
    destruct (Hfresh new Hnew) as [Hnew0 HnewE].
    assert (Hni : new ≠ id) by (intros ->; congruence).
    assert (Hrep : ∀ id0, ty = instType id0 →
              (new ∉ {[id]} ∪ m_imageCalls self) ∧ moduleInsts module !! new = None ∧
              ∃ r nm' ops',
                moduleInsts (m_pModule (patchBufferSizeQuery gfxIp self id ty nm ops)) !! new
                  = Some r ∧
                instType r = instType id0 ∧ instOp r = Call (Some nm') ops' ∧
                startswith nm' ImageCallPrefix = true).
    { intros id0 Hty. split; [set_solver|]. split; [done|].
      eexists _, _, _. rewrite Hst, decide_True by done.
      split; [done|]. split; [exact Hty|]. split; [done|]. by apply startswith_app. }
    split.
    { rewrite Hpend. intros x [->%elem_of_singleton|Hx]%elem_of_union.
      - apply elem_of_dom, Hgrow. by eexists.
      - apply elem_of_dom, Hgrow, elem_of_dom. by apply Hlive. }
    intros j i k d id0 Hj Hk Hd.
    destruct (Huses j i k d id0 Hj Hk Hd) as (i1 & d1 & Hi1 & Hk1 & Hcase).
    assert (Hjn : new ≠ j) by (intros ->; congruence).
    exists (substInst id new i1), (if decide (d1 = id) then new else d1).
    rewrite Hst, decide_False by done. rewrite Hi1.
    split; [done|]. split.
    { simpl. rewrite operands_mapOperands, list_lookup_fmap, Hk1. simpl.
      by destruct (decide (d1 = id)). }
    rewrite Hpend.
    destruct Hcase as [[HdE ->]|(HdE & Hd1E & Hd10 & r & nm1 & ops1 & Hr & Hty & Hop & Hpre1)].
    + case_decide as Hdi.
      * subst d. right. split; [set_solver|].
        destruct (Hstable _ _ Hd) as (ic & Hic & Hty & _).
        rewrite Hid in Hic. injection Hic as <-. by apply Hrep.
      * left. split; [set_solver|done].
    + right. split; [set_solver|]. case_decide as Hdi.
      * subst d1. rewrite Hid in Hr. injection Hr as <-. by apply Hrep.
      * split; [set_solver|]. split; [done|].
        exists (substInst id new r), nm1, (substValue id new <$> ops1).
        rewrite Hst, decide_False by (intros ->; congruence). rewrite Hr.
        split; [done|]. split; [done|]. split; [simpl; by rewrite Hop|done].
  - destruct Hb as (ty & nm & ops & meta & bits & val & Hid & Hpre & _ & _ & _ & _ & H3 & _ & ->).
    destruct (texelOffsetPatched_store self id ty (Some nm) ops Hid)
      as (p1 & p2 & p3 & p4 & _ & Hn1 & Hn2 & Hn3 & Hn4 & Hst & _ & Hpend).
    rewrite Hpend.
    split.
    { intros x Hx. apply elem_of_dom, Hgrow, elem_of_dom. by apply Hlive. }
    assert (Hother : ∀ x ix, x ≠ id → moduleInsts (m_pModule self) !! x = Some ix →
              moduleInsts (m_pModule (texelOffsetPatched self id)) !! x = Some ix).
    { intros x ix Hne Hx. rewrite Hst, !lookup_insert_ne by congruence. done. }
    assert (Hself : moduleInsts (m_pModule (texelOffsetPatched self id)) !! id
              = Some {| instType := ty;
                        instOp := Call (Some nm) (<[3%nat := InstResult p4]> ops) |}).
    { rewrite Hst. apply lookup_insert_eq. }
    intros j i k d id0 Hj Hk Hd.
    destruct (Huses j i k d id0 Hj Hk Hd) as (i1 & d1 & Hi1 & Hk1 & Hcase).
    assert (∃ i2, moduleInsts (m_pModule (texelOffsetPatched self id)) !! j = Some i2 ∧
                  operands (instOp i2) !! k = Some (InstResult d1)) as (i2 & Hi2 & Hk2).
    { destruct (decide (j = id)) as [->|Hne].
      - eexists. split; [exact Hself|]. rewrite Hid in Hi1. injection Hi1 as <-.
        simpl in *. rewrite list_lookup_insert_ne; [done|]. intros <-. congruence.
      - exists i1. split; [by apply Hother|done]. }
    exists i2, d1. split; [done|]. split; [done|].
    destruct Hcase as [?|(HdE & Hd1E & Hd10 & r & nm1 & ops1 & Hr & Hty & Hop & Hpre1)];
      [by left|right].
    split; [done|]. split; [done|]. split; [done|].
    destruct (decide (d1 = id)) as [->|Hne].
    + rewrite Hid in Hr. injection Hr as <-. simpl in Hop. injection Hop as <- <-.
      by eexists _, _, _.
    + exists r, nm1, ops1. split; [by apply Hother|done].
Qed.

(** X17: a use of an instruction of the input, in an instruction that
    survives the pass, is afterwards a use of the same instruction when that
    one survives; when it was erased, the use points to an instruction the
    pass created, which is in the output, has the result type of the erased
    one and is a call to a recognized name. *)
Theorem use_points_to_a_live_instruction_of_the_same_type
    gfxIp entryPoints module module' flag j i i' k d id0 :
  runOnModule gfxIp entryPoints module = Some (module', flag) →
  moduleInsts module !! j = Some i →
  operands (instOp i) !! k = Some (InstResult d) →
  moduleInsts module !! d = Some id0 →
  moduleInsts module' !! j = Some i' →
  ∃ d', operands (instOp i') !! k = Some (InstResult d') ∧
        ((is_Some (moduleInsts module' !! d) ∧ d' = d)
         ∨ (moduleInsts module' !! d = None ∧ moduleInsts module !! d' = None ∧
            ∃ r nm ops,
              moduleInsts module' !! d' = Some r ∧
              instType r = instType id0 ∧
              instOp r = Call (Some nm) ops ∧
              startswith nm ImageCallPrefix = true)).
Proof.
  intros Hrun Hj Hk Hd Hj'. unfold runOnModule in Hrun.
  destruct (visitStages gfxIp {| m_pModule := module; m_imageCalls := ∅ |} entryPoints)
    as [self1|] eqn:Hscan; [|done].
  simpl in Hrun. injection Hrun as <- <-. simpl in *.
  pose proof (visitStages_invariant _ gfxIp (UsesFollowed_step gfxIp module) entryPoints
                {| m_pModule := module; m_imageCalls := ∅ |} self1) as Hinv.
  destruct Hinv as (Hstable & Hlive & Huses); [|done|].
  { split; [|split; [simpl; set_solver|]].
    - intros j0 i0 Hj0. exists i0. split; [done|apply KeepsShape_refl].
    - intros j0 i0 k0 d0 id1 Hj0 Hk0 Hd0. exists i0, d0.
      split; [done|]. split; [done|]. left. simpl. split; [set_solver|done]. }
  destruct (Huses j i k d id0 Hj Hk Hd) as (i1 & d1 & Hi1 & Hk1 & Hcase).
  apply eraseInsts_lookup_Some in Hj'. rewrite Hi1 in Hj'. injection Hj' as <-.
  exists d1. split; [done|].
  destruct Hcase as [[HdE ->]|(HdE & Hd1E & Hd10 & r & nm1 & ops1 & Hr & Hty & Hop & Hpre1)].
  - left. split; [|done].
    rewrite eraseInsts_lookup_other by (by rewrite elem_of_elements).
    destruct (Hstable _ _ Hd) as (ic & Hic & _). by exists ic.
  - right. split; [apply eraseInsts_lookup_None; by apply elem_of_elements|].
    split; [done|]. exists r, nm1, ops1.
    split; [|done]. by rewrite eraseInsts_lookup_other by (by rewrite elem_of_elements).
Qed.

(** *** A call to a function that is not an image operation *)

(** X18: a call to a function whose name does not start with the image-call
    prefix is left alone by the visitor, whatever its operands (no operand
    count is asserted, no metadata is read); and after the whole pass it is
    still there with its callee and type, in the bodies it was in, its
    operands the same except where an operand was the result of an
    instruction erased by the pass. *)
Theorem unrecognized_call_is_kept :
  (∀ gfxIp self callInst ty mangledName operandList,
     startswith mangledName ImageCallPrefix = false →
     visitCallInst gfxIp self callInst ty (Some mangledName) operandList = Some self)
  ∧
  (∀ gfxIp entryPoints module module' flag callInst ty mangledName operandList,
     startswith mangledName ImageCallPrefix = false →
     runOnModule gfxIp entryPoints module = Some (module', flag) →
     moduleInsts module !! callInst
       = Some {| instType := ty; instOp := Call (Some mangledName) operandList |} →
     KeptThroughPass module module' callInst ty (Some mangledName) operandList).
Proof.
  assert (Hq : ∀ gfxIp self callInst ty mangledName operandList,
            startswith mangledName ImageCallPrefix = false →
            visitCallInst gfxIp self callInst ty (Some mangledName) operandList = Some self).
  { intros gfxIp self callInst ty mangledName operandList Hpre.
    unfold visitCallInst. by rewrite Hpre. }
  split; [exact Hq|].
  intros gfxIp entryPoints module module' flag callInst ty mangledName operandList
         Hpre Hrun Hc.
  eapply quiet_call_through_pass; [|exact Hrun|exact Hc].
  intros ops' _ self c. by apply Hq.
Qed.

End Properties.

(** ** The properties on the scenarios of the specification *)

Section Scenarios.

#[local] Existing Instance llpcAbi.

Lemma llpcAbi_distinct : EnumeratorsDistinct.
Proof. apply (bool_decide_unpack _). vm_compute. exact I. Qed.

Lemma write_buffer_selected : OffsetErratumSelector {| U32All := 326 |}.
Proof.
  split; [reflexivity|]. apply (bool_decide_unpack _). vm_compute. exact I.
Qed.

Lemma fetch_buffer_selected : OffsetErratumSelector {| U32All := 321 |}.
Proof.
  split; [reflexivity|]. apply (bool_decide_unpack _). vm_compute. exact I.
Qed.

Lemma buffer_size_query_by_generation_witness :
  (∃ self' args,
     visitInst (gfx 7) (scan moduleB) 1%positive = Some self' ∧
     moduleInsts (m_pModule self') !! 3%positive
       = Some {| instType := Int32Ty;
                 instOp := Call (Some "llpc.image.querynonlod.sizelod.Buffer.gfx6") args |} ∧
     1%positive ∈ m_imageCalls self') ∧
  runOnModule (gfx 9) [Some 0%nat] moduleB = Some (moduleB, true) ∧
  moduleInsts moduleB !! 1%positive
    = Some {| instType := Int32Ty;
              instOp := Call (Some "llpc.image.querynonlod.sizelod.Buffer")
                             [OtherValue 0; OtherValue 1; packMeta 3 5] |}.
Proof.
  split.
  - destruct (proj1 (buffer_size_query_by_generation (abi := llpcAbi))
                (gfx 7) (scan moduleB) 1%positive Int32Ty
                "llpc.image.querynonlod.sizelod.Buffer"
                [OtherValue 0; OtherValue 1; packMeta 3 5] {| U32All := 323 |}
                eq_refl eq_refl eq_refl (conj eq_refl eq_refl)) as (H67 & _ & _).
    destruct (H67 (or_intror eq_refl)) as (self' & args & Hv & _ & Hl & Hin).
    by exists self', args.
  - assert (Hrun : runOnModule (gfx 9) [Some 0%nat] moduleB = Some (moduleB, true))
      by (vm_compute; reflexivity).
    split; [exact Hrun|].
    apply (proj2 (buffer_size_query_by_generation (abi := llpcAbi))
             (gfx 9) [Some 0%nat] moduleB moduleB true 1%positive Int32Ty
             "llpc.image.querynonlod.sizelod.Buffer"
             [OtherValue 0; OtherValue 1; packMeta 3 5] {| U32All := 323 |}
             ltac:(simpl; lia) Hrun eq_refl eq_refl eq_refl (conj eq_refl eq_refl)).
Defined.

Lemma size_query_replaced_then_erased_witness :
  (∃ self', visitInst (gfx 7) (scan moduleB) 1%positive = Some self' ∧
            moduleInsts (m_pModule self') !! 3%positive
              = Some {| instType := Int32Ty;
                        instOp := Call (Some "llpc.image.querynonlod.sizelod.Buffer.gfx6")
                                       [OtherValue 0; OtherValue 1; packMeta 3 5] |} ∧
            moduleInsts (m_pModule self') !! 2%positive
              = Some {| instType := VoidTy; instOp := OtherInst [InstResult 3] |}) ∧
  (∃ module', runOnModule (gfx 7) [Some 0%nat] moduleB = Some (module', true) ∧
              moduleInsts module' !! 1%positive = None ∧
              (∀ body, body ∈ moduleFuncs module' → 1%positive ∉ body) ∧
              NoUseOf 1 module').
Proof.
  split.
  - destruct (proj1 (size_query_replaced_then_erased (abi := llpcAbi)) (gfx 7) (scan moduleB) 1%positive Int32Ty
                "llpc.image.querynonlod.sizelod.Buffer"
                [OtherValue 0; OtherValue 1; packMeta 3 5] {| U32All := 323 |}
                eq_refl eq_refl eq_refl (conj eq_refl eq_refl) ltac:(simpl; lia))
      as (self' & callName & pImageCall & Hv & -> & Hemit & _ & _ & _ & Hnew & Hother & _).
    apply (f_equal snd) in Hemit. vm_compute in Hemit. subst pImageCall.
    exists self'. split; [exact Hv|]. split.
    + apply Hnew. apply (bool_decide_unpack _). vm_compute. exact I.
    + rewrite Hother by done. reflexivity.
  - eexists. split; [vm_compute; reflexivity|].
    eapply (proj2 (size_query_replaced_then_erased (abi := llpcAbi)) (gfx 7) [Some 0%nat] moduleB _ true 0%nat
              1%positive Int32Ty "llpc.image.querynonlod.sizelod.Buffer"
              [OtherValue 0; OtherValue 1; packMeta 3 5] {| U32All := 323 |}).
    + vm_compute. reflexivity.
    + left.
    + exists [1%positive; 2%positive]. split; [reflexivity|left].
    + reflexivity.
    + reflexivity.
    + reflexivity.
    + split; reflexivity.
    + simpl. lia.
Defined.

Lemma texel_offset_zero_made_non_constant_witness :
  (∃ self' pTexelOffset,
     visitInst (gfx 9) (scan moduleC) 1%positive = Some self' ∧
     moduleInsts (m_pModule self') !! 1%positive
       = Some {| instType := VoidTy;
                 instOp := Call (Some "llpc.image.write.f32.Buffer")
                                [OtherValue 0; OtherValue 1; OtherValue 2;
                                 InstResult pTexelOffset; packMeta 6 5] |} ∧
     (∀ pc, 0 ≤ pc < 2 ^ 56 →
            evalValue 4 (m_pModule self') pc (InstResult pTexelOffset) = Some (RtInt 0)) ∧
     m_imageCalls self' = ∅) ∧
  (∃ module' pTexelOffset,
     runOnModule (gfx 9) [Some 0%nat] moduleC = Some (module', true) ∧
     moduleInsts module' !! 1%positive
       = Some {| instType := VoidTy;
                 instOp := Call (Some "llpc.image.write.f32.Buffer")
                                [OtherValue 0; OtherValue 1; OtherValue 2;
                                 InstResult pTexelOffset; packMeta 6 5] |} ∧
     (∀ pc, 0 ≤ pc < 2 ^ 56 →
            evalValue 4 module' pc (InstResult pTexelOffset) = Some (RtInt 0))).
Proof.
  split.
  - destruct (proj1 (texel_offset_zero_made_non_constant (abi := llpcAbi) llpcAbi_distinct)
                (gfx 9) (scan moduleC)
                1%positive VoidTy "llpc.image.write.f32.Buffer"
                [OtherValue 0; OtherValue 1; OtherValue 2; ConstantInt 32 0; packMeta 6 5]
                {| U32All := 326 |} 32%N
                eq_refl eq_refl eq_refl write_buffer_selected eq_refl eq_refl)
      as (self' & pPc & pPcCast & pPcHigh & pTexelOffset
          & Hv & _ & _ & Hst & _ & _ & _ & _ & Hpc & Hp).
    exists self', pTexelOffset. split; [exact Hv|]. split; [|split; [exact Hpc|exact Hp]].
    rewrite Hst. apply lookup_insert_eq.
  - eexists.
    assert (Hrun : runOnModule (gfx 9) [Some 0%nat] moduleC = Some (_, true))
      by (vm_compute; reflexivity).
    destruct (proj2 (texel_offset_zero_made_non_constant (abi := llpcAbi) llpcAbi_distinct)
                (gfx 9) [Some 0%nat] moduleC _ true 0%nat
                1%positive VoidTy "llpc.image.write.f32.Buffer"
                [OtherValue 0; OtherValue 1; OtherValue 2; ConstantInt 32 0; packMeta 6 5]
                {| U32All := 326 |} 32%N Hrun
                ltac:(left) ltac:(exists [1%positive]; split; [reflexivity|left])
                eq_refl eq_refl eq_refl write_buffer_selected eq_refl eq_refl)
      as (p & Hl & _ & Hpc & _).
    exists p. split; [exact Hrun|]. split; [exact Hl|exact Hpc].
Defined.

(** C4 as stated fails: on generation 7 a buffer fetch, which selects the
    texel offset rule on a generation other than 9, has its operand 3
    changed by the pass: that operand is the result of a buffer size query,
    and the use redirection of the size query rule puts the result of the
    replacing call in its place. *)
Lemma offset_rule_call_operand_redirected :
  ∃ operandList meta module' operandList',
    moduleInsts moduleQueryThenFetch !! 2%positive
      = Some {| instType := OpaqueTy 0;
                instOp := Call (Some "llpc.image.fetch.f32.Buffer") operandList |} ∧
    startswith "llpc.image.fetch.f32.Buffer" ImageCallPrefix = true ∧
    decodeMetadata operandList = Some meta ∧
    OffsetErratumSelector meta ∧
    major (gfx 7) ≠ 9 ∧
    operandList !! 3%nat = Some (InstResult 1) ∧
    runOnModule (gfx 7) [Some 0%nat] moduleQueryThenFetch = Some (module', true) ∧
    moduleInsts module' !! 2%positive
      = Some {| instType := OpaqueTy 0;
                instOp := Call (Some "llpc.image.fetch.f32.Buffer") operandList' |} ∧
    operandList' !! 3%nat = Some (InstResult 3) ∧
    operandList' ≠ operandList.
Proof.
  exists [ConstantInt 32 0; ConstantInt 32 1; ConstantInt 32 0; InstResult 1; packMeta 1 5],
         {| U32All := 321 |}.
  eexists _, [ConstantInt 32 0; ConstantInt 32 1; ConstantInt 32 0; InstResult 3;
              packMeta 1 5].
  split; [reflexivity|]. split; [reflexivity|]. split; [reflexivity|].
  split; [exact fetch_buffer_selected|]. split; [simpl; lia|]. split; [reflexivity|].
  split; [vm_compute; reflexivity|]. split; [vm_compute; reflexivity|].
  split; [reflexivity|discriminate].
Qed.

Lemma offset_rule_keeps_call_witness :
  visitInst (gfx 8) (scan moduleC) 1%positive = Some (scan moduleC) ∧
  ∃ module',
    runOnModule (gfx 7) [Some 0%nat] moduleQueryThenFetch = Some (module', true) ∧
    KeptThroughPass moduleQueryThenFetch module' 2%positive (OpaqueTy 0)
      (Some "llpc.image.fetch.f32.Buffer")
      [ConstantInt 32 0; ConstantInt 32 1; ConstantInt 32 0; InstResult 1; packMeta 1 5].
Proof.
  split.
  - apply (proj1 (offset_rule_keeps_call (abi := llpcAbi) llpcAbi_distinct)
             (gfx 8) (scan moduleC) 1%positive VoidTy
             "llpc.image.write.f32.Buffer"
             [OtherValue 0; OtherValue 1; OtherValue 2; ConstantInt 32 0; packMeta 6 5]
             {| U32All := 326 |}
             eq_refl eq_refl eq_refl write_buffer_selected).
    left. simpl. lia.
  - eexists.
    assert (Hrun : runOnModule (gfx 7) [Some 0%nat] moduleQueryThenFetch = Some (_, true))
      by (vm_compute; reflexivity).
    split; [exact Hrun|].
    apply (proj2 (offset_rule_keeps_call (abi := llpcAbi) llpcAbi_distinct)
             (gfx 7) [Some 0%nat] moduleQueryThenFetch _ true 2%positive (OpaqueTy 0)
             "llpc.image.fetch.f32.Buffer"
             [ConstantInt 32 0; ConstantInt 32 1; ConstantInt 32 0; InstResult 1;
              packMeta 1 5]
             {| U32All := 321 |} Hrun eq_refl eq_refl eq_refl fetch_buffer_selected).
    left. simpl. lia.
Defined.

(** C5 as stated fails: on generation 7 the call that replaced a buffer size
    query still has the recognized prefix and the same metadata, and a second
    run replaces it again. *)
Lemma second_run_replaces_the_replacement :
  ∃ m1 m2,
    runOnModule (gfx 7) [Some 0%nat] moduleB = Some (m1, true) ∧
    runOnModule (gfx 7) [Some 0%nat] m1 = Some (m2, true) ∧
    m2 ≠ m1 ∧
    moduleInsts m1 !! 3%positive
      = Some {| instType := Int32Ty;
                instOp := Call (Some "llpc.image.querynonlod.sizelod.Buffer.gfx6")
                               [OtherValue 0; OtherValue 1; packMeta 3 5] |} ∧
    moduleInsts m2 !! 3%positive = None ∧
    moduleInsts m2 !! 4%positive
      = Some {| instType := Int32Ty;
                instOp := Call (Some "llpc.image.querynonlod.sizelod.Buffer.gfx6.gfx6")
                               [OtherValue 0; OtherValue 1; packMeta 3 5] |}.
Proof.
  eexists _, _. split; [vm_compute; reflexivity|]. split; [vm_compute; reflexivity|].
  split; [|split; [vm_compute; reflexivity|split; vm_compute; reflexivity]].
  intros H. apply (f_equal (λ m, moduleInsts m !! 3%positive)) in H.
  vm_compute in H. discriminate H.
Qed.

Lemma second_run_is_noop_without_replacement_witness :
  (∃ m1, runOnModule (gfx 9) [Some 0%nat] moduleC = Some (m1, true) ∧
         moduleFuncs m1 = [[2; 3; 4; 5; 1]%positive] ∧
         runOnModule (gfx 9) [Some 0%nat] m1 = Some (m1, true)) ∧
  runOnModule (gfx 7) [Some 0%nat] moduleA = Some (moduleA, true).
Proof.
  split.
  - eexists. split; [vm_compute; reflexivity|]. split; [reflexivity|].
    eapply (second_run_is_noop_without_replacement (abi := llpcAbi) (gfx 9) [Some 0%nat]
              moduleC _ true eq_refl eq_refl).
    + vm_compute. reflexivity.
    + left. simpl. lia.
  - eapply (second_run_is_noop_without_replacement (abi := llpcAbi) (gfx 7) [Some 0%nat]
              moduleA moduleA true eq_refl eq_refl).
    + vm_compute. reflexivity.
    + right. eexists. split; [vm_compute; reflexivity|reflexivity].
Defined.

Lemma read_1d_unselected :
  ¬ SizeQuerySelector {| U32All := 5 |} ∧ ¬ OffsetErratumSelector {| U32All := 5 |}.
Proof. split; intros [H1 H2]; vm_compute in H1, H2; discriminate. Qed.

(** C6 as stated fails: a 1D image read selects neither rule, yet after the
    pass on generation 7 its coordinate operand, the result of a buffer size
    query, is the result of the call that replaced the query. *)
Lemma unselected_call_operand_redirected :
  ∃ operandList meta module' operandList',
    moduleInsts moduleQueryThenRead !! 2%positive
      = Some {| instType := OpaqueTy 0;
                instOp := Call (Some "llpc.image.read.f32.1D") operandList |} ∧
    startswith "llpc.image.read.f32.1D" ImageCallPrefix = true ∧
    decodeMetadata operandList = Some meta ∧
    ¬ SizeQuerySelector meta ∧ ¬ OffsetErratumSelector meta ∧
    runOnModule (gfx 7) [Some 0%nat] moduleQueryThenRead = Some (module', true) ∧
    moduleInsts module' !! 2%positive
      = Some {| instType := OpaqueTy 0;
                instOp := Call (Some "llpc.image.read.f32.1D") operandList' |} ∧
    operandList !! 3%nat = Some (InstResult 1) ∧
    operandList' !! 3%nat = Some (InstResult 3) ∧
    operandList' ≠ operandList.
Proof.
  exists [ConstantInt 32 0; ConstantInt 32 1; ConstantInt 32 0; InstResult 1; packMeta 5 0],
         {| U32All := 5 |}.
  eexists _, [ConstantInt 32 0; ConstantInt 32 1; ConstantInt 32 0; InstResult 3; packMeta 5 0].
  split; [reflexivity|]. split; [reflexivity|]. split; [reflexivity|].
  split; [apply read_1d_unselected|]. split; [apply read_1d_unselected|].
  split; [vm_compute; reflexivity|]. split; [vm_compute; reflexivity|].
  split; [reflexivity|]. split; [reflexivity|]. discriminate.
Qed.

Lemma unselected_call_untouched_witness :
  visitInst (gfx 6) (scan moduleA) 1%positive = Some (scan moduleA) ∧
  ∃ module',
    runOnModule (gfx 7) [Some 0%nat] moduleQueryThenRead = Some (module', true) ∧
    KeptThroughPass moduleQueryThenRead module' 2%positive (OpaqueTy 0)
      (Some "llpc.image.read.f32.1D")
      [ConstantInt 32 0; ConstantInt 32 1; ConstantInt 32 0; InstResult 1; packMeta 5 0].
Proof.
  split.
  - apply (proj1 (unselected_call_untouched (abi := llpcAbi)) (gfx 6) (scan moduleA)
             1%positive (OpaqueTy 0) "llpc.image.sample.f32.2D"
             [OtherValue 0; OtherValue 1; OtherValue 2; ConstantInt 32 0; packMeta 0 1]
             {| U32All := 64 |} eq_refl eq_refl eq_refl).
    + intros [H _]. vm_compute in H. discriminate H.
    + intros [H _]. vm_compute in H. discriminate H.
  - eexists.
    assert (Hrun : runOnModule (gfx 7) [Some 0%nat] moduleQueryThenRead = Some (_, true))
      by (vm_compute; reflexivity).
    split; [exact Hrun|].
    exact (proj2 (unselected_call_untouched (abi := llpcAbi)) (gfx 7) [Some 0%nat]
             moduleQueryThenRead _ true 2%positive (OpaqueTy 0) "llpc.image.read.f32.1D"
             [ConstantInt 32 0; ConstantInt 32 1; ConstantInt 32 0; InstResult 1;
              packMeta 5 0]
             {| U32All := 5 |} Hrun eq_refl eq_refl eq_refl
             (proj1 read_1d_unselected) (proj2 read_1d_unselected)).
Defined.

Lemma rules_exclusive_and_order_independent_witness :
  (∀ meta, ¬ (SizeQuerySelector meta ∧ OffsetErratumSelector meta)) ∧
  (∀ meta, isBufferSizeQuery meta && isBufferOffsetOp meta = false) ∧
  (∀ gfxIp self callInst ty pCallee operandList,
     visitCallInstSwapped gfxIp self callInst ty pCallee operandList
     = visitCallInst gfxIp self callInst ty pCallee operandList).
Proof.
  apply (rules_exclusive_and_order_independent (abi := llpcAbi)).
  apply (bool_decide_unpack _). vm_compute. exact I.
Defined.

Lemma metadata_decoding_succeeds_witness :
  decodeMetadata [OtherValue 0; OtherValue 1; packMeta 3 5] = Some {| U32All := 323 |} ∧
  OpKind {| U32All := 323 |} = 3 ∧ Dim {| U32All := 323 |} = 5.
Proof.
  destruct (metadata_decoding_succeeds (abi := llpcAbi)
              [OtherValue 0; OtherValue 1; packMeta 3 5] 32 323
              ltac:(simpl; lia) eq_refl) as (Hdec & Hfields & _).
  split; [exact Hdec|]. destruct (Hfields _ Hdec) as [Hk Hd].
  split; [exact Hk|exact Hd].
Defined.

Lemma texel_offset_read_needs_four_operands_witness :
  length [OtherValue 0; packMeta 1 5] = 2%nat ∧
  visitInst (gfx 9) (scan moduleShortFetch) 1%positive = None.
Proof.
  split; [reflexivity|].
  apply (texel_offset_read_needs_four_operands (abi := llpcAbi) (gfx 9)
           (scan moduleShortFetch) 1%positive Int32Ty "llpc.image.fetch.f32.Buffer"
           [OtherValue 0; packMeta 1 5] {| U32All := 321 |}
           llpcAbi_distinct eq_refl eq_refl eq_refl fetch_buffer_selected eq_refl).
  simpl. lia.
Defined.

(** C10 as stated fails: on generation 7 a call through a function pointer
    whose operand is the result of a buffer size query has that operand
    changed by the pass, through the use redirection of the size query
    rule. *)
Lemma indirect_call_operand_redirected :
  ∃ module',
    moduleInsts moduleQueryThenIndirect !! 2%positive
      = Some {| instType := VoidTy;
                instOp := Call None [InstResult 1; ConstantInt 32 0] |} ∧
    runOnModule (gfx 7) [Some 0%nat] moduleQueryThenIndirect = Some (module', true) ∧
    moduleInsts module' !! 2%positive
      = Some {| instType := VoidTy;
                instOp := Call None [InstResult 3; ConstantInt 32 0] |} ∧
    moduleInsts module' !! 2%positive ≠ moduleInsts moduleQueryThenIndirect !! 2%positive.
Proof.
  eexists. split; [reflexivity|]. split; [vm_compute; reflexivity|].
  split; [vm_compute; reflexivity|]. vm_compute. discriminate.
Qed.

Lemma indirect_call_untouched_witness :
  visitInst (gfx 9) (scan moduleIndirect) 1%positive = Some (scan moduleIndirect) ∧
  ∃ module',
    runOnModule (gfx 7) [Some 0%nat] moduleQueryThenIndirect = Some (module', true) ∧
    KeptThroughPass moduleQueryThenIndirect module' 2%positive VoidTy None
      [InstResult 1; ConstantInt 32 0].
Proof.
  split.
  - apply (proj1 (indirect_call_untouched (abi := llpcAbi)) (gfx 9) (scan moduleIndirect)
             1%positive Int32Ty [OtherValue 0; ConstantInt 32 0]).
    reflexivity.
  - eexists.
    assert (Hrun : runOnModule (gfx 7) [Some 0%nat] moduleQueryThenIndirect = Some (_, true))
      by (vm_compute; reflexivity).
    split; [exact Hrun|].
    exact (proj2 (indirect_call_untouched (abi := llpcAbi)) (gfx 7) [Some 0%nat]
             moduleQueryThenIndirect _ true 2%positive VoidTy
             [InstResult 1; ConstantInt 32 0] Hrun eq_refl).
Defined.

(** *** The further properties on the scenarios *)

Lemma moduleB_closed : ClosedModule moduleB.
Proof.
  split.
  - intros j i d Hj Hd. unfold moduleB in *. cbn [moduleInsts] in *.
    apply lookup_insert_Some in Hj as [[<- <-]|[_ Hj]].
    { simpl in Hd. rewrite !elem_of_cons, elem_of_nil in Hd.
      destruct Hd as [Hd|[Hd|[Hd|[]]]]; discriminate Hd. }
    apply lookup_insert_Some in Hj as [[<- <-]|[_ Hj]]; [|by rewrite lookup_empty in Hj].
    simpl in Hd. apply list_elem_of_singleton in Hd. injection Hd as ->.
    by eexists.
  - intros body x Hb Hx. unfold moduleB in *. cbn [moduleFuncs moduleInsts] in *.
    apply list_elem_of_singleton in Hb as ->.
    rewrite !elem_of_cons, elem_of_nil in Hx.
    destruct Hx as [->|[->|[]]]; by eexists.
Qed.

Lemma pass_returns_on_well_formed_module_witness :
  ∃ module', runOnModule (gfx 9) [Some 0%nat] moduleC = Some (module', true) ∧
             WellFormedModule (gfx 9) module'.
Proof.
  apply (pass_returns_on_well_formed_module (abi := llpcAbi) (gfx 9) [Some 0%nat] moduleC
           eq_refl eq_refl).
  intros id ty nm ops H Hpre. unfold moduleC in H. cbn [moduleInsts] in H.
  apply lookup_insert_Some in H as [[<- H]|[_ H]]; [|by rewrite lookup_empty in H].
  injection H as <- <- <-. exists {| U32All := 326 |}.
  split; [reflexivity|]. intros _ _ _. simpl. lia.
Defined.

Lemma erased_exactly_the_size_queries_of_entry_points_witness :
  ∃ module', runOnModule (gfx 7) [Some 0%nat] moduleB = Some (module', true) ∧
             moduleInsts module' !! 1%positive = None.
Proof.
  eexists.
  assert (Hrun : runOnModule (gfx 7) [Some 0%nat] moduleB = Some (_, true))
    by (vm_compute; reflexivity).
  split; [exact Hrun|].
  apply (proj2 (erased_exactly_the_size_queries_of_entry_points (abi := llpcAbi)
                  (gfx 7) [Some 0%nat] moduleB _ true 1%positive _ Hrun eq_refl)).
  split; [simpl; lia|]. split.
  - exists "llpc.image.querynonlod.sizelod.Buffer",
           [OtherValue 0; OtherValue 1; packMeta 3 5], {| U32All := 323 |}.
    split; [reflexivity|]. split; [reflexivity|]. split; [reflexivity|].
    split; reflexivity.
  - exists 0%nat. split; [left|]. exists [1%positive; 2%positive].
    split; [reflexivity|left].
Defined.

Lemma pass_preserves_closed_modules_witness :
  ∃ module', runOnModule (gfx 7) [Some 0%nat] moduleB = Some (module', true) ∧
             ClosedModule module'.
Proof.
  eexists.
  assert (Hrun : runOnModule (gfx 7) [Some 0%nat] moduleB = Some (_, true))
    by (vm_compute; reflexivity).
  split; [exact Hrun|].
  exact (pass_preserves_closed_modules (abi := llpcAbi) (gfx 7) [Some 0%nat] moduleB _ true
           moduleB_closed Hrun).
Defined.

Lemma pass_keeps_the_order_of_instructions_witness :
  ∃ module' body',
    runOnModule (gfx 7) [Some 0%nat] moduleB = Some (module', true) ∧
    moduleFuncs module' !! 0%nat = Some body' ∧
    filter (λ x, x ∈ dom (moduleInsts moduleB)) body'
    = filter (λ x, x ∈ dom (moduleInsts module')) [1%positive; 2%positive].
Proof.
  eexists.
  assert (Hrun : runOnModule (gfx 7) [Some 0%nat] moduleB = Some (_, true))
    by (vm_compute; reflexivity).
  destruct (pass_keeps_the_order_of_instructions (abi := llpcAbi) (gfx 7) [Some 0%nat]
              moduleB _ true (proj2 moduleB_closed) Hrun
              0%nat [1%positive; 2%positive] eq_refl) as (body' & Hb & Hf).
  exists body'. split; [exact Hrun|]. split; [exact Hb|exact Hf].
Defined.

Lemma result_depends_on_generation_class_witness :
  runOnModule (gfx 6) [Some 0%nat] moduleB = runOnModule (gfx 7) [Some 0%nat] moduleB ∧
  runOnModule {| major := 9; minor := 0; stepping := 6 |} [Some 0%nat] moduleC
  = runOnModule (gfx 9) [Some 0%nat] moduleC.
Proof.
  split.
  - apply (result_depends_on_generation_class (abi := llpcAbi)). left. simpl. lia.
  - apply (result_depends_on_generation_class (abi := llpcAbi)). right; right. reflexivity.
Defined.

Lemma pass_changes_nothing_above_generation_9_witness :
  runOnModule (gfx 10) [Some 0%nat] moduleC = Some (moduleC, true).
Proof.
  apply (proj2 (pass_changes_nothing_above_generation_9 (abi := llpcAbi) (gfx 10)
                  [Some 0%nat] moduleC ltac:(simpl; lia))).
  intros id ty nm ops H Hpre. unfold moduleC in H. cbn [moduleInsts] in H.
  apply lookup_insert_Some in H as [[<- H]|[_ H]]; [|by rewrite lookup_empty in H].
  injection H as <- <- <-. by eexists.
Defined.

Lemma instruction_outside_entry_points_is_kept_witness :
  ∃ module',
    runOnModule (gfx 7) [Some 0%nat] moduleHelperFunction = Some (module', true) ∧
    moduleInsts module' !! 1%positive = None ∧
    moduleInsts module' !! 3%positive
      = Some {| instType := Int32Ty;
                instOp := Call (Some "llpc.image.querynonlod.sizelod.Buffer")
                               [OtherValue 2; OtherValue 3; packMeta 3 5] |}.
Proof.
  eexists.
  assert (Hrun : runOnModule (gfx 7) [Some 0%nat] moduleHelperFunction = Some (_, true))
    by (vm_compute; reflexivity).
  split; [exact Hrun|]. split; [vm_compute; reflexivity|].
  destruct (instruction_outside_entry_points_is_kept (abi := llpcAbi) (gfx 7) [Some 0%nat]
              moduleHelperFunction _ true 3%positive _ Hrun eq_refl)
    as (i' & Hi' & Hty & Hsh & Hred).
  { intros f Hf (body & Hb & Hin). apply list_elem_of_singleton in Hf. injection Hf as ->.
    injection Hb as <-. rewrite !elem_of_cons, elem_of_nil in Hin.
    destruct Hin as [?|[?|[]]]; discriminate. }
  rewrite Hi'. f_equal. destruct i' as [ty' op'].
  cbn [instType instOp] in Hty, Hsh, Hred. subst ty'.
  apply opShape_Call in Hsh as (ops' & -> & _). f_equal. f_equal.
  cbn [operands] in Hred. eapply RedirectedWhere_no_inst; [|exact Hred].
  intros d Hd. rewrite !elem_of_cons, elem_of_nil in Hd.
  destruct Hd as [?|[?|[?|[]]]]; discriminate.
Defined.

Lemma synthesized_offset_is_the_top_byte_of_the_program_counter_witness :
  ∃ self' pTexelOffset,
    visitInst (gfx 9) (scan moduleC) 1%positive = Some self' ∧
    evalValue 4 (m_pModule self') (2 ^ 60) (InstResult pTexelOffset) = Some (RtInt 16).
Proof.
  destruct (synthesized_offset_is_the_top_byte_of_the_program_counter (abi := llpcAbi)
              (gfx 9) (scan moduleC) 1%positive VoidTy "llpc.image.write.f32.Buffer"
              [OtherValue 0; OtherValue 1; OtherValue 2; ConstantInt 32 0; packMeta 6 5]
              {| U32All := 326 |} 32%N 0 (2 ^ 60)
              eq_refl eq_refl eq_refl eq_refl eq_refl eq_refl eq_refl eq_refl
              ltac:(lia))
    as (self' & p & ops' & Hv & _ & _ & Hval & _).
  exists self', p. split; [exact Hv|exact Hval].
Defined.

Lemma surviving_instruction_keeps_its_shape_witness :
  ∃ module',
    runOnModule (gfx 7) [Some 0%nat] moduleQueryThenFetch = Some (module', true) ∧
    KeepsShape (gfx 7) (λ d, moduleInsts module' !! d = None)
      (λ d, moduleInsts moduleQueryThenFetch !! d = None)
      {| instType := OpaqueTy 0;
         instOp := Call (Some "llpc.image.fetch.f32.Buffer")
                        [ConstantInt 32 0; ConstantInt 32 1; ConstantInt 32 0;
                         InstResult 1; packMeta 1 5] |}
      {| instType := OpaqueTy 0;
         instOp := Call (Some "llpc.image.fetch.f32.Buffer")
                        [ConstantInt 32 0; ConstantInt 32 1; ConstantInt 32 0;
                         InstResult 3; packMeta 1 5] |}.
Proof.
  eexists.
  assert (Hrun : runOnModule (gfx 7) [Some 0%nat] moduleQueryThenFetch = Some (_, true))
    by (vm_compute; reflexivity).
  split; [exact Hrun|].
  apply (surviving_instruction_keeps_its_shape (abi := llpcAbi) (gfx 7) [Some 0%nat]
           moduleQueryThenFetch _ true 2%positive _ _ Hrun eq_refl).
  vm_compute. reflexivity.
Defined.

Lemma pass_creates_only_its_own_instructions_witness :
  ∃ module',
    runOnModule (gfx 7) [Some 0%nat] moduleB = Some (module', true) ∧
    moduleInsts moduleB !! 3%positive = None ∧
    CreatedByPass (gfx 7)
      {| instType := Int32Ty;
         instOp := Call (Some "llpc.image.querynonlod.sizelod.Buffer.gfx6")
                        [OtherValue 0; OtherValue 1; packMeta 3 5] |}.
Proof.
  eexists.
  assert (Hrun : runOnModule (gfx 7) [Some 0%nat] moduleB = Some (_, true))
    by (vm_compute; reflexivity).
  split; [exact Hrun|]. split; [reflexivity|].
  apply (pass_creates_only_its_own_instructions (abi := llpcAbi) (gfx 7) [Some 0%nat]
           moduleB _ true 3%positive _ Hrun eq_refl).
  vm_compute. reflexivity.
Defined.

Lemma replacement_is_again_a_buffer_size_query_witness :
  ∃ self' pImageCall i self'',
    visitInst (gfx 7) (scan moduleB) 1%positive = Some self' ∧
    moduleInsts (m_pModule self') !! pImageCall = Some i ∧
    IsBufferSizeQueryCall i ∧
    visitInst (gfx 7) self' pImageCall = Some self'' ∧
    pImageCall ∈ m_imageCalls self''.
Proof.
  destruct (replacement_is_again_a_buffer_size_query (abi := llpcAbi)
              (gfx 7) (scan moduleB) 1%positive Int32Ty
              "llpc.image.querynonlod.sizelod.Buffer"
              [OtherValue 0; OtherValue 1; packMeta 3 5] {| U32All := 323 |}
              eq_refl eq_refl eq_refl (conj eq_refl eq_refl) ltac:(simpl; lia))
    as (self' & new & i & self'' & Hv & _ & Hi & _ & Hq & Hv' & Hin).
  by exists self', new, i, self''.
Defined.

Lemma final_loop_erases_only_unused_calls_witness :
  ∃ self',
    visitStages (gfx 7) (scan moduleB) [Some 0%nat] = Some self' ∧
    1%positive ∈ m_imageCalls self' ∧
    is_Some (moduleInsts (m_pModule self') !! 1%positive) ∧
    NoUseOf 1 (m_pModule self') ∧
    NoUseOf 1 (m_pModule (eraseImageCalls self')).
Proof.
  eexists.
  assert (Hscan : visitStages (gfx 7) (scan moduleB) [Some 0%nat] = Some _)
    by (vm_compute; reflexivity).
  split; [exact Hscan|].
  assert (Hin : ∀ E : gset InstId, E = {[1%positive]} → 1%positive ∈ E)
    by (intros E ->; by apply elem_of_singleton).
  split; [apply Hin; vm_compute; reflexivity|].
  apply (final_loop_erases_only_unused_calls (abi := llpcAbi) (gfx 7) [Some 0%nat]
           moduleB _ Hscan).
  apply Hin. vm_compute. reflexivity.
Defined.

Lemma scheduled_calls_are_live_until_the_final_loop_witness :
  ∃ self',
    visitStages (gfx 7) (scan moduleB) [Some 0%nat] = Some self' ∧
    dom (moduleInsts moduleB) ⊆ dom (moduleInsts (m_pModule self')) ∧
    m_imageCalls self' ⊆ dom (moduleInsts (m_pModule self')) ∧
    dom (moduleInsts (m_pModule (eraseImageCalls self')))
      = dom (moduleInsts (m_pModule self')) ∖ m_imageCalls self'.
Proof.
  eexists.
  assert (Hscan : visitStages (gfx 7) (scan moduleB) [Some 0%nat] = Some _)
    by (vm_compute; reflexivity).
  destruct (scheduled_calls_are_live_until_the_final_loop (abi := llpcAbi) (gfx 7)
              [Some 0%nat] moduleB _ Hscan) as (H1 & H2 & H3 & _).
  split; [exact Hscan|]. split; [exact H1|]. split; [exact H2|exact H3].
Defined.

Lemma no_constant_zero_offset_left_on_generation_9_witness :
  ∃ module',
    runOnModule (gfx 9) [Some 0%nat] moduleC = Some (module', true) ∧
    moduleInsts module' !! 1%positive
      = Some {| instType := VoidTy;
                instOp := Call (Some "llpc.image.write.f32.Buffer")
                               [OtherValue 0; OtherValue 1; OtherValue 2;
                                InstResult 5; packMeta 6 5] |} ∧
    ∀ bits val,
      [OtherValue 0; OtherValue 1; OtherValue 2; InstResult 5; packMeta 6 5] !! 3%nat
        = Some (ConstantInt bits val) →
      toU32 (getZExtValue val) ≠ 0.
Proof.
  eexists.
  assert (Hrun : runOnModule (gfx 9) [Some 0%nat] moduleC = Some (_, true))
    by (vm_compute; reflexivity).
  split; [exact Hrun|]. split; [vm_compute; reflexivity|].
  eapply (no_constant_zero_offset_left_on_generation_9 (abi := llpcAbi) (gfx 9)
            [Some 0%nat] moduleC _ true 0%nat 1%positive VoidTy
            "llpc.image.write.f32.Buffer" _ {| U32All := 326 |}).
  - reflexivity.
  - exact Hrun.
  - left.
  - exists [1%positive]. split; [reflexivity|left].
  - vm_compute. reflexivity.
  - reflexivity.
  - reflexivity.
  - reflexivity.
  - reflexivity.
Defined.

Lemma body_outside_entry_points_is_unchanged_witness :
  ∃ module',
    runOnModule (gfx 7) [Some 0%nat] moduleHelperFunction = Some (module', true) ∧
    moduleFuncs module' !! 0%nat = Some [5%positive; 2%positive] ∧
    moduleFuncs module' !! 1%nat = Some [3%positive; 4%positive].
Proof.
  eexists.
  assert (Hrun : runOnModule (gfx 7) [Some 0%nat] moduleHelperFunction = Some (_, true))
    by (vm_compute; reflexivity).
  split; [exact Hrun|]. split; [reflexivity|].
  apply (body_outside_entry_points_is_unchanged (abi := llpcAbi) (gfx 7) [Some 0%nat]
           moduleHelperFunction _ true 1%nat [3%positive; 4%positive] Hrun eq_refl).
  - intros x Hx. rewrite !elem_of_cons, elem_of_nil in Hx.
    destruct Hx as [->|[->|[]]]; by eexists.
  - intros x g Hx Hg (body & Hb & Hin). apply list_elem_of_singleton in Hg.
    injection Hg as ->. injection Hb as <-.
    rewrite !elem_of_cons, elem_of_nil in Hx, Hin.
    destruct Hx as [->|[->|[]]]; destruct Hin as [?|[?|[]]]; discriminate.
Defined.

Lemma use_points_to_a_live_instruction_of_the_same_type_witness :
  ∃ module' d',
    runOnModule (gfx 7) [Some 0%nat] moduleQueryThenFetch = Some (module', true) ∧
    [ConstantInt 32 0; ConstantInt 32 1; ConstantInt 32 0; InstResult 3; packMeta 1 5]
      !! 3%nat = Some (InstResult d') ∧
    moduleInsts module' !! 1%positive = None ∧
    ∃ r nm ops, moduleInsts module' !! d' = Some r ∧ instType r = Int32Ty ∧
                instOp r = Call (Some nm) ops ∧ startswith nm ImageCallPrefix = true.
Proof.
  eexists.
  assert (Hrun : runOnModule (gfx 7) [Some 0%nat] moduleQueryThenFetch = Some (_, true))
    by (vm_compute; reflexivity).
  destruct (use_points_to_a_live_instruction_of_the_same_type (abi := llpcAbi)
              (gfx 7) [Some 0%nat] moduleQueryThenFetch _ true 2%positive _
              {| instType := OpaqueTy 0;
                 instOp := Call (Some "llpc.image.fetch.f32.Buffer")
                                [ConstantInt 32 0; ConstantInt 32 1; ConstantInt 32 0;
                                 InstResult 3; packMeta 1 5] |}
              3%nat 1%positive _ Hrun eq_refl eq_refl eq_refl)
    as (d' & Hd' & [[Hsome _]|(Hnone & _ & Hr)]).
  { vm_compute. reflexivity. }
  { exfalso. revert Hsome. vm_compute. intros [? ?]. discriminate. }
  exists d'. split; [exact Hrun|]. split; [exact Hd'|]. split; [exact Hnone|exact Hr].
Defined.

Lemma unrecognized_call_is_kept_witness :
  visitCallInst (gfx 7) (scan moduleHelperFunction) 2%positive VoidTy (Some "helper")
    [InstResult 1] = Some (scan moduleHelperFunction) ∧
  ∃ module',
    runOnModule (gfx 7) [Some 0%nat] moduleHelperFunction = Some (module', true) ∧
    KeptThroughPass moduleHelperFunction module' 2%positive VoidTy (Some "helper")
      [InstResult 1].
Proof.
  split.
  - apply (proj1 (unrecognized_call_is_kept (abi := llpcAbi))). reflexivity.
  - eexists.
    assert (Hrun : runOnModule (gfx 7) [Some 0%nat] moduleHelperFunction = Some (_, true))
      by (vm_compute; reflexivity).
    split; [exact Hrun|].
    exact (proj2 (unrecognized_call_is_kept (abi := llpcAbi)) (gfx 7) [Some 0%nat]
             moduleHelperFunction _ true 2%positive VoidTy "helper" [InstResult 1]
             eq_refl Hrun eq_refl).
Defined.

End Scenarios.

End Llpc.
